(** * Area operations on data cubes: a shallow embedding of
      [esmvaltool/preprocessor/_area.py]

    The module subsets a cube to a longitude/latitude box
    ([extract_region]), collapses one axis ([zonal_means]) or two
    ([average_region]) with a named statistic, and selects named regions
    ([extract_named_regions]).

    Conventions of the embedding:
    - Python floats are rationals ([Q]); comparisons are exact.
    - Python [str] is [string], for text in ASCII.
    - A cube is a mutable Python object: cubes live in a heap indexed by
      their identity, and every operation threads that heap.
    - A masked array carries either no mask ([nomask], as numpy has it
      for data without a masked element) or one flag per element; data
      that is a plain array is data with [nomask].
    - Exceptions are values: a class and the argument tuple it was built
      from.
    - iris is a library outside the module: its operations are an
      interface ([IrisLibrary]).  What the module itself does is proved
      for every library.  An executable library ([Reference.library]) is
      given to run the operations; its operations are written after what
      the specification says of them.
    - Calls to the logger are left out. *)

From Stdlib Require Import QArith Qround Qabs Lia Lqa Ascii String.
From stdpp Require Import base list strings gmap.

Local Open Scope string_scope.
Local Open Scope list_scope.

(** ** Python values that appear in exception arguments *)

Inductive PyVal :=
| PStr (s : string)
| PStrList (l : list string)
| PStrSet (s : gset string)
| PNumSet (l : list Q)
| PShape (s : list nat)
| PCoord (name : string).

(** An exception argument is a value as it is, or the result of
    [template.format(args)], kept as the template and its arguments. *)
Inductive PyArg :=
| Plain (v : PyVal)
| Formatted (template : string) (args : list PyVal).

Inductive ExnClass :=
| ValueError
| IndexError
| TypeError
| OSError
| CoordinateMultiDimError
| CoordinateNotFoundError
| ReferenceError.

Record Exn := mkExn { exn_class : ExnClass; exn_args : list PyArg }.

Inductive Result (A : Type) :=
| Ok (a : A)
| Raise (e : Exn).
Arguments Ok {A} a.
Arguments Raise {A} e.

(** ** [str.lower] and [str.strip]

    Text is in ASCII: [str.lower] lowers the letters A to Z.  (Python
    also lowers the capital letters outside ASCII; a character above 127
    is left as it is here.) *)

Definition lower_ascii (c : ascii) : ascii :=
  let n := nat_of_ascii c in
  if (65 <=? n)%nat && (n <=? 90)%nat then ascii_of_nat (n + 32) else c.

Fixpoint lower (s : string) : string :=
  match s with
  | EmptyString => EmptyString
  | String c r => String (lower_ascii c) (lower r)
  end.

Definition is_space (c : ascii) : bool :=
  let n := nat_of_ascii c in
  ((9 <=? n)%nat && (n <=? 13)%nat) || (n =? 32)%nat.

Fixpoint lstrip (s : string) : string :=
  match s with
  | EmptyString => EmptyString
  | String c r => if is_space c then lstrip r else s
  end.

Fixpoint rstrip (s : string) : string :=
  match s with
  | EmptyString => EmptyString
  | String c r =>
      match rstrip r with
      | EmptyString => if is_space c then EmptyString else String c EmptyString
      | r' => String c r'
      end
  end.

Definition strip (s : string) : string := rstrip (lstrip s).

(** ** [get_iris_analysis_operation] *)

(** The aggregators of [iris.analysis] the module refers to. *)
Inductive Operation := MEAN | MEDIAN | STD_DEV | VARIANCE | MIN | MAX.

Definition operators : list string :=
  ["mean"; "median"; "stdev"; "variance"; "min"; "minimum"; "max"; "maximum"].

Definition str_in (s : string) (l : list string) : bool :=
  existsb (String.eqb s) l.

Definition operator_not_recognised : string :=
  "operator ({}) not recognised. Accepted values are: {}".

Definition get_iris_analysis_operation (operator : string) : Result Operation :=
  let operator := lower operator in
  if String.eqb operator "mean" then Ok MEAN
  else if String.eqb operator "median" then Ok MEDIAN
  else if String.eqb operator "stdev" then Ok STD_DEV
  else if String.eqb operator "variance" then Ok VARIANCE
  else if str_in operator ["minimum"; "min"] then Ok MIN
  else if str_in operator ["maximum"; "max"] then Ok MAX
  else Raise (mkExn ValueError
                [Plain (PStr operator_not_recognised); Plain (PStr operator);
                 Plain (PStrList operators)]).

(** The resolver as the specification words it: the name is trimmed and
    lower-cased before it is looked up among the accepted names. *)
Definition spec_accepts (name : string) : bool :=
  str_in (lower (strip name)) operators.


(** ** numpy arrays

    An array is its shape and its elements in row-major (C) order. *)

Record ndarray (A : Type) := mkArr { shape : list nat; elems : list A }.
Arguments mkArr {A} shape elems.
Arguments shape {A} _.
Arguments elems {A} _.

Definition ndim {A} (a : ndarray A) : nat := length (shape a).

Fixpoint prod_shape (s : list nat) : nat :=
  match s with
  | [] => 1
  | n :: s' => n * prod_shape s'
  end.

(** [chunks n size l]: the [n] consecutive blocks of [size] elements of
    [l], the sub-arrays along the leading axis. *)
Fixpoint chunks {A} (n size : nat) (l : list A) : list (list A) :=
  match n with
  | O => []
  | S n' => take size l :: chunks n' size (drop size l)
  end.

Definition flatten {A} (blocks : list (list A)) : list A := concat blocks.

Definition repeat_block {A} (n : nat) (b : list A) : list A :=
  flatten (replicate n b).

(** Shapes of different rank are aligned on the right: the shorter one is
    padded with leading ones (numpy's broadcasting and [np.tile] rule). *)
Definition pad_left (n : nat) (s : list nat) : list nat :=
  replicate (n - length s) 1 ++ s.

(** Broadcasting of [l], of shape [src], to shape [dst] of the same rank:
    an axis is kept when the lengths agree and repeated when the source
    has length one; anything else cannot be broadcast. *)
Fixpoint broadcast_same {A} (dst src : list nat) (l : list A) : option (list A) :=
  match dst, src with
  | [], [] => Some l
  | n :: dst', m :: src' =>
      if (m =? n)%nat then
        flatten <$> mapM (broadcast_same dst' src') (chunks m (prod_shape src') l)
      else if (m =? 1)%nat then
        repeat_block n <$> broadcast_same dst' src' l
      else None
  | _, _ => None
  end.

Definition broadcast_to {A} (dst : list nat) (a : ndarray A) : option (list A) :=
  if (ndim a <=? length dst)%nat
  then broadcast_same dst (pad_left (length dst) (shape a)) (elems a)
  else None.

(** [np.tile]: the array repeated [reps] times along each axis. *)
Fixpoint tile_same {A} (reps src : list nat) (l : list A) : list A :=
  match reps, src with
  | k :: reps', m :: src' =>
      repeat_block k
        (flatten (map (tile_same reps' src') (chunks m (prod_shape src') l)))
  | _, _ => l
  end.

Definition tile {A} (a : ndarray A) (reps : list nat) : ndarray A :=
  let d := max (length reps) (ndim a) in
  let reps' := pad_left d reps in
  let src := pad_left d (shape a) in
  mkArr (zip_with Nat.mul reps' src) (tile_same reps' src (elems a)).

(** Element-wise comparison of an array with a number. *)
Definition Qltb (x y : Q) : bool := negb (Qle_bool y x).

Definition arr_lt (a : ndarray Q) (x : Q) : ndarray bool :=
  mkArr (shape a) (map (fun v => Qltb v x) (elems a)).

Definition arr_gt (a : ndarray Q) (x : Q) : ndarray bool :=
  mkArr (shape a) (map (fun v => Qltb x v) (elems a)).

(** ** Masked arrays

    numpy is taken as its current releases have it: the mask that
    [np.ma.masked_where] gives an array without a mask is shrunk to
    [nomask] when the condition holds nowhere, and the attribute [mask]
    of a masked array is a view of its flags. *)

(** The mask of a masked array: [nomask], which numpy keeps for an
    array without a masked element, or one flag per element. *)
Inductive Mask :=
| nomask
| MaskArray (flags : list bool).

Record MaskedArray := mkMA {
  ma_shape : list nat;
  ma_values : list Q;
  ma_mask : Mask
}.

(** A plain array as a masked array. *)
Definition plain (a : ndarray Q) : MaskedArray :=
  mkMA (shape a) (elems a) nomask.

(** [np.ma.getmaskarray]: the mask as one flag per element. *)
Definition getmaskarray (a : MaskedArray) : list bool :=
  match ma_mask a with
  | nomask => replicate (prod_shape (ma_shape a)) false
  | MaskArray flags => flags
  end.

(** A boolean value of numpy: a scalar or an array.  [nomask] is the
    scalar [False]. *)
Inductive npbool :=
| Scalar (b : bool)
| Array (a : ndarray bool).

(** [a.mask] *)
Definition mask_attr (a : MaskedArray) : npbool :=
  match ma_mask a with
  | nomask => Scalar false
  | MaskArray flags => Array (mkArr (ma_shape a) flags)
  end.

Definition any (flags : list bool) : bool := existsb id flags.

(** The union of a condition with the mask of an array without a masked
    element stays [nomask] when the condition holds nowhere. *)
Definition mask_or (flags : list bool) (m : Mask) : Mask :=
  match m with
  | nomask => if any flags then MaskArray flags else nomask
  | MaskArray old => MaskArray (zip_with orb flags old)
  end.

Definition inconsistent_shape : string :=
  "Inconsistent shape between the condition and the input (got %s and %s)".

(** [np.ma.masked_where(condition, a)]: a copy of [a] masked where the
    condition holds or [a] was masked already.  A condition without
    axes applies to every element; any other condition must have the
    shape of [a]. *)
Definition masked_where (condition : npbool) (a : MaskedArray)
  : Result MaskedArray :=
  let masked_by (b : bool) :=
    if b then
      mkMA (ma_shape a) (ma_values a)
        (MaskArray (replicate (prod_shape (ma_shape a)) true))
    else a in
  match condition with
  | Scalar b => Ok (masked_by b)
  | Array c =>
      if bool_decide (shape c = []) then Ok (masked_by (any (elems c)))
      else if bool_decide (shape c = ma_shape a) then
        Ok (mkMA (ma_shape a) (ma_values a) (mask_or (elems c) (ma_mask a)))
      else
        Raise (mkExn IndexError
                 [Formatted inconsistent_shape
                    [PShape (shape c); PShape (ma_shape a)]])
  end.

(** [x + y] for a boolean scalar [x]: the element-wise or, which is a
    scalar again when [y] has no axis. *)
Definition scalar_add (b : bool) (other : npbool) : npbool :=
  match other with
  | Scalar b' => Scalar (b || b')
  | Array a =>
      if bool_decide (shape a = []) then Scalar (b || any (elems a))
      else Array (mkArr (shape a) (map (orb b) (elems a)))
  end.

(** [x += y] for an array [x] of shape [s]: the flags of [x] afterwards;
    [y] must broadcast to the shape of [x]. *)
Definition array_iadd (s : list nat) (flags : list bool) (other : npbool)
  : option (list bool) :=
  match other with
  | Scalar b => Some (map (fun x => x || b) flags)
  | Array a => zip_with orb flags <$> broadcast_to s a
  end.

Definition shape_of (v : npbool) : list nat :=
  match v with
  | Scalar _ => []
  | Array a => shape a
  end.

(** ** Cubes and coordinates *)

Inductive Points :=
| NumPoints (a : ndarray Q)
| StrPoints (a : ndarray string).

Definition points_ndim (p : Points) : nat :=
  match p with
  | NumPoints a => ndim a
  | StrPoints a => ndim a
  end.

Record Coord := mkCoord {
  points : Points;
  bounds : option (ndarray Q)
}.

Record Cube := mkCube {
  data : MaskedArray;
  dims : list string;
  coords : gmap string Coord
}.

(** [cube.coord(name)] *)
Definition coord (cube : Cube) (name : string) : Result Coord :=
  match coords cube !! name with
  | Some c => Ok c
  | None => Raise (mkExn CoordinateNotFoundError [Plain (PStr name)])
  end.

Definition has_bounds (c : Coord) : bool :=
  match bounds c with Some _ => true | None => false end.

Definition set_data (cube : Cube) (d : MaskedArray) : Cube :=
  mkCube d (dims cube) (coords cube).

Definition set_coord (cube : Cube) (name : string) (c : Coord) : Cube :=
  mkCube (data cube) (dims cube) (<[name := c]> (coords cube)).

(** The labels that a coordinate holds, in their order. *)
Definition labels_of (p : Points) : list string :=
  match p with
  | StrPoints a => elems a
  | NumPoints _ => []
  end.

(** A cell of a coordinate, as a constraint function receives it. *)
Inductive Cell :=
| CellNum (q : Q)
| CellStr (s : string).

(** ** The heap of cubes and the monad of the operations

    A cube is referred to by its address in the heap.  A computation
    takes the heap and returns its result, or the exception it raised,
    with the heap as it left it. *)

Abbreviation Heap := (list Cube).
Definition M (A : Type) : Type := Heap -> Result A * Heap.

Definition ret {A} (a : A) : M A := fun h => (Ok a, h).

Definition raise {A} (e : Exn) : M A := fun h => (Raise e, h).

Definition bind {A B} (m : M A) (k : A -> M B) : M B :=
  fun h =>
    match m h with
    | (Ok a, h') => k a h'
    | (Raise e, h') => (Raise e, h')
    end.

Definition lift {A} (r : Result A) : M A := fun h => (r, h).

Notation "'let!' x ':=' m 'in' k" := (bind m (fun x => k))
  (at level 10, x name, m at level 100, k at level 200).
Notation "'do!' m 'in' k" := (bind m (fun _ => k))
  (at level 10, m at level 100, k at level 200).

Definition get_cube (r : nat) : M Cube :=
  fun h =>
    match h !! r with
    | Some c => (Ok c, h)
    | None => (Raise (mkExn ReferenceError []), h)
    end.

Definition put_cube (r : nat) (c : Cube) : M unit :=
  fun h => (Ok tt, <[r := c]> h).

Definition alloc (c : Cube) : M nat :=
  fun h => (Ok (length h), h ++ [c]).

(** ** The iris library

    The operations of iris that the module calls.  They are taken as an
    interface: each answers with a new value and leaves its argument as
    it was.
    - [intersection cube ranges]: [cube.intersection(name=(min, max), ...)];
    - [collapsed cube names op weights]: [cube.collapsed(names, op)], with
      [weights=...] when [weights] is given;
    - [extract cube name f]: [cube.extract(iris.Constraint(name=f))], which
      answers [None] when no cell satisfies [f];
    - [guess_bounds c]: the bounds that [c.guess_bounds()] gives [c];
    - [area_weights cube]: [iris.analysis.cartography.area_weights(cube)];
    - [load_cube path]: [iris.load_cube(path)];
    - [cell_in_set cell labels]: [cell in labels] for a Python set
      [labels], which looks the cell up by the hash that iris gives it. *)
Class IrisLibrary := {
  intersection : Cube -> list (string * (Q * Q)) -> Result Cube;
  collapsed : Cube -> list string -> Operation -> option (ndarray Q) -> Result Cube;
  extract : Cube -> string -> (Cell -> bool) -> Result (option Cube);
  guess_bounds : Coord -> Result (ndarray Q);
  area_weights : Cube -> Result (ndarray Q);
  load_cube : string -> Result Cube;
  cell_in_set : Cell -> gset string -> bool
}.

(** ** The operations of the module *)

Section Area.

Context {iris : IrisLibrary}.

(** A method of a cube that answers with a new cube: the cube is read
    from the heap and the answer is allocated. *)
Definition cube_intersection (cube : nat) (ranges : list (string * (Q * Q)))
  : M nat :=
  let! c := get_cube cube in
  let! res := lift (intersection c ranges) in
  alloc res.

Definition cube_collapsed (cube : nat) (names : list string)
    (operation : Operation) (weights : option (ndarray Q)) : M nat :=
  let! c := get_cube cube in
  let! res := lift (collapsed c names operation weights) in
  alloc res.

(** [_guess_bounds(cube, coords)]: a coordinate without bounds is given
    guessed ones, in place; the cube itself is returned. *)
Fixpoint _guess_bounds (cube : nat) (coords : list string) : M nat :=
  match coords with
  | [] => ret cube
  | name :: rest =>
      let! c := get_cube cube in
      let! co := lift (coord c name) in
      do! (if has_bounds co then ret tt
           else
             let! b := lift (guess_bounds co) in
             put_cube cube (set_coord c name (mkCoord (points co) (Some b)))) in
      _guess_bounds cube rest
  end.

(** What the name [mask] of [extract_region] is bound to: a value of
    its own, or the mask array of the data of the cube, of which
    [np.ma.array(cube.data).mask] is a view. *)
Inductive MaskVar :=
| Own (v : npbool)
| Shared.

(** [np.ma.array(cube.data).mask] *)
Definition data_mask (c : Cube) : MaskVar :=
  match ma_mask (data c) with
  | nomask => Own (Scalar false)
  | MaskArray _ => Shared
  end.

Definition not_broadcast (s : list nat) (other : npbool) : Exn :=
  mkExn ValueError
    [Plain (PStr "operands could not be broadcast together");
     Plain (PShape s); Plain (PShape (shape_of other))].

(** [mask += other].  A scalar cannot be changed in place: the sum is a
    new value, to which the name is bound.  An array is changed in
    place, and with it the data of the cube when the array is the mask
    of that data. *)
Definition mask_iadd (cube : nat) (mask : MaskVar) (other : npbool) : M MaskVar :=
  match mask with
  | Own (Scalar b) => ret (Own (scalar_add b other))
  | Own (Array m) =>
      match array_iadd (shape m) (elems m) other with
      | Some flags => ret (Own (Array (mkArr (shape m) flags)))
      | None => raise (not_broadcast (shape m) other)
      end
  | Shared =>
      let! c := get_cube cube in
      match array_iadd (ma_shape (data c)) (getmaskarray (data c)) other with
      | Some flags =>
          do! put_cube cube
                (set_data c (mkMA (ma_shape (data c)) (ma_values (data c))
                               (MaskArray flags))) in
          ret Shared
      | None => raise (not_broadcast (ma_shape (data c)) other)
      end
  end.

(** The value of [mask] as a condition, the cube being [c]. *)
Definition mask_value (mask : MaskVar) (c : Cube) : npbool :=
  match mask with
  | Own v => v
  | Shared => mask_attr (data c)
  end.

(** [np.ma.masked_where(points < x, points).mask] and the same with
    [>]; an array of strings does not compare with a number. *)
Definition where_lt (p : Points) (x : Q) : Result npbool :=
  match p with
  | NumPoints a =>
      match masked_where (Array (arr_lt a x)) (plain a) with
      | Ok w => Ok (mask_attr w)
      | Raise e => Raise e
      end
  | StrPoints _ => Raise (mkExn TypeError [])
  end.

Definition where_gt (p : Points) (x : Q) : Result npbool :=
  match p with
  | NumPoints a =>
      match masked_where (Array (arr_gt a x)) (plain a) with
      | Ok w => Ok (mask_attr w)
      | Raise e => Raise e
      end
  | StrPoints _ => Raise (mkExn TypeError [])
  end.

(** The four conditions of the irregular branch of [extract_region] on
    one cell: the cell is excluded when one of them holds. *)
Definition outside_box
    (start_longitude end_longitude start_latitude end_latitude lat lon : Q) : bool :=
  Qltb lat start_latitude || Qltb end_latitude lat
  || Qltb start_longitude lon || Qltb end_longitude lon.

(** [extract_region]; the four bounds are taken after [float(...)]. *)
Definition extract_region (cube : nat)
    (start_longitude end_longitude start_latitude end_latitude : Q) : M nat :=
  let! c := get_cube cube in
  let! latitude := lift (coord c "latitude") in
  if (points_ndim (points latitude) =? 1)%nat then
    let! region_subset :=
      cube_intersection cube [("longitude", (start_longitude, end_longitude));
                              ("latitude", (start_latitude, end_latitude))] in
    let! region_subset :=
      cube_intersection region_subset [("longitude", (0%Q, 360%Q))] in
    ret region_subset
  else
    (* irregular grids *)
    let lats := points latitude in
    let! longitude := lift (coord c "longitude") in
    let lons := points longitude in
    let mask := data_mask c in
    let! other := lift (where_lt lats start_latitude) in
    let! mask := mask_iadd cube mask other in
    let! other := lift (where_gt lats end_latitude) in
    let! mask := mask_iadd cube mask other in
    let! other := lift (where_gt lons start_longitude) in
    let! mask := mask_iadd cube mask other in
    let! other := lift (where_gt lons end_longitude) in
    let! mask := mask_iadd cube mask other in
    let! c := get_cube cube in
    let! d := lift (masked_where (mask_value mask c) (data c)) in
    do! put_cube cube (set_data c d) in
    ret cube.

(** [zonal_means] *)
Definition zonal_means (cube : nat) (coordinate mean_type : string) : M nat :=
  let! operation := lift (get_iris_analysis_operation mean_type) in
  cube_collapsed cube [coordinate] operation None.

(** The three cases in which [average_region] tiles the grid areas of
    a file to the rank of the cube; in any other case they are left as
    they are. *)
Definition tile_grid_areas (cube_shape : list nat) (grid_areas : ndarray Q)
  : ndarray Q :=
  let n := length cube_shape in
  if (n =? 4)%nat && (ndim grid_areas =? 2)%nat then
    tile grid_areas [nth 0 cube_shape 0%nat; nth 1 cube_shape 0%nat; 1%nat; 1%nat]
  else if (n =? 4)%nat && (ndim grid_areas =? 3)%nat then
    tile grid_areas [nth 0 cube_shape 0%nat; 1%nat; 1%nat; 1%nat]
  else if (n =? 3)%nat && (ndim grid_areas =? 2)%nat then
    tile grid_areas [nth 0 cube_shape 0%nat; 1%nat; 1%nat]
  else grid_areas.

(** The rank combinations that the specification lists as supported:
    the rank of the field and the rank of the area array. *)
Definition supported_ranks (field_rank area_rank : nat) : bool :=
  match field_rank, area_rank with
  | 3, 2 | 4, 2 | 4, 3 => true
  | _, _ => false
  end%nat.

(** [fx_cube.data] as a plain array. *)
Definition array_of (d : MaskedArray) : ndarray Q :=
  mkArr (ma_shape d) (ma_values d).

(** The loop of [average_region] over [fx_files.items()]: every file
    that is named is loaded and its data, tiled to the rank of the cube,
    replaces the grid areas found so far. *)
Fixpoint fx_loop (cube_shape : list nat) (items : list (string * option string))
    (grid_areas : option (ndarray Q)) : Result (option (ndarray Q)) :=
  match items with
  | [] => Ok grid_areas
  | (key, None) :: rest => fx_loop cube_shape rest grid_areas
  | (key, Some fx_file) :: rest =>
      match load_cube fx_file with
      | Raise e => Raise e
      | Ok fx_cube =>
          fx_loop cube_shape rest
            (Some (tile_grid_areas cube_shape (array_of (data fx_cube))))
      end
  end.

(** Truth value of the argument [fx_files]: [None] and the empty
    dictionary are false. *)
Definition fx_given (fx_files : option (list (string * option string))) : bool :=
  match fx_files with
  | None | Some [] => false
  | Some (_ :: _) => true
  end.

Definition shape_mismatch : string :=
  "Cube shape ({}) doesn`t match grid area shape ({})".

(** Lines 175 to 209 of [average_region]: the variable [grid_areas],
    from the files or from the bounds of the coordinates, once it has
    passed the comparison with the shape of the data. *)
Definition grid_areas (cube : nat) (coord1 coord2 : string)
    (fx_files : option (list (string * option string))) : M (ndarray Q) :=
  let! c := get_cube cube in
  let! found :=
    lift (if fx_given fx_files
          then fx_loop (ma_shape (data c)) (default [] fx_files) None
          else Ok None) in
  do! (if negb (fx_given fx_files) then
         let! latitude := lift (coord c "latitude") in
         if (points_ndim (points latitude) =? 2)%nat then
           raise (mkExn CoordinateMultiDimError [Plain (PCoord "latitude")])
         else ret tt
       else ret tt) in
  let! grid_areas :=
    match found with
    | Some g => ret g
    | None =>
        let! cube := _guess_bounds cube [coord1; coord2] in
        let! c := get_cube cube in
        lift (area_weights c)
    end in
  let! c := get_cube cube in
  if negb (bool_decide (ma_shape (data c) = shape grid_areas)) then
    raise (mkExn ValueError
             [Formatted shape_mismatch
                [PShape (ma_shape (data c)); PShape (shape grid_areas)]])
  else ret grid_areas.

(** [average_region] *)
Definition average_region (cube : nat) (coord1 coord2 operator : string)
    (fx_files : option (list (string * option string))) : M nat :=
  let! grid_areas := grid_areas cube coord1 coord2 fx_files in
  let! operation := lift (get_iris_analysis_operation operator) in
  if str_in operator ["mean"] then
    cube_collapsed cube [coord1; coord2] operation (Some grid_areas)
  else
    (* Many IRIS analysis functions do not accept weights arguments. *)
    cube_collapsed cube [coord1; coord2] operation None.

(** The argument [regions] of [extract_named_regions], by its Python
    type; anything that is not a string, list, tuple or set is kept as
    its printed form. *)
Inductive Regions :=
| RegStr (s : string)
| RegList (l : list string)
| RegTuple (l : list string)
| RegSet (s : gset string)
| RegOther (repr : string).

Definition dquote : string := String (ascii_of_nat 34) EmptyString.

Definition regions_format : string :=
  "Regions " ++ dquote ++ "{}" ++ dquote ++ " is not an acceptable format.".

Definition region_missing : string :=
  "Region(s) " ++ dquote ++ "{}" ++ dquote ++ " not in cube region(s): {}".

(** [set(regions)] for an accepted [regions]. *)
Definition regions_set (regions : Regions) : gset string :=
  match regions with
  | RegStr s => {[ s ]}
  | RegList l | RegTuple l => list_to_set l
  | RegSet s => s
  | RegOther _ => ∅
  end.

(** [r in regions], for the cell [r] that the constraint is given: in a
    list or a tuple the cell is compared with each label, and a cell of
    a label is equal to that label; in a set it is looked up by its
    hash. *)
Definition region_in (regions : Regions) (r : Cell) : bool :=
  match regions with
  | RegList l | RegTuple l =>
      match r with
      | CellStr s => str_in s l
      | CellNum _ => false
      end
  | RegSet labels => cell_in_set r labels
  | RegStr _ | RegOther _ =>
      (* not reached: a string has been made a list, any other value refused *)
      false
  end.

(** [set(points)]: the labels among the points, and the set as it is
    printed.  Only a one-dimensional array is a collection of hashable
    values. *)
Definition set_of_points (p : Points) : Result (gset string * PyVal) :=
  if negb (points_ndim p =? 1)%nat then Raise (mkExn TypeError [])
  else
    match p with
    | StrPoints a => Ok (list_to_set (elems a), PStrSet (list_to_set (elems a)))
    | NumPoints a => Ok (∅, PNumSet (elems a))
    end.

(** [extract_named_regions]; the result is [None] when [cube.extract]
    answers [None]. *)
Definition extract_named_regions (cube : nat) (regions : Regions) : M (option nat) :=
  (* Make sure regions is a list of strings *)
  let regions :=
    match regions with
    | RegStr s => RegList [s]
    | _ => regions
    end in
  match regions with
  | RegOther repr =>
      raise (mkExn ValueError [Formatted regions_format [PStr repr]])
  | _ =>
      let! c := get_cube cube in
      let! region := lift (coord c "region") in
      let! available := lift (set_of_points (points region)) in
      let available_regions := fst available in
      let invalid_regions := regions_set regions ∖ available_regions in
      if bool_decide (invalid_regions ≠ ∅) then
        raise (mkExn ValueError
                 [Formatted region_missing
                    [PStrSet invalid_regions; snd available]])
      else
        let! res := lift (extract c "region" (region_in regions)) in
        match res with
        | Some c' => let! r := alloc c' in ret (Some r)
        | None => ret None
        end
  end.

End Area.

(** ** What an operation does to the heap

    [effect allocs R cube m]: run on a heap that holds [c] at [cube],
    the computation [m] leaves the heap as it was, except that the cube
    at [cube] has become a cube [c'] related to [c] by [R], and that new
    cubes may have been allocated behind it when [allocs] is true. *)

Definition only_new (allocs : bool) (new : list Cube) : Prop :=
  if allocs then True else new = [].

Definition effect {A} (allocs : bool) (R : Cube -> Cube -> Prop) (cube : nat)
    (m : M A) : Prop :=
  forall (h : Heap) c res h',
    h !! cube = Some c ->
    m h = (res, h') ->
    exists c' new, h' = <[cube := c']> h ++ new /\ R c c' /\ only_new allocs new.

(** Only the mask of the data differs. *)
Definition only_mask (c c' : Cube) : Prop :=
  dims c' = dims c /\ coords c' = coords c /\
  ma_shape (data c') = ma_shape (data c) /\
  ma_values (data c') = ma_values (data c).

(** The coordinates [m'] are the coordinates [m], except that a
    coordinate named in [names] that had no bounds may have been given
    bounds. *)
Definition bounds_filled (names : list string) (m m' : gmap string Coord) : Prop :=
  forall k,
    match m !! k, m' !! k with
    | Some co, Some co' =>
        points co' = points co /\
        (bounds co' = bounds co \/ (bounds co = None /\ k ∈ names))
    | None, None => True
    | _, _ => False
    end.

(** Only bounds of the coordinates [names] differ. *)
Definition only_bounds (names : list string) (c c' : Cube) : Prop :=
  data c' = data c /\ dims c' = dims c /\
  bounds_filled names (coords c) (coords c').

(** ** An executable library

    A library with the interface of iris on which the operations can be
    run.  iris is not among the sources of the module: the operations
    that the properties of the module speak of are written after what
    the specification says of them, each marked so; [area_weights] and
    [load_cube] only stand in for the real ones.  A coordinate belongs
    to the axis of the data of the same name. *)

Module Reference.

Local Open Scope Q_scope.

(** Python's [%] on numbers, for a positive modulus. *)
Definition Qmod (x p : Q) : Q := x - p * inject_Z (Qfloor (x / p)).

(** The longitude [lon] taken in [[base, base + period)]. *)
Definition wrap_lons (lon base period : Q) : Q :=
  Qred (Qmod (lon - base + period * 2) period + base).

Definition index_of (name : string) (names : list string) : option nat :=
  fst <$> list_find (String.eqb name) names.

Definition set_nth {A} (i : nat) (x : A) (l : list A) : list A := <[i := x]> l.

(** The sub-array of the positions [idxs] along [axis]. *)
Fixpoint take_axis {A} (axis : nat) (idxs : list nat) (s : list nat)
    (l : list A) : list A :=
  match s with
  | [] => l
  | n :: s' =>
      let blocks := chunks n (prod_shape s') l in
      match axis with
      | O => flatten (map (fun i => nth i blocks []) idxs)
      | S axis' => flatten (map (take_axis axis' idxs s') blocks)
      end
  end.

Definition take_mask (axis : nat) (idxs : list nat) (s : list nat) (m : Mask) : Mask :=
  match m with
  | nomask => nomask
  | MaskArray flags => MaskArray (take_axis axis idxs s flags)
  end.

Definition take_data (axis : nat) (idxs : list nat) (d : MaskedArray) : MaskedArray :=
  mkMA (set_nth axis (length idxs) (ma_shape d))
       (take_axis axis idxs (ma_shape d) (ma_values d))
       (take_mask axis idxs (ma_shape d) (ma_mask d)).

(** The data of [c] at the positions [idxs] of the axis called [name];
    a coordinate that is not an axis leaves the data as it is. *)
Definition take_along (name : string) (idxs : list nat) (c : Cube) : MaskedArray :=
  match index_of name (dims c) with
  | Some axis => take_data axis idxs (data c)
  | None => data c
  end.

(** The bounds of the cells at the positions [idxs]. *)
Definition take_bounds (idxs : list nat) (b : ndarray Q) : ndarray Q :=
  mkArr (set_nth 0 (length idxs) (shape b)) (take_axis 0 idxs (shape b) (elems b)).

(** Positions of the elements of [l] that satisfy [f]. *)
Definition positions {A} (f : A -> bool) (l : list A) : list nat :=
  map fst (filter (fun p => f (snd p) = true) (imap pair l)).

Definition multi_dim (name : string) : Exn :=
  mkExn CoordinateMultiDimError [Plain (PCoord name)].

(** A point as the window sees it: a longitude is cyclic and is taken
    in [[minimum, minimum + 360)]; any other coordinate is taken as it
    is. *)
Definition seen (name : string) (minimum p : Q) : Q :=
  if String.eqb name "longitude" then wrap_lons p minimum 360 else p.

Definition in_window (minimum maximum p : Q) : bool :=
  Qle_bool minimum p && Qle_bool p maximum.

(** Modelled from the spec: [Cube.intersection] of iris, for one
    coordinate, is not among the sources.  Section 4.2: the field is
    intersected with the requested window, longitude being cyclic; the
    result is normalised onto the domain that starts at the lower end of
    the window; the coordinate arrays shrink to the matched extent and
    the dims are unchanged.  The cells whose point is in the window are
    kept, in their order, and reported at the point as the window sees
    it; their bounds move with the point. *)
Definition intersect_one (c : Cube) (name : string) (minimum maximum : Q)
  : Result Cube :=
  match coord c name with
  | Raise e => Raise e
  | Ok co =>
      match points co with
      | StrPoints _ => Raise (mkExn ValueError [Plain (PCoord name)])
      | NumPoints a =>
          if negb (ndim a =? 1)%nat then Raise (multi_dim name)
          else
            let wrapped := map (seen name minimum) (elems a) in
            let inside := positions (in_window minimum maximum) wrapped in
            match inside with
            | [] => Raise (mkExn IndexError [Plain (PCoord name)])
            | _ =>
                let pts := filter (fun p => in_window minimum maximum p = true) wrapped in
                let moved (b : ndarray Q) :=
                  let shifts := zip_with Qminus wrapped (elems a) in
                  let rows := chunks (length (elems a)) 2 (elems b) in
                  mkArr (shape b)
                    (flatten (zip_with (fun s row => map (fun x => Qred (x + s)) row)
                                shifts rows)) in
                let co' :=
                  mkCoord (NumPoints (mkArr [length pts] pts))
                    (take_bounds inside <$> (moved <$> bounds co)) in
                Ok (mkCube (take_along name inside c) (dims c)
                      (<[name := co']> (coords c)))
            end
      end
  end.

Fixpoint ref_intersection (c : Cube) (ranges : list (string * (Q * Q)))
  : Result Cube :=
  match ranges with
  | [] => Ok c
  | (name, (minimum, maximum)) :: rest =>
      match intersect_one c name minimum maximum with
      | Ok c' => ref_intersection c' rest
      | Raise e => Raise e
      end
  end.

(** The cells of a coordinate, as a constraint sees them. *)
Definition cells (p : Points) : list Cell :=
  match p with
  | NumPoints a => map CellNum (elems a)
  | StrPoints a => map CellStr (elems a)
  end.

(** The points of the cells that satisfy [f]. *)
Definition filter_points (f : Cell -> bool) (p : Points) : Points :=
  match p with
  | NumPoints a =>
      let kept := filter (fun x => f (CellNum x) = true) (elems a) in
      NumPoints (mkArr [length kept] kept)
  | StrPoints a =>
      let kept := filter (fun x => f (CellStr x) = true) (elems a) in
      StrPoints (mkArr [length kept] kept)
  end.

(** Modelled from the spec: [Cube.extract] of iris, with a constraint on
    one coordinate, is not among the sources.  Section 4.6: the data and
    the coordinate are subset to only the matching positions, which keep
    their relative order along the axis.  As the interface has it, the
    answer is [None] when no position matches. *)
Definition ref_extract (c : Cube) (name : string) (f : Cell -> bool)
  : Result (option Cube) :=
  match coord c name with
  | Raise e => Raise e
  | Ok co =>
      match positions f (cells (points co)) with
      | [] => Ok None
      | kept =>
          Ok (Some (mkCube (take_along name kept c) (dims c)
                      (<[name := mkCoord (filter_points f (points co))
                                   (take_bounds kept <$> bounds co)]>
                         (coords c))))
      end
  end.

(** Modelled from the spec: a cell of a label is found in a set of
    labels when the label is in the set (section 4.6 takes a set, a
    list or a tuple of labels alike); how iris hashes a cell is not
    among the sources. *)
Definition ref_cell_in_set (r : Cell) (labels : gset string) : bool :=
  match r with
  | CellStr s => bool_decide (s ∈ labels)
  | CellNum _ => false
  end.

Fixpoint diffs (l : list Q) : list Q :=
  match l with
  | x :: (y :: _) as r => (y - x) :: diffs r
  | _ => []
  end.

(** Modelled from the spec: [Coord.guess_bounds] of iris is not among
    the sources.  Section 3: absent bounds are derived as the midpoints
    between adjacent points, extrapolated at the domain edges. *)
Definition ref_guess_bounds (co : Coord) : Result (ndarray Q) :=
  match points co with
  | StrPoints _ => Raise (mkExn ValueError [])
  | NumPoints a =>
      if negb (ndim a =? 1)%nat then Raise (mkExn CoordinateMultiDimError [])
      else
        match diffs (elems a) with
        | [] =>
            Raise (mkExn ValueError
                     [Plain (PStr "Cannot guess bounds for a coordinate of length 1.")])
        | d0 :: ds =>
            let before := d0 :: d0 :: ds in
            let after := (d0 :: ds) ++ [List.last ds d0] in
            Ok (mkArr [length (elems a); 2%nat]
                  (flatten
                     (zip_with (fun p '(lo, hi) =>
                                  [Qred (p - lo * (1 # 2)); Qred (p + hi * (1 # 2))])
                        (elems a) (zip before after))))
        end
  end.

(** A stand-in for [iris.analysis.cartography.area_weights]: one area
    for each cell of the data, from the bounds of the one-dimensional
    latitude and longitude, broadcast over the other axes.  The sine of
    the latitude is not rational: the cell is measured on the plane, the
    width times the height of its bounds.  Only the shape of the answer
    and the refusal of coordinates without bounds or with two dimensions
    matter to the properties below. *)
Fixpoint extents (l : list Q) : list Q :=
  match l with
  | lo :: hi :: r => Qred (Qabs (hi - lo)) :: extents r
  | _ => []
  end.

Definition axis_array (rank axis : nat) (l : list Q) : ndarray Q :=
  mkArr (set_nth axis (length l) (replicate rank 1%nat)) l.

Definition bounds_1d (c : Cube) (name : string) : Result (nat * list Q) :=
  match coord c name with
  | Raise e => Raise e
  | Ok co =>
      if negb (points_ndim (points co) =? 1)%nat then Raise (multi_dim name)
      else
        match bounds co, index_of name (dims c) with
        | Some b, Some axis => Ok (axis, extents (elems b))
        | _, _ =>
            Raise (mkExn ValueError
                     [Plain (PStr "Coordinates must have bounds to calculate the area.")])
        end
  end.

Definition ref_area_weights (c : Cube) : Result (ndarray Q) :=
  match bounds_1d c "latitude", bounds_1d c "longitude" with
  | Raise e, _ => Raise e
  | _, Raise e => Raise e
  | Ok (lat_axis, heights), Ok (lon_axis, widths) =>
      let s := ma_shape (data c) in
      match broadcast_to s (axis_array (length s) lat_axis heights),
            broadcast_to s (axis_array (length s) lon_axis widths) with
      | Some h, Some w => Ok (mkArr s (zip_with (fun x y => Qred (x * y)) h w))
      | _, _ => Raise (mkExn ValueError [Plain (PShape s)])
      end
  end.

(** The cells that share their position on the axes that stay are
    gathered in one group. *)
Definition merge_groups {A} (count : nat) (sub : list (list (list A)))
  : list (list A) :=
  foldr (zip_with app) (replicate count []) sub.

Fixpoint kept_size (collapse : list bool) (s : list nat) : nat :=
  match s, collapse with
  | n :: s', b :: cs => ((if b then 1 else n) * kept_size cs s')%nat
  | _, _ => 1%nat
  end.

Fixpoint groups {A} (collapse : list bool) (s : list nat) (l : list A)
  : list (list A) :=
  match s, collapse with
  | n :: s', b :: cs =>
      let sub := map (groups cs s') (chunks n (prod_shape s') l) in
      if b then merge_groups (kept_size cs s') sub else flatten sub
  | _, _ => [l]
  end.

(** A cell of the data with its weight. *)
Record WCell := mkWCell { wc_value : Q; wc_masked : bool; wc_weight : Q }.

Definition Qsum (l : list Q) : Q := foldr Qplus 0 l.

(** The cells of a group that are not masked. *)
Definition live (g : list WCell) : list WCell :=
  filter (fun c => wc_masked c = false) g.

(** Modelled from the spec: the weighted mean that iris computes is not
    among the sources.  Section 4.4: the weighted arithmetic mean,
    masked cells excluded from both numerator and denominator.  The
    result is masked when no weight is left. *)
Definition weighted_mean (g : list WCell) : Q * bool :=
  let den := Qsum (map wc_weight (live g)) in
  if Qeq_bool den 0 then (0, true)
  else (Qred (Qsum (map (fun c => wc_weight c * wc_value c) (live g)) / den), false).

Fixpoint insert_sorted (x : Q) (l : list Q) : list Q :=
  match l with
  | [] => [x]
  | y :: r => if Qle_bool x y then x :: l else y :: insert_sorted x r
  end.

Definition sort (l : list Q) : list Q := foldr insert_sorted [] l.

Definition mean (l : list Q) : Q := Qsum l / inject_Z (Z.of_nat (length l)).

Definition variance (l : list Q) : Q :=
  let m := mean l in
  Qsum (map (fun v => (v - m) * (v - m)) l) / inject_Z (Z.of_nat (length l) - 1).

(** The square root to nine decimals. *)
Definition sqrt9 (x : Q) : Q :=
  Qred (Z.sqrt (Qfloor (x * inject_Z (10 ^ 18))) # 10 ^ 9).

Definition median (l : list Q) : Q :=
  let s := sort l in
  let n := length s in
  if Nat.even n
  then (nth (n / 2 - 1) s 0 + nth (n / 2) s 0) / 2
  else nth (n / 2) s 0.

(** The statistics without weights, on the values that are not masked:
    every one of them looks at the values alone. *)
Definition unweighted (op : Operation) (g : list WCell) : Q * bool :=
  let values := map wc_value (live g) in
  match values with
  | [] => (0, true)
  | v :: r =>
      match op with
      | MEAN => (Qred (mean values), false)
      | MEDIAN => (Qred (median values), false)
      | VARIANCE => match r with [] => (0, true) | _ => (Qred (variance values), false) end
      | STD_DEV => match r with [] => (0, true) | _ => (sqrt9 (variance values), false) end
      | MIN => (foldr (fun x m => if Qle_bool x m then x else m) v r, false)
      | MAX => (foldr (fun x m => if Qle_bool m x then x else m) v r, false)
      end
  end.

Fixpoint axes_of (names : list string) (ds : list string) : Result (list nat) :=
  match names with
  | [] => Ok []
  | name :: rest =>
      match index_of name ds, axes_of rest ds with
      | Some a, Ok r => Ok (a :: r)
      | None, _ => Raise (mkExn CoordinateNotFoundError [Plain (PStr name)])
      | _, Raise e => Raise e
      end
  end.

(** The cells of the data, each with its weight; without weights every
    cell weighs one. *)
Definition weighted_cells (d : MaskedArray) (weights : option (ndarray Q))
  : list WCell :=
  let ws :=
    match weights with
    | Some w => elems w
    | None => replicate (length (ma_values d)) 1
    end in
  zip_with (fun vm w => mkWCell (fst vm) (snd vm) w)
    (zip (ma_values d) (getmaskarray d)) ws.

(** The groups of cells that a collapse of the axes [axes] reduces to
    one value each. *)
Definition collapse_groups (d : MaskedArray) (axes : list nat)
    (weights : option (ndarray Q)) : list (list WCell) :=
  groups (imap (fun i _ => bool_decide (i ∈ axes)) (ma_shape d)) (ma_shape d)
    (weighted_cells d weights).

(** Modelled from the spec: [Cube.collapsed] of iris is not among the
    sources.  Section 4.4: the named axes are collapsed; with weights
    the mean is the weighted arithmetic mean, masked cells excluded;
    the result is a field with the collapsed dims removed from dims and
    the corresponding coordinates removed, the remaining dims and their
    order unchanged.  A statistic other than the mean does not take
    weights. *)
Definition ref_collapsed (c : Cube) (names : list string) (op : Operation)
    (weights : option (ndarray Q)) : Result Cube :=
  match axes_of names (dims c) with
  | Raise e => Raise e
  | Ok axes =>
      let d := data c in
      let reduce :=
        match weights with
        | Some _ => weighted_mean
        | None => unweighted op
        end in
      match weights, op with
      | Some _, MEDIAN | Some _, STD_DEV | Some _, VARIANCE
      | Some _, MIN | Some _, MAX =>
          Raise (mkExn TypeError [Plain (PStr "unexpected keyword argument 'weights'")])
      | _, _ =>
          let res := map reduce (collapse_groups d axes weights) in
          Ok (mkCube
                (mkMA (map snd (filter (fun p => negb (fst p) = true)
                                  (zip (imap (fun i _ => bool_decide (i ∈ axes))
                                          (ma_shape d))
                                     (ma_shape d))))
                   (map fst res) (MaskArray (map snd res)))
                (filter (fun n => str_in n names = false) (dims c))
                (filter (fun kv => str_in (fst kv) names = false) (coords c)))
      end
  end.

(** A stand-in for [iris.load_cube]: a file system that holds the cubes
    [files]. *)
Definition ref_load_cube (files : gmap string Cube) (path : string) : Result Cube :=
  match files !! path with
  | Some c => Ok c
  | None => Raise (mkExn OSError [Plain (PStr path)])
  end.

Definition library (files : gmap string Cube) : IrisLibrary := {|
  intersection := ref_intersection;
  collapsed := ref_collapsed;
  extract := ref_extract;
  guess_bounds := ref_guess_bounds;
  area_weights := ref_area_weights;
  load_cube := ref_load_cube files;
  cell_in_set := ref_cell_in_set
|}.

End Reference.


(** ** Sample cubes *)

Module Samples.

Local Open Scope Q_scope.

Definition axis (l : list Q) : Coord :=
  mkCoord (NumPoints (mkArr [length l] l)) None.

(** Three times, four latitudes and two longitudes, every value one. *)
Definition regular : Cube :=
  mkCube (mkMA [3; 4; 2]%nat (replicate 24 1) (MaskArray (replicate 24 false)))
    ["time"; "latitude"; "longitude"]
    (list_to_map
       [("time", axis [0; 1; 2]);
        ("latitude", axis [-30; -10; 10; 30]);
        ("longitude", axis [-5; 5])]).

(** The areas of the four by two cells of [regular], every area two. *)
Definition cell_areas : Cube :=
  mkCube (mkMA [4; 2]%nat (replicate 8 2) nomask) [] ∅.

(** One time of [regular]: four latitudes and two longitudes. *)
Definition flat : Cube :=
  mkCube (mkMA [4; 2]%nat [1; 2; 3; 4; 5; 6; 7; 8] nomask)
    ["latitude"; "longitude"]
    (list_to_map
       [("latitude", axis [-30; -10; 10; 30]);
        ("longitude", axis [-5; 5])]).

(** One latitude and two longitudes, with the values 0 and 4. *)
Definition pair : Cube :=
  mkCube (mkMA [1; 2]%nat [0; 4] nomask)
    ["latitude"; "longitude"]
    (list_to_map [("latitude", axis [0]); ("longitude", axis [-5; 5])]).

(** The areas of the two cells of [pair]: one and three. *)
Definition pair_areas : Cube :=
  mkCube (mkMA [1; 2]%nat [1; 3] nomask) [] ∅.

(** Two latitudes and two longitudes, of which the cell of the value 8
    is masked. *)
Definition holed : Cube :=
  mkCube (mkMA [2; 2]%nat [0; 4; 2; 8] (MaskArray [false; false; false; true]))
    ["latitude"; "longitude"]
    (list_to_map [("latitude", axis [-10; 10]); ("longitude", axis [-5; 5])]).

(** The areas of the four cells of [holed]. *)
Definition holed_areas : Cube :=
  mkCube (mkMA [2; 2]%nat [1; 3; 2; 5] nomask) [] ∅.

Definition curvilinear_latitude : Coord :=
  mkCoord (NumPoints (mkArr [2; 2]%nat [0; 1; 10; 11])) None.

Definition curvilinear_longitude : Coord :=
  mkCoord (NumPoints (mkArr [2; 2]%nat [5; 50; 6; 51])) None.

(** A curvilinear grid of two by two cells, one of them masked. *)
Definition curvilinear : Cube :=
  mkCube (mkMA [2; 2]%nat [1; 2; 3; 4] (MaskArray [false; false; false; true]))
    ["j"; "i"]
    (list_to_map
       [("latitude", curvilinear_latitude);
        ("longitude", curvilinear_longitude)]).

(** The same grid with data that carries no mask. *)
Definition curvilinear_plain : Cube :=
  mkCube (mkMA [2; 2]%nat [1; 2; 3; 4] nomask)
    ["j"; "i"]
    (list_to_map
       [("latitude", curvilinear_latitude);
        ("longitude", curvilinear_longitude)]).

(** Two times on the same grid, with data that carries no mask and with
    the two index coordinates of the grid. *)
Definition curvilinear_series : Cube :=
  mkCube (mkMA [2; 2; 2]%nat [1; 2; 3; 4; 5; 6; 7; 8] nomask)
    ["time"; "j"; "i"]
    (list_to_map
       [("time", axis [0; 1]);
        ("j", axis [0; 1]);
        ("i", axis [0; 1]);
        ("latitude", curvilinear_latitude);
        ("longitude", curvilinear_longitude)]).

(** The same two times with a mask, in which no cell is masked. *)
Definition curvilinear_series_masked : Cube :=
  mkCube (mkMA [2; 2; 2]%nat [1; 2; 3; 4; 5; 6; 7; 8] (MaskArray (replicate 8 false)))
    (dims curvilinear_series) (coords curvilinear_series).

(** Three named regions. *)
Definition basins : Cube :=
  mkCube (mkMA [3]%nat [1; 2; 3] nomask)
    ["region"]
    (list_to_map
       [("region",
         mkCoord (StrPoints (mkArr [3]%nat ["Amazon"; "Congo"; "Sahel"]%string)) None)]).

Definition files : gmap string Cube :=
  {[ "areacello.nc"%string := cell_areas; "pair.nc"%string := pair_areas;
     "holed.nc"%string := holed_areas ]}.

Definition lib : IrisLibrary := Reference.library files.

End Samples.

(** ** Tags of the configuration ([esmvaltool/_config.py])

    [TAGS] is the dictionary of sections read from the file of reference
    tags when the module is loaded; each section is a dictionary from a
    tag to its value.  The dictionary and the path of the file are
    arguments here. *)

Section Tags.

Context {V : Type}.

Variable TAGS : gmap string (gmap string V).
Variable TAGS_CONFIG_FILE : string.

Definition section_missing : string := "Section '{}' does not exist in {}".

Definition tag_missing : string :=
  "Tag '{}' does not exist in section '{}' of {}".

(** [get_tag_value] *)
Definition get_tag_value (section tag : string) : Result V :=
  match TAGS !! section with
  | None =>
      Raise (mkExn ValueError
               [Formatted section_missing [PStr section; PStr TAGS_CONFIG_FILE]])
  | Some tags =>
      match tags !! tag with
      | None =>
          Raise (mkExn ValueError
                   [Formatted tag_missing
                      [PStr tag; PStr section; PStr TAGS_CONFIG_FILE]])
      | Some value => Ok value
      end
  end.

(** [replace_tags]: the tuple of the values, built tag by tag. *)
Fixpoint replace_tags (section : string) (tags : list string) : Result (list V) :=
  match tags with
  | [] => Ok []
  | tag :: rest =>
      match get_tag_value section tag with
      | Raise e => Raise e
      | Ok value =>
          match replace_tags section rest with
          | Raise e => Raise e
          | Ok values => Ok (value :: values)
          end
      end
  end.

End Tags.

(** ** The dictionary [fx_files] *)

(** The file names of the dictionary, in its order; an entry whose value
    is [None] names no file. *)
Definition named_files (items : list (string * option string)) : list string :=
  omap snd items.

(** ** Masks that only grow *)

(** The points of a numeric coordinate fill their shape. *)
Definition points_complete (p : Points) : Prop :=
  match p with
  | NumPoints a => length (elems a) = prod_shape (shape a)
  | StrPoints _ => True
  end.

(** ** Cubes on an irregular grid *)

(** The mask has one flag for every cell of the shape; data without a
    mask has. *)
Definition mask_complete (c : Cube) : Prop :=
  length (getmaskarray (data c)) = prod_shape (ma_shape (data c)).

(** [c] is on an irregular grid: its latitude and longitude points are
    the arrays [lats] and [lons], filled, of one shape that is not the
    shape of a one-dimensional array and has an axis; the shape of the
    data is this shape after the leading axes [lead]. *)
Definition irregular_grid (c : Cube) (lats lons : ndarray Q) (lead : list nat) : Prop :=
  (exists latitude,
     coords c !! "latitude" = Some latitude /\ points latitude = NumPoints lats) /\
  (exists longitude,
     coords c !! "longitude" = Some longitude /\ points longitude = NumPoints lons) /\
  ndim lats <> 1%nat /\
  shape lats <> [] /\
  shape lons = shape lats /\
  length (elems lats) = prod_shape (shape lats) /\
  length (elems lons) = prod_shape (shape lats) /\
  ma_shape (data c) = lead ++ shape lats /\
  mask_complete c.

(** [c] with the mask [m]. *)
Definition with_mask (c : Cube) (m : Mask) : Cube :=
  set_data c (mkMA (ma_shape (data c)) (ma_values (data c)) m).

(** The cells that a box excludes, one flag for each cell of the grid. *)
Definition excluded (lats lons : ndarray Q)
    (start_longitude end_longitude start_latitude end_latitude : Q) : list bool :=
  zip_with (outside_box start_longitude end_longitude start_latitude end_latitude)
    (elems lats) (elems lons).

(** The error of [np.ma.masked_where] for a condition of shape [s] on
    data of shape [s']. *)
Definition index_error (s s' : list nat) : Exn :=
  mkExn IndexError [Formatted inconsistent_shape [PShape s; PShape s']].

(** The mask that [np.ma.masked_where(condition, points)] gives a plain
    array: the condition itself, or [nomask] when it holds nowhere. *)
Definition condition_mask (condition : ndarray bool) : npbool :=
  if any (elems condition) then Array condition else Scalar false.

(** What [mask] is bound to when it started from [nomask] and the
    conditions added so far make up the flags [flags], of shape [s]. *)
Definition own_mask (s : list nat) (flags : list bool) : MaskVar :=
  if any flags then Own (Array (mkArr s flags)) else Own (Scalar false).

(** The mask that the irregular branch leaves on data with the mask [m]
    and the leading axes [lead], for a box that excludes the cells
    [out]; nothing when the branch raises. *)
Definition box_mask (lead : list nat) (m : Mask) (out : list bool) : option Mask :=
  match m with
  | MaskArray flags =>
      Some (MaskArray (zip_with orb flags (repeat_block (prod_shape lead) out)))
  | nomask =>
      if any out then
        if bool_decide (lead = []) then Some (MaskArray out) else None
      else Some nomask
  end.

(** [c'] is [c] but for its mask; when the mask of [c] is complete the
    mask of [c'] is too, and every cell masked in [c] is masked in
    [c']. *)
Definition mask_grows (c c' : Cube) : Prop :=
  only_mask c c' /\
  (mask_complete c ->
   mask_complete c' /\
   forall i, getmaskarray (data c) !! i = Some true ->
             getmaskarray (data c') !! i = Some true).

(** A boolean value of numpy that is an array has one flag for every
    cell of its shape. *)
Definition npbool_complete (v : npbool) : Prop :=
  match v with
  | Scalar _ => True
  | Array a => length (elems a) = prod_shape (shape a)
  end.

Definition mask_var_complete (mask : MaskVar) : Prop :=
  match mask with
  | Own v => npbool_complete v
  | Shared => True
  end.

(** [grows_with Q cube m]: run on a heap that holds at [cube] a cube
    with a complete mask, the computation [m] changes the heap at most
    at [cube], where the mask has grown, and a result that it returns
    satisfies [Q]. *)
Definition grows_with {A} (Q : A -> Prop) (cube : nat) (m : M A) : Prop :=
  forall (h : Heap) c res h',
    h !! cube = Some c ->
    mask_complete c ->
    m h = (res, h') ->
    exists c',
      h' = <[cube := c']> h /\ mask_grows c c' /\ forall a, res = Ok a -> Q a.

(** ** Constraints *)

(** The request as the constraint has it: a string has become the list
    of that string. *)
Definition as_collection (regions : Regions) : Regions :=
  match regions with
  | RegStr s => RegList [s]
  | _ => regions
  end.

(** The library looks at a constraint only through its answers. *)
Definition extract_extensional (iris : IrisLibrary) : Prop :=
  forall c name (f g : Cell -> bool),
    (forall x, f x = g x) -> extract c name f = extract c name g.

(** * Properties *)

(** Closes a goal that holds by evaluation on concrete data. *)
Ltac evaluate :=
  first [ reflexivity
        | discriminate
        | vm_compute; reflexivity
        | vm_compute; discriminate
        | cbn; lia ].

(** ** The operator resolver *)

Lemma resolver_cases (operator : string) :
  get_iris_analysis_operation operator =
    let o := lower operator in
    if String.eqb o "mean" then Ok MEAN
    else if String.eqb o "median" then Ok MEDIAN
    else if String.eqb o "stdev" then Ok STD_DEV
    else if String.eqb o "variance" then Ok VARIANCE
    else if String.eqb o "minimum" || String.eqb o "min" then Ok MIN
    else if String.eqb o "maximum" || String.eqb o "max" then Ok MAX
    else Raise (mkExn ValueError
                  [Plain (PStr operator_not_recognised); Plain (PStr o);
                   Plain (PStrList operators)]).
Proof.
  unfold get_iris_analysis_operation, str_in; simpl.
  rewrite !orb_false_r. reflexivity.
Qed.

(** C6, as amended.  The resolver answers with a reduction exactly when
    the lower-cased name, which is not trimmed, is one of the accepted
    names; otherwise it raises a [ValueError] whose arguments are the
    message template, the lower-cased name and the list of the accepted
    names. *)
Theorem resolver_accepts_lowercased (operator : string) :
  match get_iris_analysis_operation operator with
  | Ok _ => str_in (lower operator) operators = true
  | Raise e =>
      str_in (lower operator) operators = false /\
      e = mkExn ValueError
            [Plain (PStr operator_not_recognised); Plain (PStr (lower operator));
             Plain (PStrList operators)]
  end.
Proof.
  rewrite resolver_cases. unfold operators, str_in. cbn [existsb].
  set (o := lower operator).
  destruct (String.eqb o "mean"); [reflexivity|].
  destruct (String.eqb o "median"); [reflexivity|].
  destruct (String.eqb o "stdev"); [reflexivity|].
  destruct (String.eqb o "variance"); [reflexivity|].
  destruct (String.eqb o "minimum"), (String.eqb o "min"),
    (String.eqb o "maximum"), (String.eqb o "max"); cbn; auto.
Qed.

(** C6, as stated, fails: [" mean"] is an accepted name once trimmed, and
    the resolver rejects it. *)
Lemma resolver_does_not_trim :
  spec_accepts " mean" = true /\
  get_iris_analysis_operation " mean" =
    Raise (mkExn ValueError
             [Plain (PStr operator_not_recognised); Plain (PStr " mean");
              Plain (PStrList operators)]).
Proof. split; reflexivity. Qed.

(** ** The heap *)

Lemma get_cube_lookup (h : Heap) cube c :
  h !! cube = Some c -> get_cube cube h = (Ok c, h).
Proof. intros H. unfold get_cube. rewrite H. reflexivity. Qed.

Lemma put_then_get (h : Heap) cube c c' :
  h !! cube = Some c -> (<[cube := c']> h) !! cube = Some c'.
Proof. intros H. apply list_lookup_insert_eq. eapply lookup_lt_Some, H. Qed.

Lemma bind_ok {A B} (m : M A) (k : A -> M B) (h h' : Heap) b :
  bind m k h = (Ok b, h') ->
  exists a h1, m h = (Ok a, h1) /\ k a h1 = (Ok b, h').
Proof.
  unfold bind. destruct (m h) as [[a|e] h1]; [|discriminate].
  intros H. exists a, h1. split; [reflexivity | exact H].
Qed.

Lemma bind_run {A B} (m : M A) (k : A -> M B) (h h' : Heap) a :
  m h = (Ok a, h') -> bind m k h = k a h'.
Proof. intros H. unfold bind. rewrite H. reflexivity. Qed.

Lemma bind_raise {A B} (m : M A) (k : A -> M B) (h h' : Heap) e :
  m h = (Raise e, h') -> bind m k h = (Raise e, h').
Proof. intros H. unfold bind. rewrite H. reflexivity. Qed.


(** ** Arrays: blocks, broadcasting and masks *)

Lemma chunks_length_each {A} (n size : nat) (l : list A) :
  length l = n * size -> Forall (fun b => length b = size) (chunks n size l).
Proof.
  revert l. induction n as [|n IH]; intros l Hl; cbn; constructor.
  - rewrite length_take. lia.
  - apply IH. rewrite length_drop. lia.
Qed.

Lemma chunks_flatten {A} (n size : nat) (l : list A) :
  length l = n * size -> flatten (chunks n size l) = l.
Proof.
  revert l. induction n as [|n IH]; intros l Hl; cbn.
  - destruct l; [reflexivity|discriminate].
  - unfold flatten in *. cbn. rewrite IH by (rewrite length_drop; lia).
    apply take_drop.
Qed.

Lemma mapM_id {A} (f : list A -> option (list A)) (bs : list (list A)) :
  Forall (fun b => f b = Some b) bs -> mapM f bs = Some bs.
Proof.
  induction 1 as [|b bs Hb _ IH]; [reflexivity|].
  cbn. rewrite Hb. cbn. rewrite IH. reflexivity.
Qed.

Lemma broadcast_same_refl {A} (s : list nat) (l : list A) :
  length l = prod_shape s -> broadcast_same s s l = Some l.
Proof.
  revert l. induction s as [|m s IH]; intros l Hl; [reflexivity|].
  cbn [broadcast_same]. rewrite Nat.eqb_refl.
  cbn [prod_shape] in Hl.
  rewrite (mapM_id (broadcast_same s s)).
  - cbn. f_equal. apply chunks_flatten, Hl.
  - eapply Forall_impl; [apply chunks_length_each, Hl|].
    intros b Hb. apply IH, Hb.
Qed.

Lemma repeat_block_S {A} (n : nat) (b : list A) :
  repeat_block (S n) b = b ++ repeat_block n b.
Proof. reflexivity. Qed.

Lemma repeat_block_app {A} (n m : nat) (b : list A) :
  repeat_block (n + m) b = repeat_block n b ++ repeat_block m b.
Proof.
  induction n as [|n IH]; [reflexivity|].
  cbn [Nat.add]. rewrite !repeat_block_S, IH, app_assoc. reflexivity.
Qed.

Lemma repeat_block_mul {A} (n m : nat) (b : list A) :
  repeat_block n (repeat_block m b) = repeat_block (n * m) b.
Proof.
  induction n as [|n IH]; [reflexivity|].
  cbn [Nat.mul]. rewrite repeat_block_S, IH, repeat_block_app. reflexivity.
Qed.

Lemma repeat_block_1 {A} (b : list A) : repeat_block 1 b = b.
Proof. unfold repeat_block, flatten. cbn. apply app_nil_r. Qed.

Lemma prod_shape_ones (k : nat) (s : list nat) :
  prod_shape (replicate k 1 ++ s) = prod_shape s.
Proof. induction k as [|k IH]; cbn in *; lia. Qed.

(** An array whose shape is the trailing part of the target shape is
    broadcast by repetition, once for every position on the leading
    axes. *)
Lemma broadcast_same_leading {A} (lead s : list nat) (l : list A) :
  length l = prod_shape s ->
  broadcast_same (lead ++ s) (replicate (length lead) 1 ++ s) l =
    Some (repeat_block (prod_shape lead) l).
Proof.
  intros Hl. induction lead as [|n lead IH].
  - cbn [app length replicate prod_shape]. rewrite repeat_block_1.
    apply broadcast_same_refl, Hl.
  - cbn [app length replicate broadcast_same prod_shape].
    destruct (1 =? n)%nat eqn:Hn.
    + apply Nat.eqb_eq in Hn. subst n.
      rewrite prod_shape_ones. cbn [chunks].
      rewrite firstn_all2 by lia. cbn. rewrite IH. cbn.
      unfold flatten. cbn. rewrite app_nil_r, Nat.add_0_r. reflexivity.
    + cbn. rewrite IH. cbn. rewrite repeat_block_mul. reflexivity.
Qed.

Lemma broadcast_to_leading {A} (lead : list nat) (a : ndarray A) :
  length (elems a) = prod_shape (shape a) ->
  broadcast_to (lead ++ shape a) a =
    Some (repeat_block (prod_shape lead) (elems a)).
Proof.
  intros Hl. unfold broadcast_to, ndim, pad_left.
  rewrite length_app.
  destruct (length (shape a) <=? length lead + length (shape a))%nat eqn:Hle.
  - replace (length lead + length (shape a) - length (shape a)) with (length lead) by lia.
    apply broadcast_same_leading, Hl.
  - apply Nat.leb_gt in Hle. lia.
Qed.

Lemma zip_with_orb_assoc (a b c : list bool) :
  zip_with orb (zip_with orb a b) c = zip_with orb a (zip_with orb b c).
Proof.
  revert b c. induction a as [|x a IH]; intros [|y b] [|z c]; cbn; try reflexivity.
  rewrite IH, orb_assoc. reflexivity.
Qed.

Lemma zip_with_orb_diag (a : list bool) : zip_with orb a a = a.
Proof. induction a as [|x a IH]; cbn; [|rewrite IH, orb_diag]; reflexivity. Qed.

Lemma zip_with_repeat_block {A B C} (f : A -> B -> C) (n : nat)
    (a : list A) (b : list B) :
  length a = length b ->
  zip_with f (repeat_block n a) (repeat_block n b) =
    repeat_block n (zip_with f a b).
Proof.
  intros Hl. induction n as [|n IH]; [reflexivity|].
  rewrite !repeat_block_S, zip_with_app, IH by exact Hl. reflexivity.
Qed.

Lemma zip_with_map_map {A B C D E} (f : C -> D -> E) (g : A -> C) (k : B -> D)
    (a : list A) (b : list B) :
  zip_with f (map g a) (map k b) = zip_with (fun x y => f (g x) (k y)) a b.
Proof.
  revert b. induction a as [|x a IH]; intros [|y b]; cbn; try reflexivity.
  rewrite IH. reflexivity.
Qed.

Lemma zip_with_map_same {A} (f g : A -> bool) (a : list A) :
  zip_with orb (map f a) (map g a) = map (fun x => f x || g x) a.
Proof. induction a as [|x a IH]; cbn; [|rewrite IH]; reflexivity. Qed.


(** ** Grid areas *)

Section GridAreas.

Context {iris : IrisLibrary}.

Lemma fx_loop_no_named cube_shape items found :
  named_files items = [] -> fx_loop cube_shape items found = Ok found.
Proof.
  induction items as [|[key [path|]] rest IH]; cbn; intros Hn.
  - reflexivity.
  - discriminate Hn.
  - apply IH, Hn.
Qed.

(** With a dictionary that is not empty and names no file, the areas
    are asked of the library, after the bounds have been guessed. *)
Lemma grid_areas_no_named cube c coord1 coord2 items (h : Heap) :
  h !! cube = Some c ->
  items <> [] ->
  named_files items = [] ->
  grid_areas cube coord1 coord2 (Some items) h =
    (let! cube' := _guess_bounds cube [coord1; coord2] in
     let! c' := get_cube cube' in
     let! g := lift (area_weights c') in
     let! c'' := get_cube cube in
     if negb (bool_decide (ma_shape (data c'') = shape g)) then
       raise (mkExn ValueError
                [Formatted shape_mismatch
                   [PShape (ma_shape (data c'')); PShape (shape g)]])
     else ret g) h.
Proof.
  intros Hc Hne Hnamed.
  destruct items as [|item items]; [contradiction|].
  unfold grid_areas. unfold bind at 1. rewrite (get_cube_lookup _ _ _ Hc).
  change (default [] (Some (item :: items))) with (item :: items).
  change (fx_given (Some (item :: items))) with true.
  cbn [negb]. rewrite (fx_loop_no_named _ _ _ Hnamed).
  unfold bind at 1, lift at 1. unfold bind at 1, ret at 1.
  unfold bind.
  destruct (_guess_bounds cube [coord1; coord2] h) as [[r|e] h1]; [|reflexivity].
  destruct (get_cube r h1) as [[c1|e] h2]; [|reflexivity].
  unfold lift. destruct (area_weights c1); reflexivity.
Qed.

(** C5.  On a cube whose latitude points are two-dimensional,
    [average_region] called without [fx_files] (none, or an empty
    dictionary) raises [CoordinateMultiDimError] for the latitude
    coordinate and leaves the heap as it was.  Called with a dictionary
    that is not empty and names no file, it does not: the bounds of the
    two coordinates are guessed, the areas are asked of the library and
    the average goes on with them. *)
Theorem average_region_irregular_without_fx
    cube c latitude coord1 coord2 operator (h : Heap) :
  h !! cube = Some c ->
  coords c !! "latitude" = Some latitude ->
  points_ndim (points latitude) = 2%nat ->
  (forall fx_files,
     fx_given fx_files = false ->
     average_region cube coord1 coord2 operator fx_files h =
       (Raise (mkExn CoordinateMultiDimError [Plain (PCoord "latitude")]), h)) /\
  (forall items,
     items <> [] ->
     named_files items = [] ->
     average_region cube coord1 coord2 operator (Some items) h =
       (let! grid_areas :=
          (let! cube' := _guess_bounds cube [coord1; coord2] in
           let! c' := get_cube cube' in
           let! g := lift (area_weights c') in
           let! c'' := get_cube cube in
           if negb (bool_decide (ma_shape (data c'') = shape g)) then
             raise (mkExn ValueError
                      [Formatted shape_mismatch
                         [PShape (ma_shape (data c'')); PShape (shape g)]])
           else ret g) in
        let! operation := lift (get_iris_analysis_operation operator) in
        if str_in operator ["mean"] then
          cube_collapsed cube [coord1; coord2] operation (Some grid_areas)
        else cube_collapsed cube [coord1; coord2] operation None) h).
Proof.
  intros Hc Hlat Hnd. split.
  - intros fx_files Hfx.
    unfold average_region, grid_areas, bind.
    rewrite (get_cube_lookup _ _ _ Hc), Hfx. cbn.
    unfold coord. rewrite Hlat, Hnd. reflexivity.
  - intros items Hne Hnamed.
    unfold average_region. unfold bind at 1.
    rewrite (grid_areas_no_named cube c coord1 coord2 items h Hc Hne Hnamed).
    reflexivity.
Qed.

Lemma tile_grid_areas_shape (cube_shape : list nat) (areas : ndarray Q) :
  supported_ranks (length cube_shape) (ndim areas) = true ->
  shape (tile_grid_areas cube_shape areas) =
    (take (length cube_shape - ndim areas) cube_shape ++ shape areas)%list.
Proof.
  destruct areas as [sa la]. unfold tile_grid_areas, ndim. cbn [shape elems].
  destruct cube_shape as [|s0 [|s1 [|s2 [|s3 [|s4 r]]]]]; try discriminate;
    destruct sa as [|a0 [|a1 [|a2 [|a3 ra]]]]; try discriminate; intros _;
    cbn; rewrite ?Nat.mul_1_r, ?Nat.add_0_r; reflexivity.
Qed.

Lemma tile_grid_areas_other (cube_shape : list nat) (areas : ndarray Q) :
  supported_ranks (length cube_shape) (ndim areas) = false ->
  tile_grid_areas cube_shape areas = areas.
Proof.
  destruct areas as [sa la]. unfold tile_grid_areas, ndim. cbn [shape elems].
  destruct cube_shape as [|s0 [|s1 [|s2 [|s3 [|s4 r]]]]];
    destruct sa as [|a0 [|a1 [|a2 [|a3 ra]]]]; try discriminate; reflexivity.
Qed.

(** Whatever the files are, areas that [grid_areas] hands on have the
    shape of the data of the cube. *)
Lemma grid_areas_shape cube coord1 coord2 fx_files (h h' : Heap) g :
  grid_areas cube coord1 coord2 fx_files h = (Ok g, h') ->
  exists c, h' !! cube = Some c /\ ma_shape (data c) = shape g.
Proof.
  unfold grid_areas, bind.
  repeat match goal with
         | |- context [match ?m ?x with _ => _ end] =>
             match type of (m x) with
             | (Result _ * Heap)%type => destruct (m x) as [[?|?] ?] eqn:?
             end
         end; try discriminate.
  match goal with
  | H : get_cube cube ?h1 = (Ok ?c, ?h2) |- context [bool_decide ?P] =>
      destruct (bool_decide P) eqn:Hd
  end; cbn; try discriminate.
  intros [= <- <-].
  match goal with
  | H : get_cube cube ?h1 = (Ok ?c, ?h2) |- _ =>
      unfold get_cube in H; destruct (h1 !! cube) eqn:Hl; inversion H; subst
  end.
  eexists; split; [eassumption|]. apply bool_decide_eq_true in Hd. exact Hd.
Qed.

(** C2, as amended.  The areas of a file are tiled along the leading
    axes of the cube for the three supported rank combinations, which
    gives them the leading lengths of the cube followed by their own
    shape, and are left as they are for any other combination.  In all
    cases the outcome is decided by the shapes alone: the areas are
    handed on when their shape is the shape of the data, and a
    [ValueError] that names both shapes is raised when it is not.
    Whatever the files are, areas that are handed on have the shape of
    the data. *)
Theorem grid_areas_from_file
    cube c key path fx_cube coord1 coord2 (h : Heap) :
  h !! cube = Some c ->
  load_cube path = Ok fx_cube ->
  let areas := array_of (data fx_cube) in
  let cube_shape := ma_shape (data c) in
  let g := tile_grid_areas cube_shape areas in
  (supported_ranks (length cube_shape) (ndim areas) = true ->
   shape g = (take (length cube_shape - ndim areas) cube_shape ++ shape areas)%list) /\
  (supported_ranks (length cube_shape) (ndim areas) = false -> g = areas) /\
  (grid_areas cube coord1 coord2 (Some [(key, Some path)]) h =
     if bool_decide (cube_shape = shape g) then (Ok g, h)
     else (Raise (mkExn ValueError
                    [Formatted shape_mismatch [PShape cube_shape; PShape (shape g)]]),
           h)) /\
  (forall fx_files h1 g1,
     grid_areas cube coord1 coord2 fx_files h = (Ok g1, h1) ->
     exists c1, h1 !! cube = Some c1 /\ ma_shape (data c1) = shape g1).
Proof.
  intros Hc Hload areas cube_shape g.
  split; [apply tile_grid_areas_shape|].
  split; [apply tile_grid_areas_other|].
  split; [|intros fx_files h1 g1; apply grid_areas_shape].
  unfold grid_areas, bind.
  rewrite (get_cube_lookup _ _ _ Hc). cbn. rewrite Hload. cbn.
  rewrite (get_cube_lookup _ _ _ Hc).
  fold areas cube_shape g.
  destruct (bool_decide (cube_shape = shape g)); reflexivity.
Qed.

End GridAreas.

Lemma grid_areas_from_file_witness :
  let areas := array_of (data Samples.cell_areas) in
  let cube_shape := ma_shape (data Samples.regular) in
  let g := tile_grid_areas cube_shape areas in
  (supported_ranks (length cube_shape) (ndim areas) = true ->
   shape g = (take (length cube_shape - ndim areas) cube_shape ++ shape areas)%list) /\
  (supported_ranks (length cube_shape) (ndim areas) = false -> g = areas) /\
  (grid_areas (iris := Samples.lib) 0 "latitude" "longitude"
     (Some [("areacello", Some "areacello.nc")]) [Samples.regular] =
     if bool_decide (cube_shape = shape g) then (Ok g, [Samples.regular])
     else (Raise (mkExn ValueError
                    [Formatted shape_mismatch [PShape cube_shape; PShape (shape g)]]),
           [Samples.regular])) /\
  (forall fx_files h1 g1,
     grid_areas (iris := Samples.lib) 0 "latitude" "longitude" fx_files
       [Samples.regular] = (Ok g1, h1) ->
     exists c1, h1 !! 0%nat = Some c1 /\ ma_shape (data c1) = shape g1).
Proof.
  apply (grid_areas_from_file (iris := Samples.lib) 0 Samples.regular
           "areacello" "areacello.nc" Samples.cell_areas "latitude" "longitude"
           [Samples.regular]).
  - reflexivity.
  - vm_compute. reflexivity.
Defined.

(** C2, as stated, fails: areas of rank two for a cube of rank two are
    not among the supported combinations, and [average_region] raises
    nothing: the areas have the shape of the data and are used. *)
Lemma equal_rank_areas_are_used :
  supported_ranks (length (ma_shape (data Samples.flat)))
    (ndim (array_of (data Samples.cell_areas))) = false /\
  fst (average_region (iris := Samples.lib) 0 "latitude" "longitude" "mean"
         (Some [("areacello", Some "areacello.nc")]) [Samples.flat]) = Ok 1%nat.
Proof. split; vm_compute; reflexivity. Qed.

Lemma average_region_irregular_without_fx_witness :
  let h := [Samples.curvilinear_series] in
  (forall fx_files,
     fx_given fx_files = false ->
     average_region (iris := Samples.lib) 0 "j" "i" "mean" fx_files h =
       (Raise (mkExn CoordinateMultiDimError [Plain (PCoord "latitude")]), h)) /\
  (forall items,
     items <> [] ->
     named_files items = [] ->
     average_region (iris := Samples.lib) 0 "j" "i" "mean" (Some items) h =
       (let! grid_areas :=
          (let! cube' := _guess_bounds (iris := Samples.lib) 0 ["j"; "i"] in
           let! c' := get_cube cube' in
           let! g := lift (area_weights (IrisLibrary := Samples.lib) c') in
           let! c'' := get_cube 0 in
           if negb (bool_decide (ma_shape (data c'') = shape g)) then
             raise (mkExn ValueError
                      [Formatted shape_mismatch
                         [PShape (ma_shape (data c'')); PShape (shape g)]])
           else ret g) in
        let! operation := lift (get_iris_analysis_operation "mean") in
        if str_in "mean" ["mean"] then
          cube_collapsed (iris := Samples.lib) 0 ["j"; "i"] operation (Some grid_areas)
        else cube_collapsed (iris := Samples.lib) 0 ["j"; "i"] operation None) h).
Proof.
  apply (average_region_irregular_without_fx (iris := Samples.lib)
           0 Samples.curvilinear_series Samples.curvilinear_latitude
           "j" "i" "mean" [Samples.curvilinear_series]); evaluate.
Defined.

(** On the series of the curvilinear grid, without a mask: with no
    dictionary the error of the guard is raised and the cube is as it
    was; with a dictionary that names no file the coordinates [j] and
    [i] have been given bounds when the library refuses the latitude. *)
Example bounds_guessed_on_an_irregular_grid :
  let run fx :=
    average_region (iris := Samples.lib) 0 "j" "i" "mean" fx
      [Samples.curvilinear_series] in
  let bounded res name :=
    match snd res with
    | [c'] => has_bounds <$> coords c' !! name
    | _ => None
    end in
  run None =
    (Raise (mkExn CoordinateMultiDimError [Plain (PCoord "latitude")]),
     [Samples.curvilinear_series]) /\
  fst (run (Some [("areacello", None)])) =
    Raise (mkExn CoordinateMultiDimError [Plain (PCoord "latitude")]) /\
  bounded (run None) "j" = Some false /\
  bounded (run (Some [("areacello", None)])) "j" = Some true /\
  bounded (run (Some [("areacello", None)])) "i" = Some true.
Proof. vm_compute. repeat split; reflexivity. Qed.


(** ** [extract_region] on an irregular grid *)

Lemma length_repeat_block {A} (n : nat) (b : list A) :
  length (repeat_block n b) = n * length b.
Proof.
  induction n as [|n IH]; [reflexivity|].
  rewrite repeat_block_S, length_app, IH. lia.
Qed.

Lemma prod_shape_app (s t : list nat) :
  prod_shape (s ++ t) = prod_shape s * prod_shape t.
Proof. induction s as [|n s IH]; cbn; [lia|]. rewrite IH. lia. Qed.

Lemma Qltb_lt (x y : Q) : Qltb x y = true <-> (x < y)%Q.
Proof.
  unfold Qltb. rewrite negb_true_iff, <- not_true_iff_false, Qle_bool_iff.
  split; [apply Qnot_le_lt | apply Qlt_not_le].
Qed.

(** *** Flags *)

Lemma any_false (l : list bool) : any l = false <-> l = replicate (length l) false.
Proof.
  unfold any. induction l as [|[] l IH]; cbn.
  - split; reflexivity.
  - split; discriminate.
  - rewrite IH. split; [intros <-; reflexivity | intros [= H]; exact H].
Qed.

Lemma any_replicate_false (n : nat) : any (replicate n false) = false.
Proof. apply any_false. rewrite length_replicate. reflexivity. Qed.

Lemma any_zip_with_orb (a b : list bool) :
  length a = length b -> any (zip_with orb a b) = any a || any b.
Proof.
  unfold any. revert b. induction a as [|x a IH]; intros [|y b] Hl;
    try discriminate; [reflexivity|].
  cbn. rewrite IH by (cbn in Hl; lia). destruct x, y; cbn; try reflexivity.
  rewrite orb_true_r. reflexivity.
Qed.

Lemma zip_with_orb_false_l (a b : list bool) :
  any a = false -> length a = length b -> zip_with orb a b = b.
Proof.
  unfold any. revert b. induction a as [|[] a IH]; intros [|y b] Ha Hl;
    try discriminate; [reflexivity|].
  cbn in *. rewrite IH by (assumption || lia). reflexivity.
Qed.

Lemma zip_with_orb_false_r (a b : list bool) :
  any b = false -> length a = length b -> zip_with orb a b = a.
Proof.
  unfold any. revert b. induction a as [|x a IH]; intros [|[] b] Hb Hl;
    try discriminate; [reflexivity|].
  cbn in *. rewrite IH by (assumption || lia). rewrite orb_false_r. reflexivity.
Qed.

Lemma any_repeat_block (n : nat) (l : list bool) :
  any l = false -> any (repeat_block n l) = false.
Proof.
  intros Hl. induction n as [|n IH]; [reflexivity|].
  rewrite repeat_block_S. unfold any in *. rewrite existsb_app, Hl, IH. reflexivity.
Qed.

Lemma map_orb_false_l (l : list bool) : map (orb false) l = l.
Proof. induction l as [|x l IH]; cbn; [|rewrite IH]; reflexivity. Qed.

Lemma map_orb_false_r (l : list bool) : map (fun x => x || false) l = l.
Proof. induction l as [|x l IH]; cbn; [|rewrite IH, orb_false_r]; reflexivity. Qed.

Lemma broadcast_to_same {A} (s : list nat) (l : list A) :
  length l = prod_shape s ->
  broadcast_to s (mkArr s l) = Some l.
Proof.
  intros Hl. pose proof (broadcast_to_leading [] (mkArr s l) Hl) as H.
  cbn [app prod_shape shape elems] in H. rewrite repeat_block_1 in H. exact H.
Qed.

Lemma broadcast_to_trailing {A} (lead s : list nat) (l : list A) :
  length l = prod_shape s ->
  broadcast_to (lead ++ s) (mkArr s l) = Some (repeat_block (prod_shape lead) l).
Proof. intros Hl. apply (broadcast_to_leading lead (mkArr s l) Hl). Qed.

(** *** The mask of a condition *)

Lemma masked_where_condition (condition : ndarray bool) (a : ndarray Q) :
  shape condition = shape a ->
  length (elems condition) = prod_shape (shape condition) ->
  match masked_where (Array condition) (plain a) with
  | Ok w => Ok (mask_attr w)
  | Raise e => Raise e
  end = Ok (condition_mask condition).
Proof.
  destruct condition as [s l], a as [sa la]. cbn [shape elems]. intros <- Hl.
  unfold masked_where, condition_mask, plain. cbn [shape elems ma_shape ma_mask ma_values].
  destruct (bool_decide (s = [])) eqn:Hs.
  - apply bool_decide_eq_true in Hs. subst s. cbn in Hl.
    destruct l as [|b [|b' l]]; try discriminate.
    unfold any. cbn. rewrite orb_false_r. destruct b; reflexivity.
  - rewrite bool_decide_eq_true_2 by reflexivity.
    unfold mask_or, mask_attr. cbn [ma_mask ma_shape].
    destruct (any l); reflexivity.
Qed.

Lemma where_lt_condition (a : ndarray Q) (x : Q) :
  length (elems a) = prod_shape (shape a) ->
  where_lt (NumPoints a) x = Ok (condition_mask (arr_lt a x)).
Proof.
  intros Hl. unfold where_lt. apply masked_where_condition; [reflexivity|].
  cbn. rewrite length_map. exact Hl.
Qed.

Lemma where_gt_condition (a : ndarray Q) (x : Q) :
  length (elems a) = prod_shape (shape a) ->
  where_gt (NumPoints a) x = Ok (condition_mask (arr_gt a x)).
Proof.
  intros Hl. unfold where_gt. apply masked_where_condition; [reflexivity|].
  cbn. rewrite length_map. exact Hl.
Qed.

Section Irregular.

Context {iris : IrisLibrary}.

(** *** [mask += ...], the name being bound to a value of its own *)

Lemma mask_iadd_own cube (s : list nat) (flags condition : list bool) (h : Heap) :
  s <> [] ->
  length flags = prod_shape s ->
  length condition = prod_shape s ->
  mask_iadd cube (own_mask s flags) (condition_mask (mkArr s condition)) h =
    (Ok (own_mask s (zip_with orb flags condition)), h).
Proof.
  intros Hs Hf Hc. unfold own_mask, condition_mask. cbn [elems].
  rewrite any_zip_with_orb by lia.
  destruct (any flags) eqn:Hany, (any condition) eqn:Hcond; cbn [orb mask_iadd].
  - unfold array_iadd. cbn [shape elems].
    rewrite (broadcast_to_same s condition) by exact Hc. reflexivity.
  - unfold array_iadd. cbn [shape elems]. rewrite map_orb_false_r.
    rewrite zip_with_orb_false_r by (assumption || lia). reflexivity.
  - unfold scalar_add. cbn [shape elems].
    rewrite bool_decide_eq_false_2 by exact Hs.
    rewrite map_orb_false_l, zip_with_orb_false_l by (assumption || lia).
    reflexivity.
  - reflexivity.
Qed.

(** *** [mask += ...], the name being bound to the mask of the data *)

Lemma mask_iadd_shared cube c (lead s : list nat) (m condition : list bool) (h : Heap) :
  h !! cube = Some c ->
  ma_shape (data c) = lead ++ s ->
  ma_mask (data c) = MaskArray m ->
  length m = prod_shape lead * prod_shape s ->
  length condition = prod_shape s ->
  mask_iadd cube Shared (condition_mask (mkArr s condition)) h =
    (Ok Shared,
     <[cube := with_mask c
                 (MaskArray (zip_with orb m
                               (repeat_block (prod_shape lead) condition)))]> h).
Proof.
  intros Hc Hs Hm Hlm Hlc. unfold mask_iadd, bind.
  rewrite (get_cube_lookup _ _ _ Hc). unfold getmaskarray. rewrite Hm, Hs.
  unfold condition_mask. cbn [elems].
  destruct (any condition) eqn:Hcond; unfold array_iadd.
  - rewrite (broadcast_to_trailing lead s condition) by exact Hlc.
    cbn [fmap option_fmap option_map elems]. unfold put_cube, ret, with_mask.
    rewrite Hs. reflexivity.
  - rewrite map_orb_false_r. unfold put_cube, ret, with_mask. rewrite Hs.
    rewrite zip_with_orb_false_r; [reflexivity| |].
    + apply any_repeat_block, Hcond.
    + rewrite length_repeat_block. lia.
Qed.

Lemma mask_iadd_shared_next cube c (lead s : list nat) (m condition : list bool)
    (h : Heap) :
  h !! cube = Some c ->
  ma_shape (data c) = lead ++ s ->
  length m = prod_shape lead * prod_shape s ->
  length condition = prod_shape s ->
  mask_iadd cube Shared (condition_mask (mkArr s condition))
    (<[cube := with_mask c (MaskArray m)]> h) =
    (Ok Shared,
     <[cube := with_mask c
                 (MaskArray (zip_with orb m
                               (repeat_block (prod_shape lead) condition)))]> h).
Proof.
  intros Hc Hs Hlm Hlc.
  rewrite (mask_iadd_shared cube (with_mask c (MaskArray m)) lead s m condition);
    try assumption; try reflexivity.
  - rewrite list_insert_insert_eq. reflexivity.
  - eapply put_then_get, Hc.
Qed.

(** *** The four conditions *)

Lemma box_flags (lats lons : list Q)
    (start_longitude end_longitude start_latitude end_latitude : Q) :
  length lats = length lons ->
  zip_with orb
    (zip_with orb
       (zip_with orb (map (fun v => Qltb v start_latitude) lats)
          (map (fun v => Qltb end_latitude v) lats))
       (map (fun v => Qltb start_longitude v) lons))
    (map (fun v => Qltb end_longitude v) lons) =
  zip_with (outside_box start_longitude end_longitude start_latitude end_latitude)
    lats lons.
Proof.
  revert lons. induction lats as [|lat lats IH]; intros [|lon lons] Hl;
    try discriminate; [reflexivity|].
  cbn. rewrite IH by (cbn in Hl; lia). reflexivity.
Qed.

Lemma irregular_grid_lengths c lats lons lead
    (start_longitude end_longitude start_latitude end_latitude : Q) :
  irregular_grid c lats lons lead ->
  length (excluded lats lons start_longitude end_longitude start_latitude end_latitude)
    = prod_shape (shape lats) /\
  length (getmaskarray (data c)) = prod_shape lead * prod_shape (shape lats).
Proof.
  intros (_ & _ & _ & _ & _ & Hllat & Hllon & Hdata & Hmask). split.
  - unfold excluded. rewrite length_zip_with. lia.
  - rewrite Hmask, Hdata. apply prod_shape_app.
Qed.

Lemma with_mask_id c m : ma_mask (data c) = m -> with_mask c m = c.
Proof. destruct c as [[s v m'] d co]. cbn. intros ->. reflexivity. Qed.

Lemma app_eq_self_r {A} (l s : list A) : s = l ++ s <-> l = [].
Proof.
  split; [|intros ->; reflexivity].
  intros H. apply (f_equal length) in H. rewrite length_app in H.
  destruct l; [reflexivity|cbn in H; lia].
Qed.

(** On an irregular grid the branch of [extract_region] does one of
    three things.  Data with a mask gets the cells that the box excludes
    added to its mask, in place.  Data without a mask is left as it is
    when the box excludes no cell; when it excludes one, the mask is the
    array of the excluded cells, which has the shape of the grid: the
    data is masked by it when it has that shape, and [masked_where]
    refuses it when the data has leading axes. *)
Lemma extract_region_irregular
    (h : Heap) cube c lats lons lead
    start_longitude end_longitude start_latitude end_latitude :
  h !! cube = Some c ->
  irregular_grid c lats lons lead ->
  let out :=
    excluded lats lons start_longitude end_longitude start_latitude end_latitude in
  extract_region cube start_longitude end_longitude start_latitude end_latitude h =
    match ma_mask (data c) with
    | MaskArray m =>
        (Ok cube,
         <[cube := with_mask c
                     (MaskArray (zip_with orb m
                                   (repeat_block (prod_shape lead) out)))]> h)
    | nomask =>
        if any out then
          if bool_decide (lead = []) then
            (Ok cube, <[cube := with_mask c (MaskArray out)]> h)
          else (Raise (index_error (shape lats) (ma_shape (data c))), h)
        else (Ok cube, h)
    end.
Proof.
  intros Hc Hgrid out.
  pose proof (irregular_grid_lengths c lats lons lead start_longitude end_longitude
                start_latitude end_latitude Hgrid) as [Hlout Hlmask].
  destruct Hgrid as ((latitude & Hlat & Hplat) & (longitude & Hlon & Hplon) &
                     Hnd & Hax & Hshape & Hllat & Hllon & Hdata & Hmask).
  unfold extract_region.
  rewrite (bind_run _ _ _ _ _ (get_cube_lookup _ _ _ Hc)).
  unfold bind at 1, lift at 1, coord. rewrite Hlat, Hplat. cbn [points_ndim].
  destruct (ndim lats =? 1)%nat eqn:E; [apply Nat.eqb_eq in E; contradiction|].
  unfold bind at 1, lift at 1. rewrite Hlon, Hplon.
  rewrite !where_lt_condition, !where_gt_condition by congruence.
  unfold arr_lt, arr_gt. rewrite Hshape.
  set (c1 := map (fun v => Qltb v start_latitude) (elems lats)).
  set (c2 := map (fun v => Qltb end_latitude v) (elems lats)).
  set (c3 := map (fun v => Qltb start_longitude v) (elems lons)).
  set (c4 := map (fun v => Qltb end_longitude v) (elems lons)).
  assert (Hl1 : length c1 = prod_shape (shape lats)) by (subst c1; rewrite length_map; exact Hllat).
  assert (Hl2 : length c2 = prod_shape (shape lats)) by (subst c2; rewrite length_map; exact Hllat).
  assert (Hl3 : length c3 = prod_shape (shape lats)) by (subst c3; rewrite length_map; exact Hllon).
  assert (Hl4 : length c4 = prod_shape (shape lats)) by (subst c4; rewrite length_map; exact Hllon).
  assert (Hl12 : length (zip_with orb c1 c2) = prod_shape (shape lats))
    by (rewrite length_zip_with; lia).
  assert (Hl123 : length (zip_with orb (zip_with orb c1 c2) c3) = prod_shape (shape lats))
    by (rewrite !length_zip_with; lia).
  assert (Hout : zip_with orb (zip_with orb (zip_with orb c1 c2) c3) c4 = out).
  { subst c1 c2 c3 c4 out. unfold excluded. apply box_flags. lia. }
  unfold data_mask. unfold getmaskarray in Hlmask.
  destruct (ma_mask (data c)) as [|m] eqn:Hm.
  - (* no mask: the name is bound to values of its own *)
    replace (Own (Scalar false))
      with (own_mask (shape lats) (replicate (prod_shape (shape lats)) false))
      by (unfold own_mask; rewrite any_replicate_false; reflexivity).
    rewrite (bind_run _ _ _ _ _ (eq_refl : lift (Ok _) h = _)).
    rewrite (bind_run _ _ _ _ _
               (mask_iadd_own cube _ _ c1 h Hax (length_replicate _ _) Hl1)).
    rewrite (zip_with_orb_false_l _ c1)
      by (rewrite ?any_replicate_false, ?length_replicate; congruence).
    rewrite (bind_run _ _ _ _ _ (eq_refl : lift (Ok _) h = _)).
    rewrite (bind_run _ _ _ _ _ (mask_iadd_own cube _ _ c2 h Hax Hl1 Hl2)).
    rewrite (bind_run _ _ _ _ _ (eq_refl : lift (Ok _) h = _)).
    rewrite (bind_run _ _ _ _ _
               (mask_iadd_own cube _ _ c3 h Hax Hl12 Hl3)).
    rewrite (bind_run _ _ _ _ _ (eq_refl : lift (Ok _) h = _)).
    rewrite (bind_run _ _ _ _ _
               (mask_iadd_own cube _ _ c4 h Hax Hl123 Hl4)).
    rewrite Hout.
    rewrite (bind_run _ _ _ _ _ (get_cube_lookup _ _ _ Hc)).
    unfold own_mask, mask_value.
    destruct (any out) eqn:Hany.
    + unfold masked_where. cbn [shape elems].
      rewrite bool_decide_eq_false_2 by exact Hax.
      destruct (bool_decide (lead = [])) eqn:Hlead.
      * apply bool_decide_eq_true in Hlead. subst lead. cbn [app] in Hdata.
        rewrite bool_decide_eq_true_2 by (symmetry; exact Hdata).
        unfold bind, lift, put_cube, ret, mask_or. rewrite Hm, Hany. reflexivity.
      * apply bool_decide_eq_false in Hlead.
        rewrite bool_decide_eq_false_2.
        { unfold bind, lift. rewrite Hdata. reflexivity. }
        rewrite Hdata. intros Heq. apply Hlead. eapply app_eq_self_r, Heq.
    + unfold masked_where, bind, lift, put_cube, ret.
      replace (set_data c (data c)) with c by (destruct c; reflexivity).
      rewrite list_insert_id by exact Hc. reflexivity.
  - (* a mask: the name is bound to the mask of the data *)
    rewrite <- (list_insert_id h cube c Hc) at 1.
    rewrite <- (with_mask_id c _ Hm) at 1.
    rewrite (bind_run _ _ _ _ _ (eq_refl : lift (Ok _) _ = _)).
    rewrite (bind_run _ _ _ _ _
               (mask_iadd_shared_next cube c lead _ m c1 h Hc Hdata Hlmask Hl1)).
    assert (Hm1 : length (zip_with orb m (repeat_block (prod_shape lead) c1)) =
                  prod_shape lead * prod_shape (shape lats))
      by (rewrite length_zip_with, length_repeat_block; lia).
    rewrite (bind_run _ _ _ _ _ (eq_refl : lift (Ok _) _ = _)).
    rewrite (bind_run _ _ _ _ _
               (mask_iadd_shared_next cube c lead _ _ c2 h Hc Hdata Hm1 Hl2)).
    assert (Hm2 : length (zip_with orb
                            (zip_with orb m (repeat_block (prod_shape lead) c1))
                            (repeat_block (prod_shape lead) c2)) =
                  prod_shape lead * prod_shape (shape lats))
      by (rewrite length_zip_with, length_repeat_block; lia).
    rewrite (bind_run _ _ _ _ _ (eq_refl : lift (Ok _) _ = _)).
    rewrite (bind_run _ _ _ _ _
               (mask_iadd_shared_next cube c lead _ _ c3 h Hc Hdata Hm2 Hl3)).
    assert (Hm3 : length (zip_with orb
                            (zip_with orb
                               (zip_with orb m (repeat_block (prod_shape lead) c1))
                               (repeat_block (prod_shape lead) c2))
                            (repeat_block (prod_shape lead) c3)) =
                  prod_shape lead * prod_shape (shape lats))
      by (rewrite length_zip_with, length_repeat_block; lia).
    rewrite (bind_run _ _ _ _ _ (eq_refl : lift (Ok _) _ = _)).
    rewrite (bind_run _ _ _ _ _
               (mask_iadd_shared_next cube c lead _ _ c4 h Hc Hdata Hm3 Hl4)).
    rewrite (bind_run _ _ _ _ _ (get_cube_lookup _ _ _ (put_then_get _ _ _ _ Hc))).
    unfold mask_value, mask_attr, with_mask, set_data.
    cbn [data ma_mask ma_shape ma_values dims coords].
    unfold masked_where. cbn [shape elems ma_shape ma_mask ma_values].
    rewrite bool_decide_eq_false_2
      by (rewrite Hdata; intros Hnil; apply app_eq_nil in Hnil as [_ Hnil];
          contradiction).
    rewrite bool_decide_eq_true_2 by reflexivity.
    unfold bind, lift, put_cube, ret, mask_or.
    rewrite list_insert_insert_eq, zip_with_orb_diag.
    rewrite (zip_with_orb_assoc m), (zip_with_orb_assoc m), (zip_with_orb_assoc m).
    rewrite !zip_with_repeat_block by (rewrite ?length_zip_with; lia).
    rewrite Hout. reflexivity.
Qed.

Lemma irregular_grid_with_mask c lats lons lead (m : list bool) :
  irregular_grid c lats lons lead ->
  length m = prod_shape (ma_shape (data c)) ->
  irregular_grid (with_mask c (MaskArray m)) lats lons lead.
Proof.
  intros (Hlat & Hlon & Hnd & Hax & Hshape & Hllat & Hllon & Hdata & Hmask) Hm.
  repeat split; try assumption.
Qed.

Lemma repeat_block_false (n : nat) (l : list bool) :
  any l = false -> repeat_block n l = replicate (n * length l) false.
Proof.
  intros Hl. pose proof (any_repeat_block n l Hl) as H.
  apply any_false in H. rewrite length_repeat_block in H. exact H.
Qed.

(** When the branch returns, the mask of the cube is the union of the
    mask it had with the cells that the box excludes. *)
Lemma extract_region_irregular_returns
    (h : Heap) cube c lats lons lead
    start_longitude end_longitude start_latitude end_latitude :
  h !! cube = Some c ->
  irregular_grid c lats lons lead ->
  let out :=
    excluded lats lons start_longitude end_longitude start_latitude end_latitude in
  ma_mask (data c) <> nomask \/ lead = [] \/ any out = false ->
  exists c',
    extract_region cube start_longitude end_longitude start_latitude end_latitude h =
      (Ok cube, <[cube := c']> h) /\
    only_mask c c' /\
    getmaskarray (data c') =
      zip_with orb (getmaskarray (data c)) (repeat_block (prod_shape lead) out) /\
    irregular_grid c' lats lons lead.
Proof.
  intros Hc Hgrid out Hcase.
  pose proof (extract_region_irregular h cube c lats lons lead start_longitude
                end_longitude start_latitude end_latitude Hc Hgrid) as Hrun.
  pose proof (irregular_grid_lengths c lats lons lead start_longitude end_longitude
                start_latitude end_latitude Hgrid) as [Hlout Hlmask].
  cbv zeta in Hrun. fold out in Hrun, Hlout.
  assert (Hshape : prod_shape (ma_shape (data c)) =
                   prod_shape lead * prod_shape (shape lats)).
  { destruct Hgrid as (_ & _ & _ & _ & _ & _ & _ & Hdata & _).
    rewrite Hdata. apply prod_shape_app. }
  unfold getmaskarray in *.
  destruct (ma_mask (data c)) as [|m] eqn:Hm.
  - destruct (any out) eqn:Hany.
    + destruct Hcase as [Hcase|[->|Hcase]]; [contradiction| |discriminate].
      rewrite bool_decide_eq_true_2 in Hrun by reflexivity.
      exists (with_mask c (MaskArray out)).
      split; [exact Hrun|]. split; [repeat split|]. split.
      * cbn [with_mask set_data data ma_mask prod_shape].
        rewrite repeat_block_1, zip_with_orb_false_l;
          [reflexivity|apply any_replicate_false|].
        rewrite length_replicate. cbn [prod_shape] in Hshape. lia.
      * apply irregular_grid_with_mask; [exact Hgrid|].
        cbn [prod_shape] in Hshape. lia.
    + exists c. rewrite list_insert_id by exact Hc.
      split; [exact Hrun|]. split; [repeat split|]. split; [|exact Hgrid].
      rewrite Hm, repeat_block_false by exact Hany.
      rewrite zip_with_orb_false_l;
        [rewrite Hlout, Hshape; reflexivity|apply any_replicate_false|].
      rewrite !length_replicate. lia.
  - eexists. split; [exact Hrun|]. split; [repeat split|]. split; [reflexivity|].
    apply irregular_grid_with_mask; [exact Hgrid|].
    rewrite length_zip_with, length_repeat_block. lia.
Qed.

(** Data without a mask and with leading axes: when the box excludes a
    cell, [masked_where] refuses the mask and the cube is as it was. *)
Lemma extract_region_irregular_raises
    (h : Heap) cube c lats lons lead
    start_longitude end_longitude start_latitude end_latitude :
  h !! cube = Some c ->
  irregular_grid c lats lons lead ->
  ma_mask (data c) = nomask ->
  lead <> [] ->
  any (excluded lats lons start_longitude end_longitude start_latitude end_latitude)
    = true ->
  extract_region cube start_longitude end_longitude start_latitude end_latitude h =
    (Raise (index_error (shape lats) (ma_shape (data c))), h).
Proof.
  intros Hc Hgrid Hm Hlead Hany.
  rewrite (extract_region_irregular h cube c lats lons lead) by assumption.
  cbv zeta. rewrite Hm, Hany, bool_decide_eq_false_2 by exact Hlead. reflexivity.
Qed.

(** The three cases are all there is. *)
Lemma extract_region_irregular_cases c (lead : list nat) (out : list bool) :
  (ma_mask (data c) <> nomask \/ lead = [] \/ any out = false) \/
  (ma_mask (data c) = nomask /\ lead <> [] /\ any out = true).
Proof.
  destruct (ma_mask (data c)); [|left; left; discriminate].
  destruct lead; [left; right; left; reflexivity|].
  destruct (any out); [right; repeat split; discriminate|].
  left. right. right. reflexivity.
Qed.

(** C9.  On an irregular grid [extract_region] returns the cube it was
    given, with its dimensions, coordinates, shape and values, and with
    the cells that the box excludes added to its mask, when the data
    carries a mask, or has the shape of the grid, or the box excludes no
    cell.  When the data carries no mask and has leading axes, and the
    box excludes a cell, the call raises the [IndexError] of
    [np.ma.masked_where] and the cube is as it was. *)
Theorem extract_region_irregular_masks
    (h : Heap) cube c lats lons lead
    start_longitude end_longitude start_latitude end_latitude :
  h !! cube = Some c ->
  irregular_grid c lats lons lead ->
  let out :=
    excluded lats lons start_longitude end_longitude start_latitude end_latitude in
  let run :=
    extract_region cube start_longitude end_longitude start_latitude end_latitude in
  (ma_mask (data c) <> nomask \/ lead = [] \/ any out = false ->
   exists c',
     run h = (Ok cube, <[cube := c']> h) /\
     dims c' = dims c /\
     coords c' = coords c /\
     ma_shape (data c') = ma_shape (data c) /\
     ma_values (data c') = ma_values (data c) /\
     getmaskarray (data c') =
       zip_with orb (getmaskarray (data c)) (repeat_block (prod_shape lead) out)) /\
  (ma_mask (data c) = nomask -> lead <> [] -> any out = true ->
   run h = (Raise (index_error (shape lats) (ma_shape (data c))), h)).
Proof.
  intros Hc Hgrid out run. split.
  - intros Hcase.
    destruct (extract_region_irregular_returns h cube c lats lons lead
                start_longitude end_longitude start_latitude end_latitude
                Hc Hgrid Hcase) as (c' & Hrun & (Hd & Hco & Hs & Hv) & Hmask & _).
    exists c'. repeat split; assumption.
  - intros Hm Hlead Hany. eapply extract_region_irregular_raises; eassumption.
Qed.

Lemma box_tests (lats lons : list Q)
    (start_longitude end_longitude start_latitude end_latitude : Q) :
  zip_with orb
    (map (fun lat => Qltb lat start_latitude || Qltb end_latitude lat) lats)
    (map (fun lon => Qltb start_longitude lon || Qltb end_longitude lon) lons) =
  zip_with (outside_box start_longitude end_longitude start_latitude end_latitude)
    lats lons.
Proof.
  rewrite zip_with_map_map. apply zip_with_ext; [|reflexivity..].
  intros lat lon. unfold outside_box. rewrite !orb_assoc. reflexivity.
Qed.

(** C4.  On an irregular grid, whatever the outcome of [extract_region],
    the cube is as it was when the call raises, and when the call
    returns its mask is the mask it had, or-ed cell by cell with the two
    latitude tests and with the longitude test; the call returns when
    the data carries a mask or has the shape of the grid.  The longitude
    test of a cell holds exactly when its longitude is greater than the
    start longitude or greater than the end longitude: a longitude below
    the start longitude is masked by it only when it is greater than the
    end longitude. *)
Theorem extract_region_irregular_longitude_test
    (h : Heap) cube c lats lons lead
    start_longitude end_longitude start_latitude end_latitude :
  h !! cube = Some c ->
  irregular_grid c lats lons lead ->
  let lon_test lon := Qltb start_longitude lon || Qltb end_longitude lon in
  let lat_test lat := Qltb lat start_latitude || Qltb end_latitude lat in
  let tests := zip_with orb (map lat_test (elems lats)) (map lon_test (elems lons)) in
  let run :=
    extract_region cube start_longitude end_longitude start_latitude end_latitude in
  (forall res h',
     run h = (res, h') ->
     match res with
     | Ok r =>
         r = cube /\
         exists c',
           h' = <[cube := c']> h /\
           getmaskarray (data c') =
             zip_with orb (getmaskarray (data c))
               (repeat_block (prod_shape lead) tests)
     | Raise _ => h' = h
     end) /\
  (ma_mask (data c) <> nomask \/ lead = [] -> exists h', run h = (Ok cube, h')) /\
  (forall lon,
     lon_test lon = true <-> (start_longitude < lon \/ end_longitude < lon)%Q) /\
  (forall lon,
     (lon < start_longitude)%Q -> (lon_test lon = true <-> (end_longitude < lon)%Q)).
Proof.
  intros Hc Hgrid lon_test lat_test tests run.
  assert (Htests : tests = excluded lats lons start_longitude end_longitude
                             start_latitude end_latitude)
    by apply box_tests.
  assert (Htest : forall lon,
             lon_test lon = true <-> (start_longitude < lon \/ end_longitude < lon)%Q).
  { intros lon. unfold lon_test. rewrite orb_true_iff, !Qltb_lt. reflexivity. }
  split; [|split; [|split; [exact Htest|]]].
  - intros res h' Hrun. rewrite Htests.
    destruct (extract_region_irregular_cases c lead
                (excluded lats lons start_longitude end_longitude start_latitude
                   end_latitude)) as [Hcase|(Hm & Hlead & Hany)].
    + destruct (extract_region_irregular_returns h cube c lats lons lead
                  start_longitude end_longitude start_latitude end_latitude
                  Hc Hgrid Hcase) as (c' & Hrun' & _ & Hmask & _).
      subst run. rewrite Hrun' in Hrun. injection Hrun as <- <-.
      split; [reflexivity|]. exists c'. split; [reflexivity | exact Hmask].
    + subst run.
      rewrite (extract_region_irregular_raises h cube c lats lons lead) in Hrun
        by assumption.
      injection Hrun as <- <-. reflexivity.
  - intros Hcase.
    destruct (extract_region_irregular_returns h cube c lats lons lead
                start_longitude end_longitude start_latitude end_latitude
                Hc Hgrid) as (c' & Hrun' & _).
    { destruct Hcase as [Hcase|Hcase]; [left | right; left]; exact Hcase. }
    eexists. exact Hrun'.
  - intros lon Hlt. rewrite Htest. split; [|auto].
    intros [H|H]; [|exact H].
    exfalso. eapply Qlt_irrefl, Qlt_trans; eassumption.
Qed.

End Irregular.

Lemma curvilinear_series_grid :
  irregular_grid Samples.curvilinear_series
    (mkArr [2; 2]%nat [0; 1; 10; 11]%Q) (mkArr [2; 2]%nat [5; 50; 6; 51]%Q) [2%nat].
Proof.
  unfold irregular_grid, mask_complete.
  split; [exists Samples.curvilinear_latitude; split; reflexivity|].
  split; [exists Samples.curvilinear_longitude; split; reflexivity|].
  repeat split; evaluate.
Qed.

Lemma curvilinear_grid :
  irregular_grid Samples.curvilinear
    (mkArr [2; 2]%nat [0; 1; 10; 11]%Q) (mkArr [2; 2]%nat [5; 50; 6; 51]%Q) [].
Proof.
  unfold irregular_grid, mask_complete.
  split; [exists Samples.curvilinear_latitude; split; reflexivity|].
  split; [exists Samples.curvilinear_longitude; split; reflexivity|].
  repeat split; evaluate.
Qed.

(** Two times of an unmasked field on a grid of two by two cells, and a
    box that excludes the cell of longitude 50: the call raises and the
    cube is as it was. *)
Lemma extract_region_irregular_masks_witness :
  extract_region (iris := Samples.lib) 0 0 20 0 5 [Samples.curvilinear_series] =
    (Raise (index_error [2; 2]%nat [2; 2; 2]%nat), [Samples.curvilinear_series]).
Proof.
  apply (proj2 (extract_region_irregular_masks (iris := Samples.lib)
                  [Samples.curvilinear_series] 0 Samples.curvilinear_series
                  (mkArr [2; 2]%nat [0; 1; 10; 11]%Q)
                  (mkArr [2; 2]%nat [5; 50; 6; 51]%Q) [2%nat] 0 20 0 5
                  eq_refl curvilinear_series_grid)); evaluate.
Defined.

Lemma extract_region_irregular_longitude_test_witness :
  let h := [Samples.curvilinear] in
  let lon_test lon := Qltb 20 lon || Qltb 60 lon in
  let lat_test lat := Qltb lat 0 || Qltb 20 lat in
  let tests :=
    zip_with orb (map lat_test [0; 1; 10; 11]%Q) (map lon_test [5; 50; 6; 51]%Q) in
  let run := extract_region (iris := Samples.lib) 0 20 60 0 20 in
  (forall res h',
     run h = (res, h') ->
     match res with
     | Ok r =>
         r = 0%nat /\
         exists c',
           h' = <[0%nat := c']> h /\
           getmaskarray (data c') =
             zip_with orb (getmaskarray (data Samples.curvilinear))
               (repeat_block (prod_shape []) tests)
     | Raise _ => h' = h
     end) /\
  (ma_mask (data Samples.curvilinear) <> nomask \/ @nil nat = [] ->
   exists h', run h = (Ok 0%nat, h')) /\
  (forall lon, lon_test lon = true <-> (20 < lon \/ 60 < lon)%Q) /\
  (forall lon, (lon < 20)%Q -> (lon_test lon = true <-> (60 < lon)%Q)).
Proof.
  exact (extract_region_irregular_longitude_test (iris := Samples.lib)
           [Samples.curvilinear] 0 Samples.curvilinear
           (mkArr [2; 2]%nat [0; 1; 10; 11]%Q)
           (mkArr [2; 2]%nat [5; 50; 6; 51]%Q) [] 20 60 0 20
           eq_refl curvilinear_grid).
Defined.

(** On the grid of two by two cells with one cell masked, the box of the
    longitudes 20 to 60 leaves the two cells of the longitudes 5 and 6,
    which are below it, as they were, and masks the two cells of the
    longitudes 50 and 51, which are inside it.  On two unmasked times of
    the same grid the same call raises, and with a mask it returns; a
    box that excludes no cell leaves the unmasked times as they were. *)
Example irregular_masks_inside_the_box :
  let masks res :=
    match res with
    | (Ok r, h) => Some (getmaskarray <$> (data <$> h !! r))
    | (Raise _, _) => None
    end in
  masks (extract_region (iris := Samples.lib) 0 20 60 0 20 [Samples.curvilinear]) =
    Some (Some [false; true; false; true]) /\
  masks (extract_region (iris := Samples.lib) 0 20 60 0 20
           [Samples.curvilinear_plain]) =
    Some (Some [false; true; false; true]) /\
  extract_region (iris := Samples.lib) 0 20 60 0 20 [Samples.curvilinear_series] =
    (Raise (index_error [2; 2]%nat [2; 2; 2]%nat), [Samples.curvilinear_series]) /\
  masks (extract_region (iris := Samples.lib) 0 20 60 0 20
           [Samples.curvilinear_series_masked]) =
    Some (Some [false; true; false; true; false; true; false; true]) /\
  masks (extract_region (iris := Samples.lib) 0 60 60 0 20
           [Samples.curvilinear_series]) =
    Some (Some (replicate 8 false)).
Proof. vm_compute. repeat split; reflexivity. Qed.

(** ** Effects of the operations on the cube they are given *)

Section Effects.

Context {iris : IrisLibrary}.

Lemma effect_pure {A} allocs (R : Cube -> Cube -> Prop) cube (m : M A) :
  (forall c, R c c) ->
  (forall h, snd (m h) = h) ->
  effect allocs R cube m.
Proof.
  intros Hrefl Hm h c res h' Hc Hrun.
  exists c, []. rewrite app_nil_r, list_insert_id by exact Hc.
  split; [|split; [apply Hrefl | destruct allocs; reflexivity]].
  specialize (Hm h). rewrite Hrun in Hm. exact Hm.
Qed.

Lemma effect_bind {A B} allocs (R : Cube -> Cube -> Prop) cube
    (m : M A) (k : A -> M B) :
  (forall x y z, R x y -> R y z -> R x z) ->
  effect allocs R cube m ->
  (forall a, effect allocs R cube (k a)) ->
  effect allocs R cube (bind m k).
Proof.
  intros Htrans Hm Hk h c res h' Hc Hrun. unfold bind in Hrun.
  destruct (m h) as [[a|e] h1] eqn:Em.
  - destruct (Hm h c _ _ Hc Em) as (c1 & new1 & -> & HR1 & Hn1).
    assert (Hlt : cube < length h) by (eapply lookup_lt_Some, Hc).
    assert (Hc1 : (<[cube := c1]> h ++ new1) !! cube = Some c1).
    { apply lookup_app_l_Some, list_lookup_insert_eq, Hlt. }
    destruct (Hk a _ c1 _ _ Hc1 Hrun) as (c2 & new2 & -> & HR2 & Hn2).
    exists c2, (new1 ++ new2).
    split; [|split; [eapply Htrans; eassumption|]].
    + rewrite insert_app_l by (rewrite length_insert; exact Hlt).
      rewrite list_insert_insert_eq, app_assoc. reflexivity.
    + destruct allocs; [exact I|]. cbn in *. subst. reflexivity.
  - inversion Hrun; subst. eapply Hm; eassumption.
Qed.

Lemma effect_weaken {A} allocs (R R' : Cube -> Cube -> Prop) cube (m : M A) :
  (forall x y, R x y -> R' x y) ->
  effect allocs R cube m -> effect true R' cube m.
Proof.
  intros HR Hm h c res h' Hc Hrun.
  destruct (Hm h c _ _ Hc Hrun) as (c' & new & -> & Hc' & _).
  exists c', new. split; [reflexivity|]. split; [apply HR, Hc' | exact I].
Qed.

Lemma effect_mono {A} allocs (R R' : Cube -> Cube -> Prop) cube (m : M A) :
  (forall x y, R x y -> R' x y) ->
  effect allocs R cube m -> effect allocs R' cube m.
Proof.
  intros HR Hm h c res h' Hc Hrun.
  destruct (Hm h c _ _ Hc Hrun) as (c' & new & -> & Hc' & Hn).
  exists c', new. split; [reflexivity|]. split; [apply HR, Hc' | exact Hn].
Qed.

Lemma effect_alloc (R : Cube -> Cube -> Prop) cube c0 :
  (forall c, R c c) -> effect true R cube (alloc c0).
Proof.
  intros Hrefl h c res h' Hc Hrun. unfold alloc in Hrun. inversion Hrun; subst.
  exists c, [c0]. rewrite list_insert_id by exact Hc.
  split; [reflexivity|]. split; [apply Hrefl | exact I].
Qed.

Lemma effect_get_cube allocs (R : Cube -> Cube -> Prop) cube r :
  (forall c, R c c) -> effect allocs R cube (get_cube r).
Proof.
  intros Hrefl. apply effect_pure; [exact Hrefl|].
  intros h. unfold get_cube. destruct (h !! r); reflexivity.
Qed.

Lemma effect_lift {A} allocs (R : Cube -> Cube -> Prop) cube (r : Result A) :
  (forall c, R c c) -> effect allocs R cube (lift r).
Proof. intros Hrefl. apply effect_pure; [exact Hrefl | reflexivity]. Qed.

Lemma effect_ret {A} allocs (R : Cube -> Cube -> Prop) cube (a : A) :
  (forall c, R c c) -> effect allocs R cube (ret a).
Proof. intros Hrefl. apply effect_pure; [exact Hrefl | reflexivity]. Qed.

Lemma effect_raise {A} allocs (R : Cube -> Cube -> Prop) cube e :
  (forall c, R c c) -> effect allocs R cube (raise (A := A) e).
Proof. intros Hrefl. apply effect_pure; [exact Hrefl | reflexivity]. Qed.

(** Replacing the cube read at [cube] by a related one. *)
Lemma effect_put allocs (R : Cube -> Cube -> Prop) cube (f : Cube -> M Cube) :
  (forall c, R c c) ->
  (forall h c res h', h !! cube = Some c -> f c h = (res, h') ->
     h' = h /\ forall c', res = Ok c' -> R c c') ->
  effect allocs R cube
    (let! c := get_cube cube in let! c' := f c in put_cube cube c').
Proof.
  intros Hrefl Hf h c res h' Hc Hrun. unfold bind in Hrun.
  rewrite (get_cube_lookup _ _ _ Hc) in Hrun.
  destruct (f c h) as [[c'|e] h1] eqn:Ef;
    destruct (Hf _ _ _ _ Hc Ef) as [-> HR]; inversion Hrun; subst.
  - exists c', []. rewrite app_nil_r.
    split; [reflexivity|]. split; [apply HR; reflexivity | destruct allocs; reflexivity].
  - exists c, []. rewrite app_nil_r, list_insert_id by exact Hc.
    split; [reflexivity|]. split; [apply Hrefl | destruct allocs; reflexivity].
Qed.

Lemma only_mask_refl c : only_mask c c.
Proof. repeat split. Qed.

Lemma only_mask_trans x y z : only_mask x y -> only_mask y z -> only_mask x z.
Proof.
  intros (H1 & H2 & H3 & H4) (K1 & K2 & K3 & K4).
  repeat split; congruence.
Qed.

Lemma bounds_filled_refl names m : bounds_filled names m m.
Proof. intros k. destruct (m !! k); auto. Qed.

Lemma bounds_filled_trans names m1 m2 m3 :
  bounds_filled names m1 m2 -> bounds_filled names m2 m3 ->
  bounds_filled names m1 m3.
Proof.
  intros H12 H23 k. specialize (H12 k). specialize (H23 k).
  destruct (m1 !! k) as [a|], (m2 !! k) as [b|], (m3 !! k) as [d|];
    try contradiction; try exact I.
  destruct H12 as [Hp [Hb|[Hb Hk]]], H23 as [Hp' [Hb'|[Hb' Hk']]];
    (split; [congruence|]); [left; congruence | right | right | right];
    split; congruence.
Qed.

Lemma bounds_filled_mono names names' m1 m2 :
  (forall k, k ∈ names -> k ∈ names') ->
  bounds_filled names m1 m2 -> bounds_filled names' m1 m2.
Proof.
  intros Hsub H k. specialize (H k).
  destruct (m1 !! k), (m2 !! k); try assumption.
  destruct H as [Hp [Hb|[Hb Hk]]]; split; auto.
Qed.

Lemma only_bounds_refl names c : only_bounds names c c.
Proof. repeat split. apply bounds_filled_refl. Qed.

Lemma only_bounds_trans names x y z :
  only_bounds names x y -> only_bounds names y z -> only_bounds names x z.
Proof.
  intros (H1 & H2 & H3) (K1 & K2 & K3).
  repeat split; try congruence. eapply bounds_filled_trans; eassumption.
Qed.

Lemma only_bounds_mono names names' x y :
  (forall k, k ∈ names -> k ∈ names') ->
  only_bounds names x y -> only_bounds names' x y.
Proof.
  intros Hsub (H1 & H2 & H3). repeat split; try assumption.
  eapply bounds_filled_mono; eassumption.
Qed.

(** Giving bounds to a coordinate that has none. *)
Lemma set_bounds_only_bounds c name co b :
  coords c !! name = Some co ->
  has_bounds co = false ->
  only_bounds [name] c (set_coord c name (mkCoord (points co) (Some b))).
Proof.
  intros Hco Hb. repeat split. intros k. cbn.
  destruct (decide (name = k)) as [<-|Hne].
  - rewrite lookup_insert_eq, Hco. cbn. split; [reflexivity|].
    right. split; [|apply list_elem_of_singleton; reflexivity].
    unfold has_bounds in Hb. destruct (bounds co); [discriminate | reflexivity].
  - rewrite lookup_insert_ne by exact Hne. destruct (coords c !! k); auto.
Qed.

Lemma masked_where_only condition a d :
  masked_where condition a = Ok d ->
  ma_shape d = ma_shape a /\ ma_values d = ma_values a.
Proof.
  unfold masked_where. intros H.
  assert (Hby : forall b : bool,
             ma_shape (if b then
                         mkMA (ma_shape a) (ma_values a)
                           (MaskArray (replicate (prod_shape (ma_shape a)) true))
                       else a) = ma_shape a /\
             ma_values (if b then
                          mkMA (ma_shape a) (ma_values a)
                            (MaskArray (replicate (prod_shape (ma_shape a)) true))
                        else a) = ma_values a)
    by (intros []; split; reflexivity).
  destruct condition as [b|c].
  - injection H as <-. apply Hby.
  - destruct (bool_decide (shape c = [])); [injection H as <-; apply Hby|].
    destruct (bool_decide (shape c = ma_shape a)); [|discriminate].
    injection H as <-. split; reflexivity.
Qed.

Lemma mask_iadd_effect cube mask other :
  effect false only_mask cube (mask_iadd cube mask other).
Proof.
  intros h c res h' Hc. unfold mask_iadd.
  assert (Hsame : forall r : Result MaskVar,
             (r, h) = (res, h') ->
             exists c' new, h' = <[cube := c']> h ++ new /\ only_mask c c' /\
                            only_new false new).
  { intros r [= <- <-]. exists c, [].
    rewrite app_nil_r, list_insert_id by exact Hc. repeat split. }
  destruct mask as [[b|m]|].
  - apply Hsame.
  - destruct (array_iadd (shape m) (elems m) other); apply Hsame.
  - unfold bind. rewrite (get_cube_lookup _ _ _ Hc).
    destruct (array_iadd _ _ other) as [flags|]; [|apply Hsame].
    unfold put_cube, ret. intros [= <- <-].
    eexists _, []. rewrite app_nil_r. repeat split.
Qed.

Lemma guess_bounds_effect cube names :
  effect false (only_bounds names) cube (_guess_bounds cube names).
Proof.
  induction names as [|name rest IH]; intros h c res h' Hc.
  - cbn. intros [= <- <-]. exists c, [].
    rewrite app_nil_r, list_insert_id by exact Hc.
    split; [reflexivity|]. split; [apply only_bounds_refl | reflexivity].
  - cbn [_guess_bounds]. unfold bind at 1. rewrite (get_cube_lookup _ _ _ Hc).
    unfold bind at 1, lift at 1, coord.
    destruct (coords c !! name) as [co|] eqn:Hco.
    + assert (Hsub : forall k, k ∈ rest -> k ∈ name :: rest)
        by (intros k Hk; apply elem_of_cons; right; exact Hk).
      destruct (has_bounds co) eqn:Hb.
      * unfold bind at 1, ret at 1. intros Hrun.
        destruct (IH h c _ _ Hc Hrun) as (c' & new & -> & HR & Hn).
        exists c', new. split; [reflexivity|]. split; [|exact Hn].
        eapply only_bounds_mono; eassumption.
      * unfold bind at 1. unfold bind at 1, lift at 1.
        destruct (guess_bounds co) as [b|e].
        -- unfold put_cube at 1. intros Hrun.
           pose proof (put_then_get h cube c
                         (set_coord c name (mkCoord (points co) (Some b))) Hc) as Hc1.
           destruct (IH _ _ _ _ Hc1 Hrun) as (c' & new & -> & HR & Hn).
           exists c', new. rewrite list_insert_insert_eq.
           split; [reflexivity|]. split; [|exact Hn].
           eapply only_bounds_trans.
           ++ eapply only_bounds_mono;
                [|apply set_bounds_only_bounds; eassumption].
              intros k Hk. apply list_elem_of_singleton in Hk. subst k.
              apply elem_of_cons. left. reflexivity.
           ++ eapply only_bounds_mono; eassumption.
        -- intros [= <- <-]. exists c, [].
           rewrite app_nil_r, list_insert_id by exact Hc.
           split; [reflexivity|]. split; [apply only_bounds_refl | reflexivity].
    + intros [= <- <-]. exists c, [].
      rewrite app_nil_r, list_insert_id by exact Hc.
      split; [reflexivity|]. split; [apply only_bounds_refl | reflexivity].
Qed.

Lemma grid_areas_effect cube coord1 coord2 fx_files :
  effect false (only_bounds [coord1; coord2]) cube
    (grid_areas cube coord1 coord2 fx_files).
Proof.
  pose proof (only_bounds_refl [coord1; coord2]) as Hrefl.
  pose proof (only_bounds_trans [coord1; coord2]) as Htrans.
  unfold grid_areas.
  apply effect_bind; [exact Htrans | apply effect_get_cube, Hrefl | intros c].
  apply effect_bind; [exact Htrans | apply effect_lift, Hrefl | intros found].
  apply effect_bind; [exact Htrans | | intros _].
  { destruct (negb (fx_given fx_files)); [|apply effect_ret, Hrefl].
    apply effect_bind; [exact Htrans | apply effect_lift, Hrefl | intros latitude].
    destruct (points_ndim (points latitude) =? 2)%nat;
      [apply effect_raise | apply effect_ret]; exact Hrefl. }
  apply effect_bind; [exact Htrans | | intros g].
  { destruct found as [g|]; [apply effect_ret, Hrefl|].
    apply effect_bind; [exact Htrans | apply guess_bounds_effect | intros r].
    apply effect_bind; [exact Htrans | apply effect_get_cube, Hrefl | intros c'].
    apply effect_lift, Hrefl. }
  apply effect_bind; [exact Htrans | apply effect_get_cube, Hrefl | intros c'].
  destruct (negb (bool_decide (ma_shape (data c') = shape g)));
    [apply effect_raise | apply effect_ret]; exact Hrefl.
Qed.

Lemma cube_collapsed_effect cube r names operation weights :
  effect true eq cube (cube_collapsed r names operation weights).
Proof.
  unfold cube_collapsed.
  apply effect_bind; [intros; congruence | apply effect_get_cube; reflexivity | intros c].
  apply effect_bind; [intros; congruence | apply effect_lift; reflexivity | intros c'].
  apply effect_alloc; reflexivity.
Qed.

Lemma cube_intersection_effect cube r ranges :
  effect true eq cube (cube_intersection r ranges).
Proof.
  unfold cube_intersection.
  apply effect_bind; [intros; congruence | apply effect_get_cube; reflexivity | intros c].
  apply effect_bind; [intros; congruence | apply effect_lift; reflexivity | intros c'].
  apply effect_alloc; reflexivity.
Qed.

(** A cube that a method answers with is allocated at the end of the
    heap. *)
Lemma cube_collapsed_fresh r names operation weights (h h' : Heap) r' :
  cube_collapsed r names operation weights h = (Ok r', h') ->
  r' = length h /\ length h' = S (length h).
Proof.
  unfold cube_collapsed, bind, lift, alloc, get_cube.
  destruct (h !! r); [|discriminate].
  destruct (collapsed _ _ _ _); [|discriminate].
  intros [= <- <-]. rewrite length_app. cbn. split; lia.
Qed.

Lemma cube_intersection_fresh r ranges (h h' : Heap) r' :
  cube_intersection r ranges h = (Ok r', h') ->
  r' = length h /\ length h' = S (length h).
Proof.
  unfold cube_intersection, bind, lift, alloc, get_cube.
  destruct (h !! r); [|discriminate].
  destruct (intersection _ _); [|discriminate].
  intros [= <- <-]. rewrite length_app. cbn. split; lia.
Qed.

Lemma effect_length {A} allocs R cube (m : M A) (h : Heap) c res h' :
  effect allocs R cube m -> h !! cube = Some c -> m h = (res, h') ->
  length h <= length h'.
Proof.
  intros Hm Hc Hrun. destruct (Hm h c _ _ Hc Hrun) as (c' & new & -> & _).
  rewrite length_app, length_insert. lia.
Qed.

Lemma effect_eq_prefix {A} allocs cube (m : M A) (h : Heap) c res h' :
  effect allocs eq cube m -> h !! cube = Some c -> m h = (res, h') ->
  h `prefix_of` h'.
Proof.
  intros Hm Hc Hrun. destruct (Hm h c _ _ Hc Hrun) as (c' & new & -> & <- & _).
  rewrite list_insert_id by exact Hc. apply prefix_app_r. reflexivity.
Qed.

Lemma average_region_effect cube coord1 coord2 operator fx_files :
  effect true (only_bounds [coord1; coord2]) cube
    (average_region cube coord1 coord2 operator fx_files).
Proof.
  pose proof (only_bounds_refl [coord1; coord2]) as Hrefl.
  pose proof (only_bounds_trans [coord1; coord2]) as Htrans.
  unfold average_region.
  apply effect_bind; [exact Htrans | | intros g].
  { eapply effect_weaken; [|apply grid_areas_effect]. auto. }
  apply effect_bind; [exact Htrans | apply effect_lift, Hrefl | intros operation].
  destruct (str_in operator ["mean"]);
    (eapply effect_weaken; [|apply cube_collapsed_effect]);
    intros x y <-; apply Hrefl.
Qed.

Lemma average_region_fresh cube c coord1 coord2 operator fx_files (h h' : Heap) r :
  h !! cube = Some c ->
  average_region cube coord1 coord2 operator fx_files h = (Ok r, h') ->
  length h <= r < length h'.
Proof.
  intros Hc Hrun. unfold average_region in Hrun.
  apply bind_ok in Hrun as (g & h1 & Hg & Hrun).
  apply bind_ok in Hrun as (operation & h2 & Hop & Hrun).
  unfold lift in Hop. inversion Hop; subst.
  pose proof (effect_length _ _ _ _ _ _ _ _ (grid_areas_effect _ _ _ _) Hc Hg) as Hlen.
  destruct (str_in operator ["mean"]);
    apply cube_collapsed_fresh in Hrun as [-> Hl]; lia.
Qed.

Lemma zonal_means_effect cube coordinate mean_type :
  effect true eq cube (zonal_means cube coordinate mean_type).
Proof.
  unfold zonal_means.
  apply effect_bind; [intros; congruence | apply effect_lift; reflexivity | intros op].
  apply cube_collapsed_effect.
Qed.

Lemma zonal_means_fresh cube coordinate mean_type (h h' : Heap) r :
  zonal_means cube coordinate mean_type h = (Ok r, h') ->
  length h <= r < length h'.
Proof.
  intros Hrun. unfold zonal_means in Hrun.
  apply bind_ok in Hrun as (op & h1 & Hop & Hrun).
  unfold lift in Hop. inversion Hop; subst.
  apply cube_collapsed_fresh in Hrun as [-> Hl]. lia.
Qed.

Lemma extract_named_regions_effect cube regions :
  effect true eq cube (extract_named_regions cube regions).
Proof.
  assert (Htrans : forall x y z : Cube, x = y -> y = z -> x = z) by (intros; congruence).
  assert (Hrefl : forall c : Cube, c = c) by reflexivity.
  assert (Hmain : forall regions',
             effect true eq cube
               (let! c := get_cube cube in
                let! region := lift (coord c "region") in
                let! available := lift (set_of_points (points region)) in
                if bool_decide (regions_set regions' ∖ fst available ≠ ∅) then
                  raise (mkExn ValueError
                           [Formatted region_missing
                              [PStrSet (regions_set regions' ∖ fst available);
                               snd available]])
                else
                  let! res := lift (extract c "region" (region_in regions')) in
                  match res with
                  | Some c' => let! r := alloc c' in ret (Some r)
                  | None => ret None
                  end)).
  { intros regions'.
    apply effect_bind; [exact Htrans | apply effect_get_cube, Hrefl | intros c].
    apply effect_bind; [exact Htrans | apply effect_lift, Hrefl | intros region].
    apply effect_bind; [exact Htrans | apply effect_lift, Hrefl | intros available].
    destruct (bool_decide _); [apply effect_raise, Hrefl|].
    apply effect_bind; [exact Htrans | apply effect_lift, Hrefl | intros [c'|]].
    - apply effect_bind; [exact Htrans | apply effect_alloc, Hrefl | intros r].
      apply effect_ret, Hrefl.
    - apply effect_ret, Hrefl. }
  unfold extract_named_regions.
  destruct regions; try apply Hmain. apply effect_raise, Hrefl.
Qed.

Lemma extract_named_regions_fresh cube regions (h h' : Heap) r :
  extract_named_regions cube regions h = (Ok (Some r), h') ->
  length h <= r < length h'.
Proof.
  assert (Hmain : forall regions' c,
             (let! res := lift (extract c "region" (region_in regions')) in
              match res with
              | Some c' => let! r := alloc c' in ret (Some r)
              | None => ret None
              end) h = (Ok (Some r), h') -> length h <= r < length h').
  { intros regions' c Hrun.
    apply bind_ok in Hrun as ([c'|] & h1 & Hex & Hrun);
      unfold lift in Hex; inversion Hex; subst.
    - unfold bind, alloc, ret in Hrun. inversion Hrun; subst.
      rewrite length_app. cbn. lia.
    - unfold ret in Hrun. discriminate. }
  unfold extract_named_regions.
  destruct regions; try discriminate; intros Hrun;
    apply bind_ok in Hrun as (c & h1 & Hget & Hrun);
    apply bind_ok in Hrun as (region & h2 & Hco & Hrun);
    apply bind_ok in Hrun as (available & h3 & Hav & Hrun);
    (destruct (bool_decide _) in Hrun; [discriminate|]);
    unfold get_cube in Hget; destruct (h !! cube); inversion Hget; subst;
    unfold lift in Hco, Hav; inversion Hco; inversion Hav; subst;
    eapply Hmain; eauto.
Qed.

Lemma extract_region_regular_effect
    (h : Heap) cube c latitude res h'
    start_longitude end_longitude start_latitude end_latitude :
  h !! cube = Some c ->
  coords c !! "latitude" = Some latitude ->
  points_ndim (points latitude) = 1%nat ->
  extract_region cube start_longitude end_longitude start_latitude end_latitude h =
    (res, h') ->
  h `prefix_of` h' /\ forall r, res = Ok r -> length h <= r < length h'.
Proof.
  intros Hc Hlat Hnd. unfold extract_region. unfold bind at 1.
  rewrite (get_cube_lookup _ _ _ Hc).
  unfold bind at 1, lift at 1, coord. rewrite Hlat, Hnd. cbn [Nat.eqb].
  intros Hrun. split.
  - revert Hrun. eapply effect_eq_prefix; [|exact Hc].
    apply effect_bind; [intros; congruence | apply cube_intersection_effect | intros r1].
    apply effect_bind; [intros; congruence | apply cube_intersection_effect | intros r2].
    apply effect_ret; reflexivity.
  - intros r ->.
    apply bind_ok in Hrun as (r1 & h1 & H1 & Hrun).
    apply bind_ok in Hrun as (r2 & h2 & H2 & Hrun).
    unfold ret in Hrun. inversion Hrun; subst.
    apply cube_intersection_fresh in H1 as [-> Hl1].
    apply cube_intersection_fresh in H2 as [-> Hl2]. lia.
Qed.

Lemma extract_region_irregular_effect
    (h : Heap) cube c latitude res h'
    start_longitude end_longitude start_latitude end_latitude :
  h !! cube = Some c ->
  coords c !! "latitude" = Some latitude ->
  points_ndim (points latitude) <> 1%nat ->
  extract_region cube start_longitude end_longitude start_latitude end_latitude h =
    (res, h') ->
  exists c', h' = <[cube := c']> h /\ only_mask c c' /\
             forall r, res = Ok r -> r = cube.
Proof.
  intros Hc Hlat Hnd. unfold extract_region. unfold bind at 1.
  rewrite (get_cube_lookup _ _ _ Hc).
  unfold bind at 1, lift at 1, coord. rewrite Hlat.
  destruct (points_ndim (points latitude) =? 1)%nat eqn:E;
    [apply Nat.eqb_eq in E; contradiction|].
  intros Hrun.
  match type of Hrun with ?m h = _ => assert (Heff : effect false only_mask cube m) end.
  { pose proof only_mask_refl as Hrefl. pose proof only_mask_trans as Htrans.
    apply effect_bind; [exact Htrans | apply effect_lift, Hrefl | intros longitude].
    generalize (data_mask c). intros mask.
    do 4 (apply effect_bind; [exact Htrans | apply effect_lift, Hrefl | intros ?];
          apply effect_bind; [exact Htrans | apply mask_iadd_effect | clear mask;
                                                                     intros mask]).
    clear. intros h c res h' Hc. unfold bind, lift, put_cube, ret.
    rewrite (get_cube_lookup _ _ _ Hc).
    destruct (masked_where (mask_value mask c) (data c)) as [d|e] eqn:Hd;
      intros [= <- <-].
    - apply masked_where_only in Hd as [Hs Hv].
      eexists _, []. rewrite app_nil_r. repeat split; assumption.
    - exists c, []. rewrite app_nil_r, list_insert_id by exact Hc. repeat split. }
  destruct (Heff h c _ _ Hc Hrun) as (c' & new & -> & HR & Hn).
  cbn in Hn. subst new. rewrite app_nil_r in *.
  exists c'. split; [reflexivity|]. split; [exact HR|].
  intros r ->.
  apply bind_ok in Hrun as (longitude & h1 & _ & Hrun).
  do 8 apply bind_ok in Hrun as (? & ? & _ & Hrun).
  apply bind_ok in Hrun as (c4 & h6 & _ & Hrun).
  apply bind_ok in Hrun as (d & h7 & _ & Hrun).
  apply bind_ok in Hrun as (? & h8 & _ & Hrun).
  unfold ret in Hrun. inversion Hrun. reflexivity.
Qed.

End Effects.

(** C3, as amended.  [extract_region] on a regular grid, [zonal_means]
    and [extract_named_regions] leave every cube of the heap as it was
    and return a cube that is new.  [average_region] returns a new cube
    and leaves the data, the mask, the dimensions and the coordinate
    points of its input as they were; the only change it makes to it is
    that a coordinate named by [coord1] or [coord2] that had no bounds
    may have been given bounds.  [extract_region] on an irregular grid
    returns the cube it was given, and changes nothing of it but the
    mask of its data. *)
Theorem effects_on_the_input {iris : IrisLibrary} (h : Heap) cube c :
  h !! cube = Some c ->
  (forall latitude res h'
          start_longitude end_longitude start_latitude end_latitude,
     coords c !! "latitude" = Some latitude ->
     points_ndim (points latitude) = 1%nat ->
     extract_region cube start_longitude end_longitude start_latitude end_latitude h =
       (res, h') ->
     h `prefix_of` h' /\ forall r, res = Ok r -> length h <= r < length h') /\
  (forall coordinate mean_type res h',
     zonal_means cube coordinate mean_type h = (res, h') ->
     h `prefix_of` h' /\ forall r, res = Ok r -> length h <= r < length h') /\
  (forall regions res h',
     extract_named_regions cube regions h = (res, h') ->
     h `prefix_of` h' /\ forall r, res = Ok (Some r) -> length h <= r < length h') /\
  (forall coord1 coord2 operator fx_files res h',
     average_region cube coord1 coord2 operator fx_files h = (res, h') ->
     (exists c' new,
        h' = <[cube := c']> h ++ new /\
        only_bounds [coord1; coord2] c c') /\
     forall r, res = Ok r -> length h <= r < length h') /\
  (forall latitude res h'
          start_longitude end_longitude start_latitude end_latitude,
     coords c !! "latitude" = Some latitude ->
     points_ndim (points latitude) <> 1%nat ->
     extract_region cube start_longitude end_longitude start_latitude end_latitude h =
       (res, h') ->
     exists c',
       h' = <[cube := c']> h /\ only_mask c c' /\
       forall r, res = Ok r -> r = cube).
Proof.
  intros Hc. split; [|split; [|split; [|split]]].
  - intros latitude res h' slon elon slat elat Hlat Hnd Hrun.
    eapply extract_region_regular_effect; eassumption.
  - intros coordinate mean_type res h' Hrun. split.
    + eapply effect_eq_prefix; [apply zonal_means_effect | exact Hc | exact Hrun].
    + intros r ->. eapply zonal_means_fresh, Hrun.
  - intros regions res h' Hrun. split.
    + eapply effect_eq_prefix;
        [apply extract_named_regions_effect | exact Hc | exact Hrun].
    + intros r ->. eapply extract_named_regions_fresh, Hrun.
  - intros coord1 coord2 operator fx_files res h' Hrun. split.
    + destruct (average_region_effect _ _ _ _ _ _ _ _ _ Hc Hrun)
        as (c' & new & -> & HR & _).
      exists c', new. split; [reflexivity | exact HR].
    + intros r ->. eapply average_region_fresh; eassumption.
  - intros latitude res h' slon elon slat elat Hlat Hnd Hrun.
    eapply extract_region_irregular_effect; eassumption.
Qed.

Lemma effects_on_the_input_witness :
  let h := [Samples.regular] in
  let c := Samples.regular in
  (forall latitude res h'
          start_longitude end_longitude start_latitude end_latitude,
     coords c !! "latitude" = Some latitude ->
     points_ndim (points latitude) = 1%nat ->
     extract_region (iris := Samples.lib) 0
       start_longitude end_longitude start_latitude end_latitude h = (res, h') ->
     h `prefix_of` h' /\ forall r, res = Ok r -> length h <= r < length h') /\
  (forall coordinate mean_type res h',
     zonal_means (iris := Samples.lib) 0 coordinate mean_type h = (res, h') ->
     h `prefix_of` h' /\ forall r, res = Ok r -> length h <= r < length h') /\
  (forall regions res h',
     extract_named_regions (iris := Samples.lib) 0 regions h = (res, h') ->
     h `prefix_of` h' /\ forall r, res = Ok (Some r) -> length h <= r < length h') /\
  (forall coord1 coord2 operator fx_files res h',
     average_region (iris := Samples.lib) 0 coord1 coord2 operator fx_files h =
       (res, h') ->
     (exists c' new,
        h' = <[0%nat := c']> h ++ new /\
        only_bounds [coord1; coord2] c c') /\
     forall r, res = Ok r -> length h <= r < length h') /\
  (forall latitude res h'
          start_longitude end_longitude start_latitude end_latitude,
     coords c !! "latitude" = Some latitude ->
     points_ndim (points latitude) <> 1%nat ->
     extract_region (iris := Samples.lib) 0
       start_longitude end_longitude start_latitude end_latitude h = (res, h') ->
     exists c',
       h' = <[0%nat := c']> h /\ only_mask c c' /\
       forall r, res = Ok r -> r = 0%nat).
Proof.
  exact (effects_on_the_input (iris := Samples.lib)
           [Samples.regular] 0 Samples.regular eq_refl).
Defined.

(** C3, as stated, fails.  On the curvilinear sample [extract_region]
    returns the cube it was given, with three more cells masked; on the
    regular sample, whose coordinates have no bounds, [average_region]
    without files leaves the input with bounds on its latitude. *)
Lemma input_is_changed_in_place :
  (exists c',
     extract_region (iris := Samples.lib) 0 0 100 (-5) 50 [Samples.curvilinear] =
       (Ok 0%nat, [c']) /\
     ma_mask (data Samples.curvilinear) = MaskArray [false; false; false; true] /\
     ma_mask (data c') = MaskArray [true; true; true; true]) /\
  (exists r c' new,
     average_region (iris := Samples.lib) 0 "latitude" "longitude" "mean" None
       [Samples.regular] = (Ok r, c' :: new) /\
     has_bounds <$> coords Samples.regular !! "latitude" = Some false /\
     has_bounds <$> coords c' !! "latitude" = Some true).
Proof.
  split.
  - eexists. split; [vm_compute; reflexivity|]. split; reflexivity.
  - eexists _, _, _. split; [vm_compute; reflexivity|].
    split; vm_compute; reflexivity.
Qed.


(** ** The weighting policy of [average_region] *)

Section Weighting.

Context {iris : IrisLibrary}.

Lemma average_region_collapse cube coord1 coord2 operator operation fx_files :
  get_iris_analysis_operation operator = Ok operation ->
  forall h,
    average_region cube coord1 coord2 operator fx_files h =
      (let! g := grid_areas cube coord1 coord2 fx_files in
       cube_collapsed cube [coord1; coord2] operation
         (if String.eqb operator "mean" then Some g else None)) h.
Proof.
  intros Hop h. unfold average_region, bind.
  destruct (grid_areas cube coord1 coord2 fx_files h) as [[g|e] h1]; [|reflexivity].
  rewrite Hop. unfold lift at 1. unfold str_in. cbn [existsb].
  rewrite orb_false_r. destruct (String.eqb operator "mean"); reflexivity.
Qed.

(** Once the grid areas are there, [average_region] asks the library
    for the collapse of the cube as the grid areas left it, which is the
    input but for bounds of the two coordinates; the grid areas, which
    have the shape of the data, are the weights exactly when the
    operator is the string ['mean']; the answer is a new cube, added at
    the end of the heap. *)
Lemma average_region_call
    (h h1 : Heap) cube c coord1 coord2 operator operation fx_files g :
  h !! cube = Some c ->
  get_iris_analysis_operation operator = Ok operation ->
  grid_areas cube coord1 coord2 fx_files h = (Ok g, h1) ->
  exists c1,
    h1 = <[cube := c1]> h /\
    only_bounds [coord1; coord2] c c1 /\
    shape g = ma_shape (data c) /\
    average_region cube coord1 coord2 operator fx_files h =
      match collapsed c1 [coord1; coord2] operation
              (if String.eqb operator "mean" then Some g else None) with
      | Ok res => (Ok (length h), h1 ++ [res])
      | Raise e => (Raise e, h1)
      end.
Proof.
  intros Hc Hop Hg.
  destruct (grid_areas_effect cube coord1 coord2 fx_files h c _ _ Hc Hg)
    as (c1 & new & Hh1 & HR & Hnew).
  cbn in Hnew. subst new. rewrite app_nil_r in Hh1.
  assert (Hc1 : h1 !! cube = Some c1) by (subst h1; eapply put_then_get, Hc).
  destruct (grid_areas_shape _ _ _ _ _ _ _ Hg) as (c1' & Hc1' & Hshape).
  rewrite Hc1 in Hc1'. injection Hc1' as <-.
  exists c1. split; [exact Hh1|]. split; [exact HR|].
  split; [destruct HR as (Hd & _); rewrite <- Hd; symmetry; exact Hshape|].
  rewrite (average_region_collapse _ _ _ _ _ _ Hop).
  rewrite (bind_run _ _ _ _ _ Hg).
  unfold cube_collapsed. rewrite (bind_run _ _ _ _ _ (get_cube_lookup _ _ _ Hc1)).
  unfold bind, lift, alloc.
  destruct (collapsed c1 _ _ _); [|reflexivity].
  subst h1. rewrite length_insert. reflexivity.
Qed.

(** C10.  A spelling of the mean operator that is not in lower case is
    resolved to the mean, and the collapse is called without the grid
    areas: the branch compares the name as the caller wrote it with
    ['mean']. *)
Theorem average_region_mean_spelling cube coord1 coord2 operator fx_files :
  lower operator = "mean" ->
  operator <> "mean" ->
  get_iris_analysis_operation operator = Ok MEAN /\
  forall h,
    average_region cube coord1 coord2 operator fx_files h =
      (do! grid_areas cube coord1 coord2 fx_files in
       cube_collapsed cube [coord1; coord2] MEAN None) h.
Proof.
  intros Hlow Hne.
  assert (Hop : get_iris_analysis_operation operator = Ok MEAN).
  { rewrite resolver_cases. cbv zeta. rewrite Hlow. reflexivity. }
  split; [exact Hop|].
  intros h. rewrite (average_region_collapse _ _ _ _ _ _ Hop).
  apply String.eqb_neq in Hne. rewrite Hne. reflexivity.
Qed.

End Weighting.

(** The statistics without weights look at the values alone. *)
Lemma unweighted_values (operation : Operation) (g1 g2 : list Reference.WCell) :
  map Reference.wc_value (Reference.live g1) =
    map Reference.wc_value (Reference.live g2) ->
  Reference.unweighted operation g1 = Reference.unweighted operation g2.
Proof. unfold Reference.unweighted. intros ->. reflexivity. Qed.

(** C1.  On the library written after the specification, for an
    operator name that the resolver accepts, once the grid areas are
    there and the two coordinates are axes of the cube,
    [average_region] returns a new cube that holds one value for each
    group of cells collapsed.  When the name is ['mean'] the value is
    the weighted mean of the group with the grid areas as weights: the
    sum of weight times value over the cells that are not masked,
    divided by the sum of their weights.  For every other accepted name
    it is the statistic of the group without weights, which looks at the
    values of the cells that are not masked and at nothing else. *)
Theorem average_region_weights_only_for_mean
    (files : gmap string Cube) (h h1 : Heap) cube c coord1 coord2
    operator operation fx_files g axes :
  h !! cube = Some c ->
  get_iris_analysis_operation operator = Ok operation ->
  grid_areas (iris := Reference.library files) cube coord1 coord2 fx_files h =
    (Ok g, h1) ->
  Reference.axes_of [coord1; coord2] (dims c) = Ok axes ->
  let reduced :=
    if String.eqb operator "mean" then
      map Reference.weighted_mean (Reference.collapse_groups (data c) axes (Some g))
    else
      map (Reference.unweighted operation)
        (Reference.collapse_groups (data c) axes None) in
  (exists res,
     average_region (iris := Reference.library files) cube coord1 coord2 operator
       fx_files h = (Ok (length h), h1 ++ [res]) /\
     ma_values (data res) = map fst reduced /\
     getmaskarray (data res) = map snd reduced) /\
  shape g = ma_shape (data c) /\
  (operator = "mean" -> operation = MEAN) /\
  (forall group,
     Reference.weighted_mean group =
       let cells := filter (fun x => Reference.wc_masked x = false) group in
       let weight := Reference.Qsum (map Reference.wc_weight cells) in
       if Qeq_bool weight 0 then (0%Q, true)
       else (Qred (Reference.Qsum
                     (map (fun x => Reference.wc_weight x * Reference.wc_value x)%Q
                        cells) / weight), false)) /\
  (forall g1 g2,
     map Reference.wc_value (Reference.live g1) =
       map Reference.wc_value (Reference.live g2) ->
     Reference.unweighted operation g1 = Reference.unweighted operation g2).
Proof.
  intros Hc Hop Hg Haxes reduced.
  destruct (average_region_call (iris := Reference.library files)
              h h1 cube c coord1 coord2 operator operation fx_files g Hc Hop Hg)
    as (c1 & Hh1 & (Hdata & Hdims & _) & Hshape & Hrun).
  assert (Hmean : operator = "mean" -> operation = MEAN).
  { intros ->. cbv in Hop. congruence. }
  split; [|split; [exact Hshape|split; [exact Hmean|split]]].
  - rewrite Hrun. cbn [collapsed Reference.library].
    unfold Reference.ref_collapsed. rewrite Hdims, Haxes, Hdata.
    subst reduced.
    destruct (String.eqb operator "mean") eqn:E.
    + apply String.eqb_eq in E. rewrite (Hmean E).
      eexists. split; [reflexivity|]. split; reflexivity.
    + destruct operation; eexists; (split; [reflexivity|]); split; reflexivity.
  - reflexivity.
  - apply unweighted_values.
Qed.

(** On the sample with a masked cell and its areas. *)
Lemma average_region_weights_only_for_mean_witness :
  let c := Samples.holed in
  let h := [Samples.holed] in
  let g := mkArr [2; 2]%nat [1; 3; 2; 5]%Q in
  let fx := Some [("areacello", Some "holed.nc")] in
  let reduced :=
    if String.eqb "mean" "mean" then
      map Reference.weighted_mean
        (Reference.collapse_groups (data c) [0; 1]%nat (Some g))
    else
      map (Reference.unweighted MEAN)
        (Reference.collapse_groups (data c) [0; 1]%nat None) in
  (exists res,
     average_region (iris := Reference.library Samples.files) 0
       "latitude" "longitude" "mean" fx h = (Ok (length h), h ++ [res]) /\
     ma_values (data res) = map fst reduced /\
     getmaskarray (data res) = map snd reduced) /\
  shape g = ma_shape (data c) /\
  ("mean" = "mean" -> MEAN = MEAN) /\
  (forall group,
     Reference.weighted_mean group =
       let cells := filter (fun x => Reference.wc_masked x = false) group in
       let weight := Reference.Qsum (map Reference.wc_weight cells) in
       if Qeq_bool weight 0 then (0%Q, true)
       else (Qred (Reference.Qsum
                     (map (fun x => Reference.wc_weight x * Reference.wc_value x)%Q
                        cells) / weight), false)) /\
  (forall g1 g2,
     map Reference.wc_value (Reference.live g1) =
       map Reference.wc_value (Reference.live g2) ->
     Reference.unweighted MEAN g1 = Reference.unweighted MEAN g2).
Proof.
  apply (average_region_weights_only_for_mean Samples.files
           [Samples.holed] [Samples.holed] 0 Samples.holed
           "latitude" "longitude" "mean" MEAN
           (Some [("areacello", Some "holed.nc")])
           (mkArr [2; 2]%nat [1; 3; 2; 5]%Q) [0; 1]%nat); evaluate.
Defined.

Lemma average_region_mean_spelling_witness :
  get_iris_analysis_operation "MEAN" = Ok MEAN /\
  forall h,
    average_region (iris := Samples.lib) 0 "latitude" "longitude" "MEAN" None h =
      (do! grid_areas (iris := Samples.lib) 0 "latitude" "longitude" None in
       cube_collapsed (iris := Samples.lib) 0 ["latitude"; "longitude"] MEAN None) h.
Proof.
  apply (average_region_mean_spelling (iris := Samples.lib)
           0 "latitude" "longitude" "MEAN" None).
  - reflexivity.
  - discriminate.
Defined.

(** On the sample with a masked cell, of values 0, 4, 2 and (masked) 8
    and of areas 1, 3, 2 and 5: the mean is (0 + 12 + 4) / 6 when the
    name is ['mean'], and (0 + 4 + 2) / 3 when it is ['MEAN']; the median
    is that of 0, 4 and 2. *)
Example mean_is_weighted_only_in_lower_case :
  let fx := Some [("areacello", Some "holed.nc")] in
  let value operator :=
    match average_region (iris := Samples.lib) 0 "latitude" "longitude" operator fx
            [Samples.holed] with
    | (Ok r, h) => ma_values <$> (data <$> h !! r)
    | (Raise _, _) => None
    end in
  value "mean" = Some [(8 # 3)%Q] /\ value "MEAN" = Some [2%Q] /\
  value "median" = Some [2%Q].
Proof. vm_compute. repeat split; reflexivity. Qed.

(** ** [extract_region] on a regular grid *)

Section Wrapping.

Import Reference.

Local Open Scope Q_scope.

Lemma Qmod_range x : 0 <= Qmod x 360 < 360.
Proof.
  unfold Qmod.
  pose proof (Qfloor_le (x / 360)) as Hle.
  pose proof (Qlt_floor (x / 360)) as Hlt.
  rewrite inject_Z_plus in Hlt.
  set (f := inject_Z (Qfloor (x / 360))) in *.
  assert (Hx : x == 360 * (x / 360)) by field.
  change (inject_Z 1) with 1 in Hlt.
  split; lra.
Qed.

Lemma wrap_lons_range lon base :
  base <= wrap_lons lon base 360 < base + 360.
Proof.
  unfold wrap_lons. rewrite Qred_correct.
  pose proof (Qmod_range (lon - base + 360 * 2)). lra.
Qed.

(** The window on the longitudes reports them within one turn from its
    lower end. *)
Lemma intersect_one_longitudes c minimum maximum c' :
  intersect_one c "longitude" minimum maximum = Ok c' ->
  exists a,
    coords c' !! "longitude" ≫= (fun co => Some (points co)) = Some (NumPoints a) /\
    Forall (fun p => minimum <= p < minimum + 360) (elems a).
Proof.
  unfold intersect_one.
  destruct (coord c "longitude") as [co0|]; [|discriminate].
  destruct (points co0) as [a0|]; [|discriminate].
  destruct (negb (ndim a0 =? 1)%nat); [discriminate|].
  destruct (positions _ _); [discriminate|].
  intros [= <-]. eexists. split.
  - cbn [coords]. rewrite lookup_insert_eq. reflexivity.
  - cbn [elems]. apply Forall_forall. intros p Hp.
    apply list_elem_of_filter in Hp as [_ Hp].
    apply list_elem_of_fmap in Hp as (lon & -> & _).
    unfold seen. cbn [String.eqb Ascii.eqb Bool.eqb andb].
    apply wrap_lons_range.
Qed.

End Wrapping.

(** C7.  On the library written after the specification, the cube that
    [extract_region] returns on a regular grid, for any box, carries a
    longitude coordinate all of whose points are in [[0, 360)]: it is
    the answer of the window from 0 to 360 on the answer of the window
    of the box, and a window reports the longitudes within one turn from
    its lower end. *)
Theorem extract_region_regular_longitudes
    (files : gmap string Cube) (h h' : Heap) cube c latitude r
    start_longitude end_longitude start_latitude end_latitude :
  h !! cube = Some c ->
  coords c !! "latitude" = Some latitude ->
  points_ndim (points latitude) = 1%nat ->
  extract_region (iris := Reference.library files) cube
    start_longitude end_longitude start_latitude end_latitude h = (Ok r, h') ->
  exists c' longitude lons,
    h' !! r = Some c' /\
    coords c' !! "longitude" = Some longitude /\
    points longitude = NumPoints lons /\
    Forall (fun p => (0 <= p < 360)%Q) (elems lons).
Proof.
  intros Hc Hlat Hnd. unfold extract_region. unfold bind at 1.
  rewrite (get_cube_lookup _ _ _ Hc).
  unfold bind at 1, lift at 1, coord. rewrite Hlat, Hnd. cbn [Nat.eqb].
  intros Hrun.
  apply bind_ok in Hrun as (r1 & h1 & _ & Hrun).
  apply bind_ok in Hrun as (r2 & h2 & H2 & Hrun).
  unfold ret in Hrun. inversion Hrun; subst r2 h2. clear Hrun.
  unfold cube_intersection in H2.
  apply bind_ok in H2 as (c1 & h3 & _ & H2).
  apply bind_ok in H2 as (c2 & h4 & Hint & H2).
  unfold lift in Hint. inversion Hint as [[Hi Hh]]. subst h4.
  unfold alloc in H2. inversion H2; subst r h'.
  cbn [intersection Reference.library Reference.ref_intersection] in Hi.
  destruct (Reference.intersect_one c1 "longitude" 0 360) as [c'|] eqn:Hone;
    [|discriminate].
  injection Hi as ->.
  destruct (intersect_one_longitudes _ _ _ _ Hone) as (lons & Hco & Hrange).
  destruct (coords c2 !! "longitude") as [longitude|] eqn:Hlon; [|discriminate].
  cbn in Hco. injection Hco as Hpts.
  exists c2, longitude, lons.
  split; [apply list_lookup_middle; reflexivity|].
  split; [exact Hlon|]. split; [exact Hpts|].
  eapply Forall_impl; [exact Hrange|]. cbn. intros p Hp. lra.
Qed.

Lemma extract_region_regular_longitudes_witness :
  exists c' longitude lons,
    snd (extract_region (iris := Reference.library Samples.files) 0
           (-10) 10 (-20) 20 [Samples.regular]) !! 2%nat = Some c' /\
    coords c' !! "longitude" = Some longitude /\
    points longitude = NumPoints lons /\
    Forall (fun p => (0 <= p < 360)%Q) (elems lons).
Proof.
  refine (extract_region_regular_longitudes Samples.files
            [Samples.regular] _ 0 Samples.regular
            (Samples.axis [-30; -10; 10; 30]%Q) 2 (-10) 10 (-20) 20 _ _ _ _);
    evaluate.
Defined.

(** The box from -10 to 10 on the sample, whose longitudes are -5 and 5:
    the longitudes of the answer are 355 and 5. *)
Example negative_longitudes_are_wrapped :
  match extract_region (iris := Samples.lib) 0 (-10) 10 (-20) 20 [Samples.regular] with
  | (Ok r, h) => points <$> (h !! r ≫= fun c => coords c !! "longitude")
  | (Raise _, _) => None
  end = Some (NumPoints (mkArr [2]%nat [355; 5]%Q)).
Proof. vm_compute. reflexivity. Qed.

(** ** [extract_named_regions] *)

Lemma str_in_elem_of (s : string) (l : list string) : str_in s l = true <-> s ∈ l.
Proof.
  unfold str_in. rewrite existsb_exists. split.
  - intros (x & Hx & Heq). apply String.eqb_eq in Heq. subst x.
    apply list_elem_of_In, Hx.
  - intros Hs. exists s. split; [apply list_elem_of_In, Hs | apply String.eqb_refl].
Qed.

Lemma regions_set_string s : regions_set (RegStr s) = regions_set (RegList [s]).
Proof. cbn. rewrite union_empty_r_L. reflexivity. Qed.

Lemma invalid_regions_iff (requested : gset string) (labels : list string) :
  requested ∖ list_to_set labels ≠ ∅ <->
  exists l, l ∈ requested /\ l ∉ labels.
Proof.
  split.
  - intros Hne.
    destruct (set_choose_L _ Hne) as [l Hl].
    apply elem_of_difference in Hl as [Hin Hnot].
    exists l. split; [exact Hin|]. intros Hl. apply Hnot.
    apply elem_of_list_to_set, Hl.
  - intros (l & Hin & Hnot) Hempty.
    apply (not_elem_of_empty (C := gset string) l). rewrite <- Hempty.
    apply elem_of_difference. split; [exact Hin|].
    intros Hl. apply Hnot. apply elem_of_list_to_set in Hl. exact Hl.
Qed.

(** When every requested label is on the coordinate and one is
    requested, some label of the coordinate is selected. *)
Lemma requested_labels_match (requested : gset string) (labels : list string) :
  requested ∖ list_to_set labels = ∅ ->
  requested ≠ ∅ ->
  filter (fun l => l ∈ requested) labels ≠ [].
Proof.
  intros Hvalid Hne Hnil.
  destruct (set_choose_L _ Hne) as [l Hl].
  assert (Hin : l ∈ labels).
  { destruct (decide (l ∈ labels)) as [Hin|Hnot]; [exact Hin|].
    exfalso. apply (not_elem_of_empty (C := gset string) l). rewrite <- Hvalid.
    apply elem_of_difference. split; [exact Hl|].
    intros Hl'. apply Hnot. apply elem_of_list_to_set in Hl'. exact Hl'. }
  exact (filter_nil_not_elem_of (fun l => l ∈ requested) labels l Hnil Hl Hin).
Qed.

Section NamedRegions.

Context {iris : IrisLibrary}.

(** The part of [extract_named_regions] that follows the check of the
    type of [regions]. *)
Lemma extract_named_regions_run (h : Heap) cube c region a regions :
  h !! cube = Some c ->
  coords c !! "region" = Some region ->
  points region = StrPoints a ->
  ndim a = 1%nat ->
  (forall repr, regions <> RegOther repr) ->
  let available : gset string := list_to_set (elems a) in
  let invalid := regions_set regions ∖ available in
  extract_named_regions cube regions h =
    if bool_decide (invalid ≠ ∅) then
      (Raise (mkExn ValueError
                [Formatted region_missing [PStrSet invalid; PStrSet available]]), h)
    else
      match extract c "region" (region_in (as_collection regions)) with
      | Ok (Some c') => (Ok (Some (length h)), h ++ [c'])
      | Ok None => (Ok None, h)
      | Raise e => (Raise e, h)
      end.
Proof.
  intros Hc Hreg Hpts Hnd Hkind available invalid.
  assert (Hset : set_of_points (points region) =
                 Ok (available, PStrSet available)).
  { unfold set_of_points. rewrite Hpts. cbn [points_ndim]. rewrite Hnd. reflexivity. }
  unfold extract_named_regions, as_collection.
  destruct regions as [s|l|l|s|repr]; [| | | |exfalso; eapply Hkind; reflexivity];
    unfold bind at 1; rewrite (get_cube_lookup _ _ _ Hc);
    unfold bind at 1, lift at 1, coord; rewrite Hreg;
    unfold bind at 1, lift at 1; rewrite Hset; cbn [fst snd];
    subst invalid; rewrite <- ?regions_set_string;
    (destruct (bool_decide _); [reflexivity|]);
    unfold bind, lift, alloc, ret;
    (destruct (extract _ _ _) as [[c'|]|e]; reflexivity).
Qed.

End NamedRegions.

(** *** On the library written after the specification *)

Lemma positions_shift {A B} (f : B -> bool) (k : A -> B) (j : nat -> nat) (l : list A) :
  map fst (filter (fun p => f (snd p) = true) (imap (fun i x => (j i, x)) (map k l))) =
  map fst (filter (fun p => f (k (snd p)) = true) (imap (fun i x => (j i, x)) l)).
Proof.
  revert j. induction l as [|x l IH]; intros j; [reflexivity|].
  cbn [map imap]. rewrite !filter_cons. cbn [snd].
  specialize (IH (j ∘ S)). unfold compose in *.
  destruct (decide (f (k x) = true)); cbn [map fst]; rewrite IH; reflexivity.
Qed.

Lemma positions_map {A B} (f : B -> bool) (k : A -> B) (l : list A) :
  Reference.positions f (map k l) = Reference.positions (fun x => f (k x)) l.
Proof. apply (positions_shift f k (fun i => i) l). Qed.

Lemma positions_ext {A} (f g : A -> bool) (l : list A) :
  (forall x, f x = g x) -> Reference.positions f l = Reference.positions g l.
Proof.
  intros Hfg. unfold Reference.positions. f_equal.
  apply list_filter_iff. intros [i x]. cbn. rewrite Hfg. reflexivity.
Qed.

Lemma positions_nil_filter {A} (f : A -> bool) (l : list A) :
  Reference.positions f l = [] <-> filter (fun x => f x = true) l = [].
Proof.
  unfold Reference.positions.
  assert (H : forall (j : nat -> nat),
             map fst (filter (fun p => f (snd p) = true) (imap (fun i x => (j i, x)) l))
               = [] <-> filter (fun x => f x = true) l = []).
  { induction l as [|x l IH]; intros j; [split; reflexivity|].
    cbn [imap]. rewrite !filter_cons. cbn [snd].
    destruct (decide (f x = true)); [split; discriminate|].
    apply (IH (j ∘ S)). }
  apply (H (fun i => i)).
Qed.

(** On the library written after the specification a cell is in the
    request when its label is in the set of the request. *)
Lemma region_in_requested files regions (l : string) :
  (forall repr, regions <> RegOther repr) ->
  region_in (iris := Reference.library files) (as_collection regions) (CellStr l) =
    bool_decide (l ∈ regions_set regions).
Proof.
  intros Hkind.
  assert (Hlist : forall labels : list string,
             str_in l labels = bool_decide (l ∈ (list_to_set labels : gset string))).
  { intros labels. destruct (str_in l labels) eqn:E.
    - symmetry. apply bool_decide_eq_true, elem_of_list_to_set, str_in_elem_of, E.
    - symmetry. apply bool_decide_eq_false. intros Hl.
      apply elem_of_list_to_set, str_in_elem_of in Hl. congruence. }
  destruct regions as [s|labels|labels|s|repr]; cbn [as_collection region_in].
  - rewrite regions_set_string. apply Hlist.
  - apply Hlist.
  - apply Hlist.
  - reflexivity.
  - exfalso. eapply Hkind. reflexivity.
Qed.

(** C8.  On a cube whose region coordinate holds labels along one axis,
    for regions given as a string, a list, a tuple or a set: a
    [ValueError] that carries the requested labels that are absent and
    the set of the labels of the coordinate is raised exactly when a
    requested label is absent, and the heap is as it was.  Otherwise, on
    the library written after the specification, the answer is a new
    cube on which the region coordinate holds the labels that were
    requested, in the order they had on the coordinate, and whose data
    is the data at the positions of these labels along the axis of the
    coordinate; there is such a cube as soon as a label is requested,
    and when none is requested the answer is [None]. *)
Theorem extract_named_regions_selects
    (files : gmap string Cube) (h : Heap) cube c region a regions :
  h !! cube = Some c ->
  coords c !! "region" = Some region ->
  points region = StrPoints a ->
  ndim a = 1%nat ->
  (forall repr, regions <> RegOther repr) ->
  let available : gset string := list_to_set (elems a) in
  let invalid := regions_set regions ∖ available in
  let requested l := bool_decide (l ∈ regions_set regions) in
  let matching := filter (fun l => requested l = true) (elems a) in
  let kept := Reference.positions requested (elems a) in
  let run := extract_named_regions (iris := Reference.library files) cube regions in
  (invalid ≠ ∅ <-> exists l, l ∈ regions_set regions /\ l ∉ elems a) /\
  (invalid ≠ ∅ ->
   run h =
     (Raise (mkExn ValueError
               [Formatted region_missing [PStrSet invalid; PStrSet available]]), h)) /\
  (invalid = ∅ ->
   (regions_set regions ≠ ∅ -> matching ≠ []) /\
   (matching ≠ [] ->
    exists c' region',
      run h = (Ok (Some (length h)), h ++ [c']) /\
      coords c' !! "region" = Some region' /\
      labels_of (points region') = matching /\
      data c' = Reference.take_along "region" kept c /\
      dims c' = dims c) /\
   (matching = [] -> run h = (Ok None, h))).
Proof.
  intros Hc Hreg Hpts Hnd Hkind available invalid requested matching kept run.
  pose proof (extract_named_regions_run (iris := Reference.library files)
                h cube c region a regions Hc Hreg Hpts Hnd Hkind) as Hrun.
  cbv zeta in Hrun. fold available invalid run in Hrun.
  split; [apply invalid_regions_iff|]. split.
  - intros Hinv. rewrite Hrun, bool_decide_eq_true_2 by exact Hinv. reflexivity.
  - intros Hvalid.
    rewrite bool_decide_eq_false_2 in Hrun by (intros Hne; apply Hne, Hvalid).
    assert (Hin : forall l,
               region_in (iris := Reference.library files) (as_collection regions)
                 (CellStr l) = requested l)
      by (intros l; apply region_in_requested, Hkind).
    assert (Hkept : Reference.positions
                      (region_in (iris := Reference.library files)
                         (as_collection regions))
                      (Reference.cells (points region)) = kept).
    { rewrite Hpts. cbn [Reference.cells]. rewrite positions_map.
      apply positions_ext, Hin. }
    assert (Hlabels : filter (fun x => region_in (iris := Reference.library files)
                                         (as_collection regions) (CellStr x) = true)
                        (elems a) = matching).
    { apply list_filter_iff. intros l. rewrite Hin. reflexivity. }
    cbn [extract Reference.library] in Hrun. unfold Reference.ref_extract in Hrun.
    unfold coord in Hrun. rewrite Hreg, Hkept in Hrun.
    split; [|split].
    + intros Hne Hnil. eapply requested_labels_match; [exact Hvalid|exact Hne|].
      rewrite <- Hnil. subst matching. apply list_filter_iff. intros l.
      unfold requested. rewrite bool_decide_eq_true. reflexivity.
    + intros Hne.
      destruct kept as [|k kept'] eqn:Ek.
      { exfalso. apply Hne. subst kept. apply positions_nil_filter in Ek. exact Ek. }
      eexists _, _. split; [exact Hrun|].
      split; [cbn [coords]; apply lookup_insert_eq|].
      split; [|split; reflexivity].
      cbn [points]. rewrite Hpts. cbn [Reference.filter_points labels_of elems].
      exact Hlabels.
    + intros Hnil.
      assert (Ek : kept = []) by (subst kept; apply positions_nil_filter; exact Hnil).
      rewrite Ek in Hrun. exact Hrun.
Qed.

Lemma extract_named_regions_selects_witness :
  let h := [Samples.basins] in
  let regions := RegSet {[ "Sahel"; "Amazon" ]} in
  let available : gset string := list_to_set ["Amazon"; "Congo"; "Sahel"] in
  let invalid := regions_set regions ∖ available in
  let requested l := bool_decide (l ∈ regions_set regions) in
  let matching := filter (fun l => requested l = true) ["Amazon"; "Congo"; "Sahel"] in
  let kept := Reference.positions requested ["Amazon"; "Congo"; "Sahel"] in
  let run := extract_named_regions (iris := Reference.library Samples.files) 0 regions in
  (invalid ≠ ∅ <->
   exists l, l ∈ regions_set regions /\ l ∉ ["Amazon"; "Congo"; "Sahel"]) /\
  (invalid ≠ ∅ ->
   run h =
     (Raise (mkExn ValueError
               [Formatted region_missing [PStrSet invalid; PStrSet available]]), h)) /\
  (invalid = ∅ ->
   (regions_set regions ≠ ∅ -> matching ≠ []) /\
   (matching ≠ [] ->
    exists c' region',
      run h = (Ok (Some (length h)), h ++ [c']) /\
      coords c' !! "region" = Some region' /\
      labels_of (points region') = matching /\
      data c' = Reference.take_along "region" kept Samples.basins /\
      dims c' = dims Samples.basins) /\
   (matching = [] -> run h = (Ok None, h))).
Proof.
  refine (extract_named_regions_selects Samples.files
            [Samples.basins] 0 Samples.basins
            (mkCoord (StrPoints (mkArr [3]%nat ["Amazon"; "Congo"; "Sahel"])) None)
            (mkArr [3]%nat ["Amazon"; "Congo"; "Sahel"])
            (RegSet {[ "Sahel"; "Amazon" ]}) _ _ _ _ _); evaluate.
Defined.

(** The labels and the data come out in the order of the coordinate, not
    in the order of the request; a label that is absent is named by the
    error; an empty request selects nothing. *)
Example named_regions_on_the_sample :
  let selected r :=
    match r with
    | (Ok (Some r), h) =>
        match h !! r with
        | Some c' =>
            Some (labels_of <$> (points <$> coords c' !! "region"),
                  ma_values (data c'))
        | None => None
        end
    | _ => None
    end in
  selected (extract_named_regions (iris := Samples.lib) 0
              (RegList ["Sahel"; "Amazon"]) [Samples.basins]) =
    Some (Some ["Amazon"; "Sahel"], [1; 3]%Q) /\
  fst (extract_named_regions (iris := Samples.lib) 0
         (RegStr "Sahara") [Samples.basins]) =
    Raise (mkExn ValueError
             [Formatted region_missing
                [PStrSet {[ "Sahara" ]};
                 PStrSet (list_to_set ["Amazon"; "Congo"; "Sahel"])]]) /\
  fst (extract_named_regions (iris := Samples.lib) 0
         (RegList []) [Samples.basins]) = Ok None.
Proof. vm_compute. repeat split; reflexivity. Qed.


(** * Further properties *)

(** ** Case of the operator name *)

Lemma lower_ascii_idempotent (c : ascii) :
  lower_ascii (lower_ascii c) = lower_ascii c.
Proof. destruct c as [[] [] [] [] [] [] [] []]; reflexivity. Qed.

Lemma lower_idempotent (s : string) : lower (lower s) = lower s.
Proof.
  induction s as [|c s IH]; [reflexivity|].
  cbn. rewrite lower_ascii_idempotent, IH. reflexivity.
Qed.

Lemma resolver_depends_on_lower (s t : string) :
  lower s = lower t ->
  get_iris_analysis_operation s = get_iris_analysis_operation t.
Proof. intros H. rewrite !resolver_cases. cbv zeta. rewrite H. reflexivity. Qed.

Lemma lower_mean_literal (s : string) : s = "mean" -> lower s = "mean".
Proof. intros ->. reflexivity. Qed.

Section OperatorCase.

Context {iris : IrisLibrary}.

(** X1.  [zonal_means] does not look at the case of the name of the
    statistic: two names with the same lower-case form, and so a name
    and its lower-case form, give the same outcome on every heap. *)
Theorem zonal_means_ignores_case cube coordinate (s t : string) :
  lower s = lower t ->
  (forall h, zonal_means cube coordinate s h = zonal_means cube coordinate t h) /\
  (forall h, zonal_means cube coordinate (lower s) h = zonal_means cube coordinate s h).
Proof.
  intros Hst. split; intros h; unfold zonal_means.
  - rewrite (resolver_depends_on_lower s t Hst). reflexivity.
  - rewrite (resolver_depends_on_lower (lower s) s (lower_idempotent s)).
    reflexivity.
Qed.

(** X2.  For [average_region] the case of the operator name matters
    only through the exact spelling ['mean']: two names with the same
    lower-case form, neither of which is the string ['mean'], give the
    same outcome on every heap. *)
Theorem average_region_case_matters_only_for_mean
    cube coord1 coord2 fx_files (s t : string) :
  lower s = lower t ->
  s <> "mean" ->
  t <> "mean" ->
  forall h,
    average_region cube coord1 coord2 s fx_files h =
    average_region cube coord1 coord2 t fx_files h.
Proof.
  intros Hst Hs Ht h. unfold average_region.
  rewrite (resolver_depends_on_lower s t Hst).
  unfold str_in. cbn [existsb].
  apply String.eqb_neq in Hs, Ht. rewrite Hs, Ht. reflexivity.
Qed.

(** X3.  An operator name that the resolver rejects is reported by
    [average_region] after the grid areas: an error of the grid areas
    comes first, and otherwise the resolver's error is raised on the heap
    as the grid areas left it, on which no cube has been added. *)
Theorem average_region_rejects_operator_last
    cube c coord1 coord2 operator fx_files e (h : Heap) :
  h !! cube = Some c ->
  get_iris_analysis_operation operator = Raise e ->
  exists res h',
    grid_areas cube coord1 coord2 fx_files h = (res, h') /\
    average_region cube coord1 coord2 operator fx_files h =
      (match res with Ok _ => Raise e | Raise e' => Raise e' end, h') /\
    length h' = length h.
Proof.
  intros Hc Hop.
  destruct (grid_areas cube coord1 coord2 fx_files h) as [res h'] eqn:Hg.
  exists res, h'. split; [reflexivity|]. split.
  - unfold average_region, bind. rewrite Hg.
    destruct res as [g|e']; [|reflexivity]. rewrite Hop. reflexivity.
  - destruct (grid_areas_effect cube coord1 coord2 fx_files h c _ _ Hc Hg)
      as (c' & new & -> & _ & Hn).
    cbn in Hn. subst new. rewrite app_nil_r, length_insert. reflexivity.
Qed.

End OperatorCase.

Lemma zonal_means_ignores_case_witness :
  (forall h,
     zonal_means (iris := Samples.lib) 0 "longitude" "Mean" h =
     zonal_means (iris := Samples.lib) 0 "longitude" "MEAN" h) /\
  (forall h,
     zonal_means (iris := Samples.lib) 0 "longitude" (lower "Mean") h =
     zonal_means (iris := Samples.lib) 0 "longitude" "Mean" h).
Proof.
  exact (zonal_means_ignores_case (iris := Samples.lib) 0 "longitude"
           "Mean" "MEAN" eq_refl).
Defined.

Lemma average_region_case_matters_only_for_mean_witness :
  average_region (iris := Samples.lib) 0 "latitude" "longitude" "Mean" None
    [Samples.regular] =
  average_region (iris := Samples.lib) 0 "latitude" "longitude" "MEAN" None
    [Samples.regular].
Proof.
  apply (average_region_case_matters_only_for_mean (iris := Samples.lib)
           0 "latitude" "longitude" None "Mean" "MEAN"); evaluate.
Defined.

Lemma average_region_rejects_operator_last_witness :
  exists res h',
    grid_areas (iris := Samples.lib) 0 "latitude" "longitude" None
      [Samples.regular] = (res, h') /\
    average_region (iris := Samples.lib) 0 "latitude" "longitude" "sum" None
      [Samples.regular] =
      (match res with
       | Ok _ => Raise (mkExn ValueError
                          [Plain (PStr operator_not_recognised); Plain (PStr "sum");
                           Plain (PStrList operators)])
       | Raise e' => Raise e'
       end, h') /\
    length h' = length [Samples.regular].
Proof.
  apply (average_region_rejects_operator_last (iris := Samples.lib)
           0 Samples.regular "latitude" "longitude" "sum" None); evaluate.
Defined.

(** With the operator ['sum'] on the regular sample the error is the
    resolver's, and the bounds of the latitude have been guessed all the
    same. *)
Example unknown_operator_after_bounds :
  match average_region (iris := Samples.lib) 0 "latitude" "longitude" "sum" None
          [Samples.regular] with
  | (Raise e, [c']) =>
      Some (exn_class e, has_bounds <$> coords c' !! "latitude")
  | _ => None
  end = Some (ValueError, Some true).
Proof. vm_compute. reflexivity. Qed.


(** ** The files of grid areas *)

Section FxFiles.

Context {iris : IrisLibrary}.

(** X4.  The loop over [fx_files] loads the named files in the order of
    the dictionary.  When all of them load, the areas are those of the
    last named file, tiled, and the files before it count for nothing;
    when none is named the areas found so far are kept.  When a named
    file fails to load after files that loaded, its error is the outcome,
    whatever follows it. *)
Theorem fx_loop_last_named_file cube_shape items found :
  ((forall path, path ∈ named_files items -> exists fx, load_cube path = Ok fx) ->
   match last (named_files items) with
   | None => fx_loop cube_shape items found = Ok found
   | Some path =>
       exists fx,
         load_cube path = Ok fx /\
         fx_loop cube_shape items found =
           Ok (Some (tile_grid_areas cube_shape (array_of (data fx))))
   end) /\
  (forall before key path after e,
     items = before ++ (key, Some path) :: after ->
     (forall p, p ∈ named_files before -> exists fx, load_cube p = Ok fx) ->
     load_cube path = Raise e ->
     fx_loop cube_shape items found = Raise e).
Proof.
  split.
  - revert found. induction items as [|[key [path|]] rest IH]; intros found Hload.
    + reflexivity.
    + change (named_files ((key, Some path) :: rest))
        with (path :: named_files rest) in *.
      cbn [fx_loop].
      destruct (Hload path) as [fx Hfx]; [apply elem_of_cons; left; reflexivity|].
      rewrite Hfx.
      assert (Hrest : forall p, p ∈ named_files rest -> exists fx, load_cube p = Ok fx).
      { intros p Hp. apply Hload. apply elem_of_cons. right. exact Hp. }
      specialize (IH (Some (tile_grid_areas cube_shape (array_of (data fx)))) Hrest).
      destruct (named_files rest) as [|p ps] eqn:Hn.
      * cbn [last]. exists fx. split; [exact Hfx|].
        apply fx_loop_no_named. exact Hn.
      * rewrite last_cons_cons.
        destruct (last (p :: ps)) eqn:E; [exact IH|].
        apply last_None in E. discriminate E.
    + cbn [fx_loop]. apply IH. intros p Hp. apply Hload. exact Hp.
  - intros before key path after e -> Hbefore Hfail. revert found.
    induction before as [|[k [p|]] before IH]; intros found; cbn [app fx_loop].
    + rewrite Hfail. reflexivity.
    + change (named_files ((k, Some p) :: before))
        with (p :: named_files before) in Hbefore.
      destruct (Hbefore p) as [fx Hfx]; [apply elem_of_cons; left; reflexivity|].
      rewrite Hfx. apply IH. intros q Hq. apply Hbefore.
      apply elem_of_cons. right. exact Hq.
    + apply IH. intros q Hq. apply Hbefore. exact Hq.
Qed.

(** X5.  When the files give areas, [grid_areas] decides on the shapes
    alone and leaves the heap as it is: the rank of the latitude is not
    looked at, no bounds are guessed and the names of the two
    coordinates play no part. *)
Theorem grid_areas_from_files_leave_cube
    cube c coord1 coord2 items g (h : Heap) :
  h !! cube = Some c ->
  fx_loop (ma_shape (data c)) items None = Ok (Some g) ->
  grid_areas cube coord1 coord2 (Some items) h =
    if bool_decide (ma_shape (data c) = shape g) then (Ok g, h)
    else (Raise (mkExn ValueError
                   [Formatted shape_mismatch
                      [PShape (ma_shape (data c)); PShape (shape g)]]), h).
Proof.
  intros Hc Hloop.
  destruct items as [|item items]; [discriminate|].
  unfold grid_areas, bind. rewrite (get_cube_lookup _ _ _ Hc).
  change (default [] (Some (item :: items))) with (item :: items).
  change (fx_given (Some (item :: items))) with true.
  cbn [negb]. unfold lift, ret. rewrite Hloop.
  rewrite (get_cube_lookup _ _ _ Hc).
  destruct (bool_decide (ma_shape (data c) = shape g)); reflexivity.
Qed.

(** X6.  A dictionary that is not empty and names no file (all its
    values are [None]) gives no areas and, not being empty, passes the
    test for irregular grids: whatever the rank of the latitude, the
    bounds of the two coordinates are guessed and the areas are asked of
    the library. *)
Theorem grid_areas_unnamed_files_skip_guard
    cube c coord1 coord2 items (h : Heap) :
  h !! cube = Some c ->
  items <> [] ->
  named_files items = [] ->
  grid_areas cube coord1 coord2 (Some items) h =
    (let! cube' := _guess_bounds cube [coord1; coord2] in
     let! c' := get_cube cube' in
     let! g := lift (area_weights c') in
     let! c'' := get_cube cube in
     if negb (bool_decide (ma_shape (data c'') = shape g)) then
       raise (mkExn ValueError
                [Formatted shape_mismatch
                   [PShape (ma_shape (data c'')); PShape (shape g)]])
     else ret g) h.
Proof.
  intros Hc Hne Hnamed.
  destruct items as [|item items]; [contradiction|].
  unfold grid_areas. unfold bind at 1. rewrite (get_cube_lookup _ _ _ Hc).
  change (default [] (Some (item :: items))) with (item :: items).
  change (fx_given (Some (item :: items))) with true.
  cbn [negb]. rewrite (fx_loop_no_named _ _ _ Hnamed).
  unfold bind at 1, lift at 1. unfold bind at 1, ret at 1.
  unfold bind.
  destruct (_guess_bounds cube [coord1; coord2] h) as [[r|e] h1]; [|reflexivity].
  destruct (get_cube r h1) as [[c1|e] h2]; [|reflexivity].
  unfold lift. destruct (area_weights c1); reflexivity.
Qed.

End FxFiles.

Lemma fx_loop_last_named_file_witness :
  let items := [("areacella", Some "pair.nc"); ("volcello", None);
                ("areacello", Some "areacello.nc")] in
  exists fx,
    load_cube (IrisLibrary := Samples.lib) "areacello.nc" = Ok fx /\
    fx_loop (iris := Samples.lib) [3; 4; 2]%nat items None =
      Ok (Some (tile_grid_areas [3; 4; 2]%nat (array_of (data fx)))).
Proof.
  refine (proj1 (fx_loop_last_named_file (iris := Samples.lib) [3; 4; 2]%nat
                   [("areacella", Some "pair.nc"); ("volcello", None);
                    ("areacello", Some "areacello.nc")] None) _).
  intros path Hp.
  apply elem_of_cons in Hp as [->|Hp]; [eexists; vm_compute; reflexivity|].
  apply list_elem_of_singleton in Hp as ->. eexists; vm_compute; reflexivity.
Defined.

Lemma grid_areas_from_files_leave_cube_witness :
  let items := [("areacella", Some "pair.nc"); ("volcello", None);
                ("areacello", Some "areacello.nc")] in
  let g := mkArr [3; 4; 2]%nat (replicate 24 2%Q) in
  grid_areas (iris := Samples.lib) 0 "latitude" "longitude" (Some items)
    [Samples.regular] =
    if bool_decide (ma_shape (data Samples.regular) = shape g)
    then (Ok g, [Samples.regular])
    else (Raise (mkExn ValueError
                   [Formatted shape_mismatch
                      [PShape (ma_shape (data Samples.regular)); PShape (shape g)]]),
          [Samples.regular]).
Proof.
  apply (grid_areas_from_files_leave_cube (iris := Samples.lib) 0 Samples.regular
           "latitude" "longitude"); evaluate.
Defined.

Lemma grid_areas_unnamed_files_skip_guard_witness :
  grid_areas (iris := Samples.lib) 0 "latitude" "longitude"
    (Some [("areacello", None)]) [Samples.curvilinear] =
    (let! cube' := _guess_bounds (iris := Samples.lib) 0 ["latitude"; "longitude"] in
     let! c' := get_cube cube' in
     let! g := lift (area_weights (IrisLibrary := Samples.lib) c') in
     let! c'' := get_cube 0 in
     if negb (bool_decide (ma_shape (data c'') = shape g)) then
       raise (mkExn ValueError
                [Formatted shape_mismatch
                   [PShape (ma_shape (data c'')); PShape (shape g)]])
     else ret g) [Samples.curvilinear].
Proof.
  apply (grid_areas_unnamed_files_skip_guard (iris := Samples.lib)
           0 Samples.curvilinear "latitude" "longitude" [("areacello", None)]);
    evaluate.
Defined.

(** On the curvilinear sample the error of the guard names the latitude
    when no dictionary is given; with a dictionary that names no file it
    is the library that refuses, when asked to guess the bounds. *)
Example unnamed_files_on_irregular_grid :
  fst (average_region (iris := Samples.lib) 0 "latitude" "longitude" "mean"
         None [Samples.curvilinear]) =
    Raise (mkExn CoordinateMultiDimError [Plain (PCoord "latitude")]) /\
  fst (average_region (iris := Samples.lib) 0 "latitude" "longitude" "mean"
         (Some [("areacello", None)]) [Samples.curvilinear]) =
    Raise (mkExn CoordinateMultiDimError []).
Proof. split; vm_compute; reflexivity. Qed.


(** ** Guessing bounds *)

Section GuessBounds.

Context {iris : IrisLibrary}.

(** A coordinate with bounds keeps them under [only_bounds]. *)
Lemma only_bounds_keeps_bounded names c c' name co :
  only_bounds names c c' ->
  coords c !! name = Some co ->
  has_bounds co = true ->
  coords c' !! name = Some co.
Proof.
  intros (_ & _ & Hb) Hco Hhas. specialize (Hb name). rewrite Hco in Hb.
  destruct (coords c' !! name) as [co'|]; [|contradiction].
  destruct Hb as [Hp [Hbd|[Hnone _]]].
  - destruct co, co'. cbn in *. subst. reflexivity.
  - unfold has_bounds in Hhas. rewrite Hnone in Hhas. discriminate.
Qed.

Lemma guess_bounds_stable (h : Heap) cube c names :
  h !! cube = Some c ->
  (forall name, name ∈ names ->
     exists co, coords c !! name = Some co /\ has_bounds co = true) ->
  _guess_bounds cube names h = (Ok cube, h).
Proof.
  intros Hc. induction names as [|name rest IH]; intros Hall; [reflexivity|].
  cbn [_guess_bounds]. unfold bind at 1. rewrite (get_cube_lookup _ _ _ Hc).
  destruct (Hall name) as (co & Hco & Hhas); [apply elem_of_cons; left; reflexivity|].
  unfold bind at 1, lift at 1, coord. rewrite Hco, Hhas.
  unfold bind at 1, ret at 1. apply IH.
  intros n Hn. apply Hall. apply elem_of_cons. right. exact Hn.
Qed.

Lemma guess_bounds_all_bounded (h h' : Heap) cube c names r :
  h !! cube = Some c ->
  _guess_bounds cube names h = (Ok r, h') ->
  exists c',
    h' = <[cube := c']> h /\
    forall name, name ∈ names ->
      exists co, coords c' !! name = Some co /\ has_bounds co = true.
Proof.
  revert h c. induction names as [|name rest IH]; intros h c Hc Hrun.
  - cbn in Hrun. inversion Hrun; subst. exists c.
    split; [symmetry; apply list_insert_id, Hc|].
    intros name Hn. apply elem_of_nil in Hn. contradiction.
  - cbn [_guess_bounds] in Hrun. unfold bind at 1 in Hrun.
    rewrite (get_cube_lookup _ _ _ Hc) in Hrun.
    unfold bind at 1, lift at 1, coord in Hrun.
    destruct (coords c !! name) as [co|] eqn:Hco; [|discriminate].
    destruct (has_bounds co) eqn:Hhas.
    + unfold bind at 1, ret at 1 in Hrun.
      destruct (IH _ _ Hc Hrun) as (c' & -> & Hrest).
      exists c'. split; [reflexivity|].
      intros n Hn. apply elem_of_cons in Hn as [->|Hn]; [|apply Hrest, Hn].
      destruct (guess_bounds_effect cube rest h c _ _ Hc Hrun)
        as (c2 & new & Heq & HR & Hnew).
      cbn in Hnew. subst new. rewrite app_nil_r in Heq.
      assert (c2 = c') as ->.
      { assert (Hl : (<[cube := c']> h) !! cube = Some c')
          by (eapply put_then_get, Hc).
        rewrite Heq in Hl. erewrite put_then_get in Hl by exact Hc.
        inversion Hl. reflexivity. }
      exists co. split; [|exact Hhas].
      eapply only_bounds_keeps_bounded; eassumption.
    + unfold bind at 1 in Hrun. unfold bind at 1, lift at 1 in Hrun.
      destruct (guess_bounds co) as [b|e]; [|discriminate].
      unfold put_cube at 1 in Hrun.
      set (c1 := set_coord c name (mkCoord (points co) (Some b))) in *.
      assert (Hc1 : (<[cube := c1]> h) !! cube = Some c1)
        by (eapply put_then_get, Hc).
      destruct (IH _ _ Hc1 Hrun) as (c' & -> & Hrest).
      exists c'. split; [apply list_insert_insert_eq|].
      intros n Hn. apply elem_of_cons in Hn as [->|Hn]; [|apply Hrest, Hn].
      destruct (guess_bounds_effect cube rest _ c1 _ _ Hc1 Hrun)
        as (c2 & new & Heq & HR & Hnew).
      cbn in Hnew. subst new. rewrite app_nil_r in Heq.
      assert (c2 = c') as ->.
      { assert (Hl : (<[cube := c']> (<[cube := c1]> h)) !! cube = Some c')
          by (eapply put_then_get, Hc1).
        rewrite Heq in Hl. erewrite put_then_get in Hl by exact Hc1.
        inversion Hl. reflexivity. }
      exists (mkCoord (points co) (Some b)). split; [|reflexivity].
      eapply only_bounds_keeps_bounded; [exact HR| |reflexivity].
      subst c1. cbn. apply lookup_insert_eq.
Qed.

Lemma guess_bounds_returns_cube (h h' : Heap) cube names r :
  _guess_bounds cube names h = (Ok r, h') -> r = cube.
Proof.
  revert h. induction names as [|name rest IH]; intros h Hrun.
  - cbn in Hrun. inversion Hrun. reflexivity.
  - cbn [_guess_bounds] in Hrun.
    apply bind_ok in Hrun as (c & h1 & _ & Hrun).
    apply bind_ok in Hrun as (co & h2 & _ & Hrun).
    apply bind_ok in Hrun as (u & h3 & _ & Hrun).
    eapply IH, Hrun.
Qed.

(** X7.  When [_guess_bounds] succeeds it returns the cube it was given,
    on which every named coordinate now has bounds; a coordinate that had
    bounds before is exactly as it was, and so is the data.  Called again
    on the result it changes nothing. *)
Theorem guess_bounds_completes_once (h h' : Heap) cube c names r :
  h !! cube = Some c ->
  _guess_bounds cube names h = (Ok r, h') ->
  r = cube /\
  (exists c',
     h' = <[cube := c']> h /\
     data c' = data c /\
     (forall name, name ∈ names ->
        exists co, coords c' !! name = Some co /\ has_bounds co = true) /\
     (forall name co,
        coords c !! name = Some co -> has_bounds co = true ->
        coords c' !! name = Some co)) /\
  _guess_bounds cube names h' = (Ok cube, h').
Proof.
  intros Hc Hrun.
  destruct (guess_bounds_all_bounded _ _ _ _ _ _ Hc Hrun) as (c' & -> & Hall).
  assert (Hc' : (<[cube := c']> h) !! cube = Some c') by (eapply put_then_get, Hc).
  destruct (guess_bounds_effect cube names h c _ _ Hc Hrun)
    as (c2 & new & Heq & HR & Hnew).
  cbn in Hnew. subst new. rewrite app_nil_r in Heq.
  assert (c2 = c') as ->.
  { rewrite Heq in Hc'. erewrite put_then_get in Hc' by exact Hc.
    inversion Hc'. reflexivity. }
  split; [eapply guess_bounds_returns_cube, Hrun|]. split.
  - exists c'. split; [reflexivity|]. split; [apply HR|]. split; [exact Hall|].
    intros name co Hco Hhas. eapply only_bounds_keeps_bounded; eassumption.
  - apply guess_bounds_stable with (c := c'); assumption.
Qed.

End GuessBounds.

Lemma guess_bounds_completes_once_witness :
  let run := _guess_bounds (iris := Samples.lib) 0 ["latitude"; "longitude"] in
  let h' := snd (run [Samples.regular]) in
  0%nat = 0%nat /\
  (exists c',
     h' = <[0%nat := c']> [Samples.regular] /\
     data c' = data Samples.regular /\
     (forall name, name ∈ ["latitude"; "longitude"] ->
        exists co, coords c' !! name = Some co /\ has_bounds co = true) /\
     (forall name co,
        coords Samples.regular !! name = Some co -> has_bounds co = true ->
        coords c' !! name = Some co)) /\
  run h' = (Ok 0%nat, h').
Proof.
  apply (guess_bounds_completes_once (iris := Samples.lib)
           [Samples.regular] _ 0 Samples.regular ["latitude"; "longitude"] 0);
    evaluate.
Defined.

(** The bounds that the reference library guesses for the latitudes
    -30, -10, 10 and 30 of the sample. *)
Example guessed_latitude_bounds :
  match _guess_bounds (iris := Samples.lib) 0 ["latitude"] [Samples.regular] with
  | (Ok _, [c']) => coords c' !! "latitude" ≫= bounds
  | _ => None
  end = Some (mkArr [4; 2]%nat [-40; -20; -20; 0; 0; 20; 20; 40]%Q).
Proof. vm_compute. reflexivity. Qed.



(** ** Named regions: what the request is taken for *)

Lemma filter_points_ext (f g : Cell -> bool) (p : Points) :
  (forall x, f x = g x) -> Reference.filter_points f p = Reference.filter_points g p.
Proof.
  intros Hfg. destruct p as [a|a]; cbn.
  - rewrite (list_filter_iff (fun x => f (CellNum x) = true)
               (fun x => g (CellNum x) = true)); [reflexivity|].
    intros x. rewrite Hfg. reflexivity.
  - rewrite (list_filter_iff (fun x => f (CellStr x) = true)
               (fun x => g (CellStr x) = true)); [reflexivity|].
    intros x. rewrite Hfg. reflexivity.
Qed.

(** The library written after the specification looks at a constraint
    only through its answers. *)
Lemma reference_extract_extensional files :
  extract_extensional (Reference.library files).
Proof.
  intros c name f g Hfg. cbn. unfold Reference.ref_extract.
  destruct (coord c name) as [co|e]; [|reflexivity].
  rewrite (positions_ext f g _ Hfg), (filter_points_ext f g _ Hfg). reflexivity.
Qed.

(** Two sequences with the same labels answer alike for every cell. *)
Lemma str_in_same_labels (l1 l2 : list string) (s : string) :
  (list_to_set l1 : gset string) = list_to_set l2 -> str_in s l1 = str_in s l2.
Proof.
  intros Hset.
  assert (H : str_in s l1 = true <-> str_in s l2 = true).
  { rewrite !str_in_elem_of.
    rewrite <- (elem_of_list_to_set (C := gset string) s l1).
    rewrite <- (elem_of_list_to_set (C := gset string) s l2).
    rewrite Hset. reflexivity. }
  destruct (str_in s l1), (str_in s l2); try reflexivity.
  - symmetry. apply H. reflexivity.
  - apply H. reflexivity.
Qed.

Section RequestedRegions.

Context {iris : IrisLibrary}.

Lemma region_in_same_labels (r1 r2 : Regions) :
  regions_set r1 = regions_set r2 ->
  (forall repr, r1 <> RegOther repr) ->
  (forall repr, r2 <> RegOther repr) ->
  (forall labels, r1 <> RegSet labels) ->
  (forall labels, r2 <> RegSet labels) ->
  forall x, region_in (as_collection r1) x = region_in (as_collection r2) x.
Proof.
  intros Hset H1 H2 S1 S2 x.
  destruct r1 as [s1|l1|l1|s1|x1];
    try (exfalso; eapply H1; reflexivity); try (exfalso; eapply S1; reflexivity);
    destruct r2 as [s2|l2|l2|s2|x2];
    try (exfalso; eapply H2; reflexivity); try (exfalso; eapply S2; reflexivity);
    rewrite ?regions_set_string in Hset; cbn [as_collection region_in];
    (destruct x as [q|s]; [reflexivity|]); apply str_in_same_labels, Hset.
Qed.

(** X8.  For a library that looks at a constraint only through its
    answers, [extract_named_regions] takes a request that is a string, a
    list or a tuple for the set of its labels: two such requests that
    hold the same labels give the same outcome on every heap, whatever
    the order and the repetitions in them.  In particular a string is
    the list of that one string.  (A request that is a set is looked up
    by the hash that the library gives a cell, and is not covered.) *)
Theorem extract_named_regions_request_as_set cube (r1 r2 : Regions) :
  extract_extensional iris ->
  regions_set r1 = regions_set r2 ->
  (forall repr, r1 <> RegOther repr) ->
  (forall repr, r2 <> RegOther repr) ->
  (forall labels, r1 <> RegSet labels) ->
  (forall labels, r2 <> RegSet labels) ->
  forall h, extract_named_regions cube r1 h = extract_named_regions cube r2 h.
Proof.
  intros Hext Hset H1 H2 S1 S2 h.
  pose proof (region_in_same_labels r1 r2 Hset H1 H2 S1 S2) as Hin.
  assert (Hrun : forall r,
             (forall repr, r <> RegOther repr) ->
             extract_named_regions cube r h =
               (let! c := get_cube cube in
                let! region := lift (coord c "region") in
                let! available := lift (set_of_points (points region)) in
                if bool_decide (regions_set r ∖ fst available ≠ ∅) then
                  raise (mkExn ValueError
                           [Formatted region_missing
                              [PStrSet (regions_set r ∖ fst available);
                               snd available]])
                else
                  let! res := lift (extract c "region" (region_in (as_collection r))) in
                  match res with
                  | Some c' => let! r := alloc c' in ret (Some r)
                  | None => ret None
                  end) h).
  { intros r Hr. destruct r as [s|l|l|s|x]; try reflexivity.
    - unfold extract_named_regions. cbv beta iota zeta.
      rewrite <- regions_set_string. reflexivity.
    - exfalso. eapply Hr. reflexivity. }
  rewrite (Hrun r1 H1), (Hrun r2 H2), Hset.
  unfold bind, lift, get_cube.
  destruct (h !! cube) as [c|]; [|reflexivity].
  destruct (coord c "region") as [region|]; [|reflexivity].
  destruct (set_of_points (points region)) as [available|]; [|reflexivity].
  destruct (bool_decide _); [reflexivity|].
  rewrite (Hext c "region" _ _ Hin). reflexivity.
Qed.

(** X9.  [zonal_means] and [extract_named_regions] change the heap only
    by adding the cube they return: when they raise, or when
    [extract_named_regions] answers [None], the heap is as it was. *)
Theorem no_cube_no_change cube :
  (forall coordinate mean_type (h h' : Heap) e,
     zonal_means cube coordinate mean_type h = (Raise e, h') -> h' = h) /\
  (forall regions (h h' : Heap) res,
     extract_named_regions cube regions h = (res, h') ->
     (forall r, res <> Ok (Some r)) -> h' = h).
Proof.
  split.
  - intros coordinate mean_type h h' e. unfold zonal_means, cube_collapsed, bind, lift.
    destruct (get_iris_analysis_operation mean_type); [|intros [= _ <-]; reflexivity].
    unfold get_cube. destruct (h !! cube); [|intros [= _ <-]; reflexivity].
    destruct (collapsed _ _ _ _); [discriminate|intros [= _ <-]; reflexivity].
  - assert (Hmain : forall regions' (h h' : Heap) res,
               (let! c := get_cube cube in
                let! region := lift (coord c "region") in
                let! available := lift (set_of_points (points region)) in
                if bool_decide (regions_set regions' ∖ fst available ≠ ∅) then
                  raise (mkExn ValueError
                           [Formatted region_missing
                              [PStrSet (regions_set regions' ∖ fst available);
                               snd available]])
                else
                  let! res := lift (extract c "region" (region_in regions')) in
                  match res with
                  | Some c' => let! r := alloc c' in ret (Some r)
                  | None => ret None
                  end) h = (res, h') ->
               (forall r, res <> Ok (Some r)) -> h' = h).
    { intros regions' h h' res. unfold bind, lift, raise, ret, alloc, get_cube.
      destruct (h !! cube) as [c|]; [|intros [= _ <-]; reflexivity].
      destruct (coord c "region") as [region|]; [|intros [= _ <-]; reflexivity].
      destruct (set_of_points (points region)) as [available|];
        [|intros [= _ <-]; reflexivity].
      destruct (bool_decide _); [intros [= _ <-]; reflexivity|].
      destruct (extract c "region" (region_in regions')) as [[c'|]|];
        try (intros [= _ <-]; reflexivity).
      intros [= <- <-] Hno. exfalso. eapply Hno. reflexivity. }
    intros regions h h' res. unfold extract_named_regions.
    destruct regions; try apply Hmain.
    unfold raise. intros [= _ <-] _. reflexivity.
Qed.

End RequestedRegions.

Lemma extract_named_regions_request_as_set_witness :
  extract_named_regions (iris := Samples.lib) 0
    (RegList ["Sahel"; "Amazon"; "Sahel"]) [Samples.basins] =
  extract_named_regions (iris := Samples.lib) 0
    (RegTuple ["Amazon"; "Sahel"]) [Samples.basins].
Proof.
  apply (extract_named_regions_request_as_set (iris := Samples.lib) 0
           (RegList ["Sahel"; "Amazon"; "Sahel"]) (RegTuple ["Amazon"; "Sahel"])
           (reference_extract_extensional Samples.files));
    evaluate.
Defined.


(** ** Boxes on an irregular grid, one after the other *)

Lemma zip_with_orb_comm (a b : list bool) : zip_with orb a b = zip_with orb b a.
Proof.
  revert b. induction a as [|x a IH]; intros [|y b]; cbn; try reflexivity.
  rewrite IH, orb_comm. reflexivity.
Qed.

Section Boxes.

Context {iris : IrisLibrary}.

(** The irregular branch, by the mask it leaves. *)
Lemma extract_region_irregular_run
    (h : Heap) cube c lats lons lead
    start_longitude end_longitude start_latitude end_latitude :
  h !! cube = Some c ->
  irregular_grid c lats lons lead ->
  extract_region cube start_longitude end_longitude start_latitude end_latitude h =
    match box_mask lead (ma_mask (data c))
            (excluded lats lons start_longitude end_longitude start_latitude
               end_latitude) with
    | Some m' => (Ok cube, <[cube := with_mask c m']> h)
    | None => (Raise (index_error (shape lats) (ma_shape (data c))), h)
    end.
Proof.
  intros Hc Hgrid.
  rewrite (extract_region_irregular h cube c lats lons lead) by assumption.
  cbv zeta. unfold box_mask.
  destruct (ma_mask (data c)) as [|m] eqn:Hm; [|reflexivity].
  destruct (any _); [destruct (bool_decide _); reflexivity|].
  rewrite with_mask_id, list_insert_id by assumption. reflexivity.
Qed.

Lemma irregular_grid_box_mask c lats lons lead (out : list bool) m' :
  irregular_grid c lats lons lead ->
  length out = prod_shape (shape lats) ->
  box_mask lead (ma_mask (data c)) out = Some m' ->
  irregular_grid (with_mask c m') lats lons lead.
Proof.
  intros Hgrid Hout Hbox.
  pose proof Hgrid as (Hlat & Hlon & Hnd & Hax & Hshape & Hllat & Hllon & Hdata & Hmask).
  assert (Hsize : prod_shape (ma_shape (data c)) =
                  prod_shape lead * prod_shape (shape lats))
    by (rewrite Hdata; apply prod_shape_app).
  unfold box_mask in Hbox. unfold mask_complete, getmaskarray in Hmask.
  destruct (ma_mask (data c)) as [|m] eqn:Hm.
  - destruct (any out).
    + destruct (bool_decide (lead = [])) eqn:Hlead; [|discriminate].
      apply bool_decide_eq_true in Hlead. subst lead. injection Hbox as <-.
      apply irregular_grid_with_mask; [exact Hgrid|].
      cbn [prod_shape] in Hsize. lia.
    + injection Hbox as <-. rewrite with_mask_id by exact Hm. exact Hgrid.
  - injection Hbox as <-. apply irregular_grid_with_mask; [exact Hgrid|].
    rewrite length_zip_with, length_repeat_block. lia.
Qed.

(** One box after another, by the masks they leave. *)
Lemma extract_region_irregular_twice
    (h : Heap) cube c lats lons lead
    (lon1 lon2 lat1 lat2 lon1' lon2' lat1' lat2' : Q) :
  h !! cube = Some c ->
  irregular_grid c lats lons lead ->
  let error := index_error (shape lats) (ma_shape (data c)) in
  (do! extract_region cube lon1 lon2 lat1 lat2 in
   extract_region cube lon1' lon2' lat1' lat2') h =
    match box_mask lead (ma_mask (data c)) (excluded lats lons lon1 lon2 lat1 lat2) with
    | Some m1 =>
        match box_mask lead m1 (excluded lats lons lon1' lon2' lat1' lat2') with
        | Some m2 => (Ok cube, <[cube := with_mask c m2]> h)
        | None => (Raise error, <[cube := with_mask c m1]> h)
        end
    | None => (Raise error, h)
    end.
Proof.
  intros Hc Hgrid error.
  pose proof (irregular_grid_lengths c lats lons lead lon1 lon2 lat1 lat2 Hgrid)
    as [Hlout _].
  unfold bind at 1.
  rewrite (extract_region_irregular_run h cube c lats lons lead) by assumption.
  destruct (box_mask lead (ma_mask (data c)) _) as [m1|] eqn:Hbox; [|reflexivity].
  rewrite (extract_region_irregular_run _ cube (with_mask c m1) lats lons lead).
  - cbn [with_mask set_data data ma_mask ma_shape].
    destruct (box_mask lead m1 _); [|reflexivity].
    rewrite list_insert_insert_eq. reflexivity.
  - eapply put_then_get, Hc.
  - eapply irregular_grid_box_mask; [exact Hgrid| |exact Hbox].
    unfold excluded in *. exact Hlout.
Qed.

(** X10.  On an irregular grid the same box applied a second time gives
    the outcome of the first time and changes nothing: run on the heap
    as the first call left it, the call returns or raises as the first
    call did and leaves that heap as it is. *)
Theorem extract_region_irregular_idempotent
    (h : Heap) cube c lats lons lead
    start_longitude end_longitude start_latitude end_latitude :
  h !! cube = Some c ->
  irregular_grid c lats lons lead ->
  let run :=
    extract_region cube start_longitude end_longitude start_latitude end_latitude in
  run (snd (run h)) = run h.
Proof.
  intros Hc Hgrid run.
  pose proof (irregular_grid_lengths c lats lons lead start_longitude end_longitude
                start_latitude end_latitude Hgrid) as [Hlout _].
  subst run.
  rewrite (extract_region_irregular_run h cube c lats lons lead) by assumption.
  set (out := excluded lats lons start_longitude end_longitude start_latitude
                end_latitude) in *.
  destruct (box_mask lead (ma_mask (data c)) out) as [m1|] eqn:Hbox; cbn [snd].
  - rewrite (extract_region_irregular_run _ cube (with_mask c m1) lats lons lead);
      [|eapply put_then_get, Hc
       |eapply irregular_grid_box_mask; [exact Hgrid|exact Hlout|exact Hbox]].
    fold out. cbn [with_mask set_data data ma_mask ma_shape ma_values].
    assert (Hagain : box_mask lead m1 out = Some m1).
    { unfold box_mask in *. destruct (ma_mask (data c)) as [|m].
      - destruct (any out) eqn:Hany.
        + destruct (bool_decide (lead = [])) eqn:Hlead; [|discriminate].
          apply bool_decide_eq_true in Hlead. subst lead. injection Hbox as <-.
          cbn [prod_shape]. rewrite repeat_block_1, zip_with_orb_diag. reflexivity.
        + injection Hbox as <-. reflexivity.
      - injection Hbox as <-.
        rewrite zip_with_orb_assoc, zip_with_orb_diag. reflexivity. }
    rewrite Hagain, list_insert_insert_eq. reflexivity.
  - rewrite (extract_region_irregular_run h cube c lats lons lead) by assumption.
    fold out. rewrite Hbox. reflexivity.
Qed.

(** X11.  On an irregular grid two boxes applied one after the other
    give the same outcome in whichever order they are applied: the same
    result or the same error, and the same heap.  When they return, the
    mask of the cube is the mask it had with the cells that either box
    excludes. *)
Theorem extract_region_irregular_boxes_commute
    (h : Heap) cube c lats lons lead
    (lon1 lon2 lat1 lat2 lon1' lon2' lat1' lat2' : Q) :
  h !! cube = Some c ->
  irregular_grid c lats lons lead ->
  let first := extract_region cube lon1 lon2 lat1 lat2 in
  let second := extract_region cube lon1' lon2' lat1' lat2' in
  let either :=
    zip_with orb (excluded lats lons lon1 lon2 lat1 lat2)
      (excluded lats lons lon1' lon2' lat1' lat2') in
  (do! first in second) h = (do! second in first) h /\
  (forall r h',
     (do! first in second) h = (Ok r, h') ->
     r = cube /\
     exists c',
       h' = <[cube := c']> h /\
       getmaskarray (data c') =
         zip_with orb (getmaskarray (data c))
           (repeat_block (prod_shape lead) either)).
Proof.
  intros Hc Hgrid first second either.
  pose proof (irregular_grid_lengths c lats lons lead lon1 lon2 lat1 lat2 Hgrid)
    as [Hl1 _].
  pose proof (irregular_grid_lengths c lats lons lead lon1' lon2' lat1' lat2' Hgrid)
    as [Hl2 _].
  fold (excluded lats lons lon1 lon2 lat1 lat2) in Hl1.
  fold (excluded lats lons lon1' lon2' lat1' lat2') in Hl2.
  split.
  - subst first second.
    rewrite !(extract_region_irregular_twice h cube c lats lons lead) by assumption.
    cbv zeta.
    set (out1 := excluded lats lons lon1 lon2 lat1 lat2) in *.
    set (out2 := excluded lats lons lon1' lon2' lat1' lat2') in *.
    unfold box_mask.
    destruct (ma_mask (data c)) as [|m] eqn:Hm.
    + destruct (any out1) eqn:Hany1, (any out2) eqn:Hany2,
        (bool_decide (lead = [])) eqn:Hlead;
        rewrite ?Hany1, ?Hany2, ?Hlead;
        try (apply bool_decide_eq_true in Hlead; subst lead);
        cbn [prod_shape]; rewrite ?repeat_block_1;
        rewrite ?(with_mask_id c nomask Hm), ?(list_insert_id h cube c Hc);
        try reflexivity.
      * rewrite (zip_with_orb_comm out2 out1). reflexivity.
      * rewrite (zip_with_orb_false_r out1 out2) by (assumption || lia). reflexivity.
      * rewrite (zip_with_orb_false_r out2 out1) by (assumption || lia). reflexivity.
    + rewrite !zip_with_orb_assoc.
      rewrite (zip_with_orb_comm (repeat_block _ out2)). reflexivity.
  - intros r h' Hrun. subst first second. unfold bind in Hrun.
    destruct (extract_region_irregular_cases c lead
                (excluded lats lons lon1 lon2 lat1 lat2))
      as [Hcase1|(Hm & Hlead & Hany)].
    + destruct (extract_region_irregular_returns h cube c lats lons lead
                  lon1 lon2 lat1 lat2 Hc Hgrid Hcase1)
        as (c1 & Hrun1 & _ & Hmask1 & Hgrid1).
      rewrite Hrun1 in Hrun.
      pose proof (put_then_get h cube c c1 Hc) as Hc1.
      destruct (extract_region_irregular_cases c1 lead
                  (excluded lats lons lon1' lon2' lat1' lat2'))
        as [Hcase2|(Hm & Hlead & Hany)].
      * destruct (extract_region_irregular_returns _ cube c1 lats lons lead
                    lon1' lon2' lat1' lat2' Hc1 Hgrid1 Hcase2)
          as (c2 & Hrun2 & _ & Hmask2 & _).
        rewrite Hrun2 in Hrun. injection Hrun as <- <-.
        split; [reflexivity|]. exists c2.
        split; [apply list_insert_insert_eq|].
        rewrite Hmask2, Hmask1, zip_with_orb_assoc.
        rewrite zip_with_repeat_block by lia. reflexivity.
      * rewrite (extract_region_irregular_raises _ cube c1 lats lons lead) in Hrun
          by assumption.
        discriminate Hrun.
    + rewrite (extract_region_irregular_raises h cube c lats lons lead) in Hrun
        by assumption.
      discriminate Hrun.
Qed.

End Boxes.

Lemma extract_region_irregular_idempotent_witness :
  let run := extract_region (iris := Samples.lib) 0 0 100 (-5) 5 in
  run (snd (run [Samples.curvilinear])) = run [Samples.curvilinear].
Proof.
  exact (extract_region_irregular_idempotent (iris := Samples.lib)
           [Samples.curvilinear] 0 Samples.curvilinear
           (mkArr [2; 2]%nat [0; 1; 10; 11]%Q)
           (mkArr [2; 2]%nat [5; 50; 6; 51]%Q) [] 0 100 (-5) 5
           eq_refl curvilinear_grid).
Defined.

Lemma extract_region_irregular_boxes_commute_witness :
  let h := [Samples.curvilinear] in
  let first := extract_region (iris := Samples.lib) 0 50 100 (-5) 50 in
  let second := extract_region (iris := Samples.lib) 0 100 100 5 50 in
  let either :=
    zip_with orb
      (excluded (mkArr [2; 2]%nat [0; 1; 10; 11]%Q) (mkArr [2; 2]%nat [5; 50; 6; 51]%Q)
         50 100 (-5) 50)
      (excluded (mkArr [2; 2]%nat [0; 1; 10; 11]%Q) (mkArr [2; 2]%nat [5; 50; 6; 51]%Q)
         100 100 5 50) in
  (do! first in second) h = (do! second in first) h /\
  (forall r h',
     (do! first in second) h = (Ok r, h') ->
     r = 0%nat /\
     exists c',
       h' = <[0%nat := c']> h /\
       getmaskarray (data c') =
         zip_with orb (getmaskarray (data Samples.curvilinear))
           (repeat_block (prod_shape []) either)).
Proof.
  exact (extract_region_irregular_boxes_commute (iris := Samples.lib)
           [Samples.curvilinear] 0 Samples.curvilinear
           (mkArr [2; 2]%nat [0; 1; 10; 11]%Q)
           (mkArr [2; 2]%nat [5; 50; 6; 51]%Q) [] 50 100 (-5) 50 100 100 5 50
           eq_refl curvilinear_grid).
Defined.

(** Two boxes on the grid of two by two cells with one cell masked: the
    first masks the cell of the longitude 51, the second the two cells
    of the latitudes below 5, in either order.  On two unmasked times of
    the grid both orders raise, and the cube is as it was. *)
Example two_boxes_on_the_samples :
  let first := extract_region (iris := Samples.lib) 0 50 100 (-5) 50 in
  let second := extract_region (iris := Samples.lib) 0 100 100 5 50 in
  let masks res :=
    match res with
    | (Ok r, h) => Some (getmaskarray <$> (data <$> h !! r))
    | (Raise _, _) => None
    end in
  masks ((do! first in second) [Samples.curvilinear]) =
    Some (Some [true; true; false; true]) /\
  masks ((do! second in first) [Samples.curvilinear]) =
    Some (Some [true; true; false; true]) /\
  (do! first in second) [Samples.curvilinear_series] =
    (Raise (index_error [2; 2]%nat [2; 2; 2]%nat), [Samples.curvilinear_series]) /\
  (do! second in first) [Samples.curvilinear_series] =
    (Raise (index_error [2; 2]%nat [2; 2; 2]%nat), [Samples.curvilinear_series]).
Proof. vm_compute. repeat split; reflexivity. Qed.

(** ** Masks are never lifted *)

Lemma length_chunks {A} (n size : nat) (l : list A) :
  length (chunks n size l) = n.
Proof. revert l. induction n as [|n IH]; intros l; cbn; [|rewrite IH]; reflexivity. Qed.

Lemma length_flatten_uniform {A} (size : nat) (blocks : list (list A)) :
  Forall (fun b => length b = size) blocks ->
  length (flatten blocks) = length blocks * size.
Proof.
  induction 1 as [|b blocks Hb _ IH]; [reflexivity|].
  unfold flatten in *. cbn. rewrite length_app, IH, Hb. reflexivity.
Qed.

Lemma broadcast_same_length {A} (dst src : list nat) (l r : list A) :
  length l = prod_shape src ->
  broadcast_same dst src l = Some r ->
  length r = prod_shape dst.
Proof.
  revert src l r. induction dst as [|n dst IH]; intros [|m src] l r Hl Hb;
    cbn [broadcast_same] in Hb; try discriminate.
  - inversion Hb; subst. exact Hl.
  - cbn [prod_shape] in *. destruct (m =? n)%nat eqn:Hmn.
    + apply Nat.eqb_eq in Hmn. subst m.
      apply fmap_Some in Hb as (blocks & Hmap & ->).
      apply mapM_Some in Hmap.
      pose proof (Forall2_length _ _ _ Hmap) as Hlen.
      rewrite length_chunks in Hlen.
      rewrite (length_flatten_uniform (prod_shape dst)), <- Hlen; [reflexivity|].
      pose proof (chunks_length_each n (prod_shape src) l Hl) as Hchunks.
      clear Hlen. induction Hmap as [|x y xs ys Hxy _ IHm]; constructor.
      * inversion Hchunks; subst. eapply IH; eassumption.
      * apply IHm. inversion Hchunks; assumption.
    + destruct (m =? 1)%nat eqn:Hm1; [|discriminate].
      apply Nat.eqb_eq in Hm1. subst m.
      apply fmap_Some in Hb as (b & Hb & ->).
      rewrite length_repeat_block. f_equal. eapply IH; [|exact Hb]. lia.
Qed.

Lemma broadcast_to_length {A} (dst : list nat) (a : ndarray A) (r : list A) :
  length (elems a) = prod_shape (shape a) ->
  broadcast_to dst a = Some r ->
  length r = prod_shape dst.
Proof.
  intros Hl. unfold broadcast_to, pad_left.
  destruct (ndim a <=? length dst)%nat; [|discriminate].
  apply broadcast_same_length. rewrite prod_shape_ones. exact Hl.
Qed.

Lemma mask_grows_refl c : mask_grows c c.
Proof. split; [apply only_mask_refl|]. intros H. split; [exact H|auto]. Qed.

Lemma mask_grows_trans x y z : mask_grows x y -> mask_grows y z -> mask_grows x z.
Proof.
  intros [Hxy Gxy] [Hyz Gyz]. split; [eapply only_mask_trans; eassumption|].
  intros Hx. destruct (Gxy Hx) as [Hy Hg]. destruct (Gyz Hy) as [Hz Hg'].
  split; [exact Hz|]. intros i Hi. apply Hg', Hg, Hi.
Qed.


Lemma where_lt_complete p x v :
  points_complete p -> where_lt p x = Ok v -> npbool_complete v.
Proof.
  destruct p as [a|a]; [|discriminate]. cbn [points_complete]. intros Hp.
  rewrite where_lt_condition by exact Hp. intros [= <-].
  unfold condition_mask. destruct (any _); [|exact I].
  cbn. rewrite length_map. exact Hp.
Qed.

Lemma where_gt_complete p x v :
  points_complete p -> where_gt p x = Ok v -> npbool_complete v.
Proof.
  destruct p as [a|a]; [|discriminate]. cbn [points_complete]. intros Hp.
  rewrite where_gt_condition by exact Hp. intros [= <-].
  unfold condition_mask. destruct (any _); [|exact I].
  cbn. rewrite length_map. exact Hp.
Qed.

(** [x += y] on complete flags gives complete flags, in which every
    flag that was set is set. *)
Lemma array_iadd_grows (s : list nat) (flags : list bool) other flags' :
  length flags = prod_shape s ->
  npbool_complete other ->
  array_iadd s flags other = Some flags' ->
  length flags' = prod_shape s /\
  forall i, flags !! i = Some true -> flags' !! i = Some true.
Proof.
  intros Hl Hother. destruct other as [b|a]; cbn [array_iadd].
  - intros [= <-]. split; [rewrite length_map; exact Hl|].
    intros i Hi. rewrite list_lookup_fmap, Hi. reflexivity.
  - intros Hb. apply fmap_Some in Hb as (r & Hr & ->).
    pose proof (broadcast_to_length _ _ _ Hother Hr) as Hlen.
    split; [rewrite length_zip_with; lia|].
    intros i Hi. rewrite lookup_zip_with, Hi. cbn.
    destruct (lookup_lt_is_Some_2 r i) as [y Hy];
      [apply lookup_lt_Some in Hi; lia|].
    rewrite Hy. reflexivity.
Qed.

(** [masked_where] on data with a complete mask: the mask is complete
    and every cell that was masked is masked. *)
Lemma masked_where_grows condition a d :
  npbool_complete condition ->
  length (getmaskarray a) = prod_shape (ma_shape a) ->
  masked_where condition a = Ok d ->
  ma_shape d = ma_shape a /\ ma_values d = ma_values a /\
  length (getmaskarray d) = prod_shape (ma_shape a) /\
  forall i, getmaskarray a !! i = Some true -> getmaskarray d !! i = Some true.
Proof.
  intros Hcond Ha.
  assert (Hby : forall b : bool,
             let d := if b then
                        mkMA (ma_shape a) (ma_values a)
                          (MaskArray (replicate (prod_shape (ma_shape a)) true))
                      else a in
             ma_shape d = ma_shape a /\ ma_values d = ma_values a /\
             length (getmaskarray d) = prod_shape (ma_shape a) /\
             forall i, getmaskarray a !! i = Some true ->
                       getmaskarray d !! i = Some true).
  { intros [|]; cbv zeta; [|repeat split; auto].
    repeat split; [apply length_replicate|].
    intros i Hi. unfold getmaskarray at 1. cbn [ma_mask].
    apply lookup_replicate_2. apply lookup_lt_Some in Hi. lia. }
  unfold masked_where. destruct condition as [b|c].
  - intros [= <-]. apply Hby.
  - destruct (bool_decide (shape c = [])); [intros [= <-]; apply Hby|].
    destruct (bool_decide (shape c = ma_shape a)) eqn:Hs; [|discriminate].
    apply bool_decide_eq_true in Hs. cbn [npbool_complete] in Hcond.
    rewrite Hs in Hcond.
    intros [= <-]. split; [reflexivity|]. split; [reflexivity|].
    unfold getmaskarray in *. cbn [ma_mask ma_shape]. unfold mask_or.
    destruct (ma_mask a) as [|old].
    + destruct (any (elems c)).
      * split; [congruence|]. intros i Hi.
        apply lookup_replicate in Hi as [Hi _]. discriminate Hi.
      * split; [exact Ha|auto].
    + split; [rewrite length_zip_with; lia|].
      intros i Hi. rewrite lookup_zip_with, Hi.
      destruct (lookup_lt_is_Some_2 (elems c) i) as [y Hy];
        [apply lookup_lt_Some in Hi; lia|].
      rewrite Hy. cbn. rewrite orb_true_r. reflexivity.
Qed.

Section MasksGrow.

Context {iris : IrisLibrary}.

Lemma grows_lift {A} (Q : A -> Prop) cube (r : Result A) :
  (forall a, r = Ok a -> Q a) -> grows_with Q cube (lift r).
Proof.
  intros Hq h c res h' Hc _ [= <- <-]. exists c.
  rewrite list_insert_id by exact Hc.
  split; [reflexivity|]. split; [apply mask_grows_refl | exact Hq].
Qed.

Lemma grows_bind {A B} (Q : A -> Prop) (Q' : B -> Prop) cube
    (m : M A) (k : A -> M B) :
  grows_with Q cube m ->
  (forall a, Q a -> grows_with Q' cube (k a)) ->
  grows_with Q' cube (bind m k).
Proof.
  intros Hm Hk h c res h' Hc Hcomplete. unfold bind.
  destruct (m h) as [[a|e] h1] eqn:Hrun;
    destruct (Hm h c _ _ Hc Hcomplete Hrun) as (c1 & -> & Hg & Hq).
  - intros Hrun2.
    destruct (Hk a (Hq a eq_refl) _ c1 _ _ (put_then_get _ _ _ _ Hc)
                (proj1 (proj2 Hg Hcomplete)) Hrun2) as (c2 & -> & Hg2 & Hq2).
    exists c2. rewrite list_insert_insert_eq.
    split; [reflexivity|]. split; [eapply mask_grows_trans; eassumption | exact Hq2].
  - intros [= <- <-]. exists c1.
    split; [reflexivity|]. split; [exact Hg | discriminate].
Qed.

Lemma mask_iadd_grows cube mask other :
  mask_var_complete mask ->
  npbool_complete other ->
  grows_with mask_var_complete cube (mask_iadd cube mask other).
Proof.
  intros Hmask Hother h c res h' Hc Hcomplete. unfold mask_iadd.
  assert (Hsame : forall r : Result MaskVar,
             (forall a, r = Ok a -> mask_var_complete a) ->
             (r, h) = (res, h') ->
             exists c',
               h' = <[cube := c']> h /\ mask_grows c c' /\
               forall a, res = Ok a -> mask_var_complete a).
  { intros r Hr [= <- <-]. exists c. rewrite list_insert_id by exact Hc.
    split; [reflexivity|]. split; [apply mask_grows_refl | exact Hr]. }
  destruct mask as [[b|m]|].
  - apply Hsame. intros a [= <-]. cbn [mask_var_complete].
    destruct other as [b'|a]; cbn [scalar_add]; [exact I|].
    destruct (bool_decide (shape a = [])); [exact I|].
    cbn. rewrite length_map. exact Hother.
  - cbn [mask_var_complete npbool_complete] in Hmask.
    destruct (array_iadd (shape m) (elems m) other) as [flags|] eqn:Hadd;
      apply Hsame; [|discriminate].
    intros a [= <-]. cbn.
    apply (array_iadd_grows _ _ _ _ Hmask Hother Hadd).
  - unfold bind. rewrite (get_cube_lookup _ _ _ Hc).
    destruct (array_iadd _ _ other) as [flags|] eqn:Hadd;
      [|apply Hsame; discriminate].
    destruct (array_iadd_grows _ _ _ _ Hcomplete Hother Hadd) as [Hlen Hgrow].
    unfold put_cube, ret. intros [= <- <-]. eexists.
    split; [reflexivity|]. split; [|intros a [= <-]; exact I].
    split; [repeat split|]. intros _. split; [exact Hlen | exact Hgrow].
Qed.

Lemma masked_where_data_grows cube mask :
  mask_var_complete mask ->
  grows_with (fun r => r = cube) cube
    (let! c := get_cube cube in
     let! d := lift (masked_where (mask_value mask c) (data c)) in
     do! put_cube cube (set_data c d) in
     ret cube).
Proof.
  intros Hmask h c res h' Hc Hcomplete. unfold bind, lift, put_cube, ret.
  rewrite (get_cube_lookup _ _ _ Hc).
  assert (Hvalue : npbool_complete (mask_value mask c)).
  { destruct mask as [v|]; [exact Hmask|].
    unfold mask_value, mask_attr. unfold mask_complete, getmaskarray in Hcomplete.
    destruct (ma_mask (data c)); [exact I | exact Hcomplete]. }
  destruct (masked_where (mask_value mask c) (data c)) as [d|e] eqn:Hd;
    intros [= <- <-].
  - destruct (masked_where_grows _ _ _ Hvalue Hcomplete Hd) as (Hs & Hv & Hl & Hg).
    eexists. split; [reflexivity|]. split; [|intros a [= <-]; reflexivity].
    split; [repeat split; assumption|]. intros _.
    split; [|exact Hg]. unfold mask_complete. cbn [set_data data]. congruence.
  - exists c. rewrite list_insert_id by exact Hc.
    split; [reflexivity|]. split; [apply mask_grows_refl | discriminate].
Qed.

(** X12.  On an irregular grid [extract_region] never lifts a mask.
    Whatever the shapes of the latitude and longitude arrays, and whether
    the call returns or raises, the cube at the address of the input has
    the dimensions, coordinates, shape and values it had, a mask of the
    same length, and every cell that was masked is masked still. *)
Theorem extract_region_irregular_never_unmasks
    (h : Heap) cube c latitude res h'
    start_longitude end_longitude start_latitude end_latitude :
  h !! cube = Some c ->
  coords c !! "latitude" = Some latitude ->
  points_ndim (points latitude) <> 1%nat ->
  mask_complete c ->
  (forall name co, coords c !! name = Some co -> points_complete (points co)) ->
  extract_region cube start_longitude end_longitude start_latitude end_latitude h =
    (res, h') ->
  exists c',
    h' = <[cube := c']> h /\
    only_mask c c' /\
    length (getmaskarray (data c')) = length (getmaskarray (data c)) /\
    forall i, getmaskarray (data c) !! i = Some true ->
              getmaskarray (data c') !! i = Some true.
Proof.
  intros Hc Hlat Hnd Hcomplete Hpoints. unfold extract_region. unfold bind at 1.
  rewrite (get_cube_lookup _ _ _ Hc).
  unfold bind at 1, lift at 1, coord. rewrite Hlat.
  destruct (points_ndim (points latitude) =? 1)%nat eqn:E;
    [apply Nat.eqb_eq in E; contradiction|].
  unfold bind at 1, lift at 1.
  destruct (coords c !! "longitude") as [longitude|] eqn:Hlon.
  - intros Hrun.
    match type of Hrun with
    | ?m h = _ => assert (Heff : grows_with (fun r => r = cube) cube m)
    end.
    { assert (Hstart : mask_var_complete (data_mask c))
        by (unfold data_mask; destruct (ma_mask (data c)); exact I).
      revert Hstart. generalize (data_mask c). intros mask Hmask.
      apply (grows_bind npbool_complete);
        [apply grows_lift; intros v; apply where_lt_complete; eapply Hpoints, Hlat
        |intros other Hother].
      apply (grows_bind mask_var_complete);
        [apply mask_iadd_grows; assumption | clear mask Hmask; intros mask Hmask].
      clear other Hother.
      apply (grows_bind npbool_complete);
        [apply grows_lift; intros v; apply where_gt_complete; eapply Hpoints, Hlat
        |intros other Hother].
      apply (grows_bind mask_var_complete);
        [apply mask_iadd_grows; assumption | clear mask Hmask; intros mask Hmask].
      clear other Hother.
      apply (grows_bind npbool_complete);
        [apply grows_lift; intros v; apply where_gt_complete; eapply Hpoints, Hlon
        |intros other Hother].
      apply (grows_bind mask_var_complete);
        [apply mask_iadd_grows; assumption | clear mask Hmask; intros mask Hmask].
      clear other Hother.
      apply (grows_bind npbool_complete);
        [apply grows_lift; intros v; apply where_gt_complete; eapply Hpoints, Hlon
        |intros other Hother].
      apply (grows_bind mask_var_complete);
        [apply mask_iadd_grows; assumption | clear mask Hmask; intros mask Hmask].
      apply masked_where_data_grows, Hmask. }
    destruct (Heff h c _ _ Hc Hcomplete Hrun) as (c' & -> & [HR HG] & _).
    destruct (HG Hcomplete) as [Hc' Hgrow].
    exists c'. split; [reflexivity|]. split; [exact HR|]. split; [|exact Hgrow].
    unfold mask_complete in *. destruct HR as (_ & _ & Hs & _). congruence.
  - intros [= <- <-]. exists c. rewrite list_insert_id by exact Hc.
    split; [reflexivity|]. split; [apply only_mask_refl|]. auto.
Qed.

End MasksGrow.

Lemma extract_region_irregular_never_unmasks_witness :
  exists c',
    snd (extract_region (iris := Samples.lib) 0 0 100 (-5) 5 [Samples.curvilinear]) =
      <[0%nat := c']> [Samples.curvilinear] /\
    only_mask Samples.curvilinear c' /\
    length (getmaskarray (data c')) =
      length (getmaskarray (data Samples.curvilinear)) /\
    forall i, getmaskarray (data Samples.curvilinear) !! i = Some true ->
              getmaskarray (data c') !! i = Some true.
Proof.
  refine (extract_region_irregular_never_unmasks (iris := Samples.lib)
            [Samples.curvilinear] 0 Samples.curvilinear
            (mkCoord (NumPoints (mkArr [2; 2]%nat [0; 1; 10; 11]%Q)) None)
            (fst (extract_region (iris := Samples.lib) 0 0 100 (-5) 5
                    [Samples.curvilinear])) _
            0 100 (-5) 5 _ _ _ _ _ _).
  - reflexivity.
  - vm_compute. reflexivity.
  - vm_compute. discriminate.
  - reflexivity.
  - intros name co Hco.
    change (coords Samples.curvilinear)
      with (<["latitude" := mkCoord (NumPoints (mkArr [2; 2]%nat [0; 1; 10; 11]%Q)) None]>
              (<["longitude" := mkCoord (NumPoints (mkArr [2; 2]%nat [5; 50; 6; 51]%Q)) None]>
                 (∅ : gmap string Coord))) in Hco.
    apply lookup_insert_Some in Hco as [[_ <-]|[_ Hco]]; [reflexivity|].
    apply lookup_insert_Some in Hco as [[_ <-]|[_ Hco]]; [reflexivity|].
    rewrite lookup_empty in Hco. discriminate.
  - destruct (extract_region _ _ _ _ _ _); reflexivity.
Defined.

(** ** Tiling is broadcasting *)

Lemma tile_same_ones {A} (s : list nat) (l : list A) :
  length l = prod_shape s ->
  tile_same (replicate (length s) 1) s l = l.
Proof.
  revert l. induction s as [|m s IH]; intros l Hl; [reflexivity|].
  cbn [length replicate tile_same]. rewrite repeat_block_1.
  cbn [prod_shape] in Hl.
  rewrite <- (chunks_flatten m (prod_shape s) l Hl) at 2. f_equal.
  pose proof (chunks_length_each m (prod_shape s) l Hl) as Hc.
  induction Hc as [|b bs Hb _ IHc]; [reflexivity|].
  cbn. rewrite IH by exact Hb. rewrite IHc. reflexivity.
Qed.

Lemma tile_same_leading {A} (lead s : list nat) (l : list A) :
  length l = prod_shape s ->
  tile_same (lead ++ replicate (length s) 1) (replicate (length lead) 1 ++ s) l =
    repeat_block (prod_shape lead) l.
Proof.
  intros Hl. induction lead as [|n lead IH].
  - cbn [app length replicate prod_shape]. rewrite repeat_block_1.
    apply tile_same_ones, Hl.
  - cbn [app length replicate tile_same prod_shape].
    rewrite prod_shape_ones. cbn [chunks map].
    rewrite firstn_all2 by lia. rewrite IH.
    unfold flatten at 1. cbn [concat]. rewrite app_nil_r.
    apply repeat_block_mul.
Qed.

(** X13.  In the three cases in which the areas of a file are tiled,
    the tiled array is the areas repeated once for every position on the
    leading axes of the cube, so that every such position carries the
    same areas; when the shape of the areas is the trailing part of the
    shape of the cube this is what numpy broadcasting of the areas to
    that shape gives. *)
Theorem tile_grid_areas_is_broadcast (cube_shape : list nat) (areas : ndarray Q) :
  supported_ranks (length cube_shape) (ndim areas) = true ->
  length (elems areas) = prod_shape (shape areas) ->
  let lead := take (length cube_shape - ndim areas) cube_shape in
  elems (tile_grid_areas cube_shape areas) =
    repeat_block (prod_shape lead) (elems areas) /\
  (cube_shape = lead ++ shape areas ->
   broadcast_to cube_shape areas = Some (elems (tile_grid_areas cube_shape areas)) /\
   tile_grid_areas cube_shape areas =
     mkArr cube_shape (repeat_block (prod_shape lead) (elems areas))).
Proof.
  intros Hsup Hl lead.
  assert (Helems : elems (tile_grid_areas cube_shape areas) =
                   repeat_block (prod_shape lead) (elems areas)).
  { subst lead. destruct areas as [sa la]. unfold tile_grid_areas, ndim in *.
    cbn [shape elems] in *.
    destruct cube_shape as [|s0 [|s1 [|s2 [|s3 [|s4 r]]]]]; try discriminate;
      destruct sa as [|a0 [|a1 [|a2 [|a3 ra]]]]; try discriminate;
      cbn [length Nat.eqb andb nth tile elems shape ndim Nat.max pad_left
             Nat.sub replicate app take].
    - apply (tile_same_leading [s0] [a0; a1] la Hl).
    - apply (tile_same_leading [s0; s1] [a0; a1] la Hl).
    - apply (tile_same_leading [s0] [a0; a1; a2] la Hl). }
  split; [exact Helems|].
  intros Hshape. split.
  - rewrite Helems, Hshape at 1. apply broadcast_to_leading, Hl.
  - destruct (tile_grid_areas cube_shape areas) as [ts te] eqn:Et.
    cbn in Helems. subst te. f_equal.
    pose proof (tile_grid_areas_shape cube_shape areas Hsup) as Hs.
    rewrite Et in Hs. cbn in Hs. fold lead in Hs. congruence.
Qed.

Lemma tile_grid_areas_is_broadcast_witness :
  let areas := array_of (data Samples.cell_areas) in
  let lead := take (3 - 2) [3; 4; 2]%nat in
  elems (tile_grid_areas [3; 4; 2]%nat areas) =
    repeat_block (prod_shape lead) (elems areas) /\
  ([3; 4; 2]%nat = lead ++ shape areas ->
   broadcast_to [3; 4; 2]%nat areas =
     Some (elems (tile_grid_areas [3; 4; 2]%nat areas)) /\
   tile_grid_areas [3; 4; 2]%nat areas =
     mkArr [3; 4; 2]%nat (repeat_block (prod_shape lead) (elems areas))).
Proof.
  apply (tile_grid_areas_is_broadcast [3; 4; 2]%nat
           (array_of (data Samples.cell_areas))); evaluate.
Defined.


(** ** Tags of the configuration *)

Section TagProperties.

Context {V : Type}.

Variable TAGS : gmap string (gmap string V).
Variable TAGS_CONFIG_FILE : string.

Lemma get_tag_value_Ok section tag value :
  get_tag_value TAGS TAGS_CONFIG_FILE section tag = Ok value <->
  exists sec, TAGS !! section = Some sec /\ sec !! tag = Some value.
Proof.
  unfold get_tag_value. split.
  - destruct (TAGS !! section) as [sec|]; [|discriminate].
    destruct (sec !! tag) as [v|] eqn:Hv; [|discriminate].
    intros [= <-]. exists sec. auto.
  - intros (sec & -> & ->). reflexivity.
Qed.

(** X14.  [replace_tags] returns the values of the tags of the section,
    one for each tag and in their order, exactly when the section holds
    every tag; with no tag it returns the empty tuple, whether the
    section exists or not.  When a tag fails after tags that were found,
    the error is the error of that tag, whatever follows it. *)
Theorem replace_tags_in_order (section : string) (tags : list string) :
  (forall values,
     replace_tags TAGS TAGS_CONFIG_FILE section tags = Ok values <->
     Forall2 (fun tag value =>
                exists sec, TAGS !! section = Some sec /\ sec !! tag = Some value)
       tags values) /\
  (forall before tag after e,
     tags = before ++ tag :: after ->
     (forall t, t ∈ before ->
        exists v, get_tag_value TAGS TAGS_CONFIG_FILE section t = Ok v) ->
     get_tag_value TAGS TAGS_CONFIG_FILE section tag = Raise e ->
     replace_tags TAGS TAGS_CONFIG_FILE section tags = Raise e).
Proof.
  split.
  - induction tags as [|tag rest IH]; intros values; cbn [replace_tags].
    + split.
      * intros [= <-]. constructor.
      * intros H. inversion H. reflexivity.
    + split.
      * destruct (get_tag_value _ _ section tag) as [v|] eqn:Hv; [|discriminate].
        destruct (replace_tags _ _ section rest) as [vs|] eqn:Hvs; [|discriminate].
        intros [= <-]. constructor; [apply get_tag_value_Ok, Hv|].
        apply IH. reflexivity.
      * intros H. inversion H as [|t v ts vs Hv Hvs]; subst.
        apply get_tag_value_Ok in Hv. rewrite Hv.
        apply IH in Hvs. rewrite Hvs. reflexivity.
  - intros before tag after e -> Hbefore Hfail.
    induction before as [|t before IH]; cbn [app replace_tags].
    + rewrite Hfail. reflexivity.
    + destruct (Hbefore t) as [v Hv]; [apply elem_of_cons; left; reflexivity|].
      rewrite Hv. rewrite IH; [reflexivity|].
      intros t' Ht'. apply Hbefore. apply elem_of_cons. right. exact Ht'.
Qed.

End TagProperties.

(** A section with two tags: the values come in the order of the
    request; a missing tag is named with its section, a missing section
    by itself, and nothing is looked up when no tag is asked. *)
Example replace_tags_on_a_section :
  let TAGS : gmap string (gmap string string) :=
    {[ "authors" := {[ "righ_ma" := "Righi, Mattia"; "eyri_ve" := "Eyring, Veronika" ]} ]} in
  let file := "config-references.yml" in
  replace_tags TAGS file "authors" ["eyri_ve"; "righ_ma"] =
    Ok ["Eyring, Veronika"; "Righi, Mattia"] /\
  replace_tags TAGS file "authors" ["eyri_ve"; "nobody"; "righ_ma"] =
    Raise (mkExn ValueError
             [Formatted tag_missing [PStr "nobody"; PStr "authors"; PStr file]]) /\
  replace_tags TAGS file "themes" ["phys"] =
    Raise (mkExn ValueError [Formatted section_missing [PStr "themes"; PStr file]]) /\
  replace_tags TAGS file "themes" [] = Ok [].
Proof. vm_compute. repeat split; reflexivity. Qed.
